(** * LogPSplines: knot placement, basis/penalty construction, weight
    initialisation and the [LogPSplines] model

    A shallow embedding of [log_psplines/initialisation.py],
    [log_psplines/psplines.py] and [log_psplines/datasets.py], and of
    [run_mcmc] of [log_psplines/mcmc.py] up to the call of the sampler.

    Conventions of the embedding.
    - Python [int] is [Z]; Python and numpy floats are real numbers [R]
      (exact arithmetic on finite values).  Where the source itself produces
      and consumes IEEE special values ([np.inf] in the basis normalisation)
      array entries are extended values [fval].
    - One-dimensional float arrays are [list R]; arrays whose shape matters
      are [ndarray]: a shape and a row-major buffer, as numpy stores them.
    - A raised exception is [Err e]; a normal return is [Ok v].
    - Dataclass instances live in a store ([gmap loc _]) where identity or
      mutation matters: [Periodogram.highpass] and the property
      [log_parametric_model].
    - scikit-fda, JAX and [bayesian_model.py] are not among the embedded
      files: what the code calls from them is the interface [Skfda] and the
      interface [Autodiff]; the sampler of numpyro is the interface
      [Numpyro]. *)

From Stdlib Require Import Reals Lra Lia ZArith.
From stdpp Require Import base option list gmap strings sorting pretty.

Open Scope R_scope.

(** ** Exceptions and results *)

(** [NotModelled] marks inputs on which the embedding does not follow the
    program: argument classes that the type annotations exclude. *)
Inductive exn :=
| ValueError (msg : string)
| TypeError (msg : string)
| IndexError (msg : string)
| AttributeError (msg : string)
| NotModelled (what : string).

Inductive result (A : Type) :=
| Ok (a : A)
| Err (e : exn).
Arguments Ok {A} a.
Arguments Err {A} e.

#[export] Instance result_ret : MRet result := λ A a, Ok a.
#[export] Instance result_bind : MBind result :=
  λ A B f m, match m with Ok a => f a | Err e => Err e end.

Definition is_value_error {A} (r : result A) : Prop :=
  ∃ msg, r = Err (ValueError msg).

(** ** numpy helpers over real arrays *)

#[export] Instance Rle_rel_dec : RelDecision Rle := Rle_dec.
#[export] Instance Rlt_rel_dec : RelDecision Rlt := Rlt_dec.
#[export] Instance R_eq_dec : EqDecision R := Req_dec_T.
#[export] Instance Rle_total : Total Rle.
Proof. intros x y. lra. Qed.
#[export] Instance Rle_transitive : Transitive Rle.
Proof. intros x y z. lra. Qed.
#[export] Instance Rlt_transitive : Transitive Rlt.
Proof. intros x y z. lra. Qed.

(** [a[1:-1]] *)
Definition slice_1_m1 {A} (a : list A) : list A :=
  take (length a - 2) (drop 1 a).

(** [np.sum] *)
Definition np_sum (a : list R) : R := foldr Rplus 0 a.

(** [np.cumsum] *)
Fixpoint cumsum_from (acc : R) (a : list R) : list R :=
  match a with
  | [] => []
  | x :: a' => (acc + x) :: cumsum_from (acc + x) a'
  end.
Definition np_cumsum (a : list R) : list R := cumsum_from 0 a.

(** [np.linspace(start, stop, num)] with the default [endpoint=True]:
    [arange(num) * step + start] with [step = (stop - start) / (num - 1)],
    the last sample overwritten by [stop].  (numpy raises on a negative
    [num]; every call below passes [num >= 0].) *)
Definition linspace (start stop : R) (num : Z) : list R :=
  match Z.to_nat num with
  | O => []
  | S div =>
      let step := (stop - start) / INR div in
      match div with
      | O => [start]
      | S _ => ((λ i, INR i * step + start) <$> seq 0 div) ++ [stop]
      end
  end.

(** [np.log10] and [np.logspace(start, stop, num)], which is
    [10 ** linspace(start, stop, num)]. *)
Definition log10 (x : R) : R := ln x / ln 10.
Definition logspace (start stop : R) (num : Z) : list R :=
  Rpower 10 <$> linspace start stop num.

(** [np.sort] on finite reals. *)
Definition np_sort (a : list R) : list R := merge_sort Rle a.

(** [np.interp(x, xp, fp)] for one abscissa: [fp[0]] to the left of [xp[0]],
    [fp[-1]] to the right of [xp[-1]], and on the segment
    [xp[j] <= x < xp[j+1]] the value [slope * (x - xp[j]) + fp[j]].
    numpy locates [j] by bisection; for the non-decreasing [xp] it requires,
    [j] is the first index with [x < xp[j+1]], which the scan computes. *)
Fixpoint interp_scan (x : R) (xp fp : list R) : R :=
  match xp, fp with
  | x0 :: ((x1 :: _) as xp'), f0 :: ((f1 :: _) as fp') =>
      if decide (x < x1)
      then (f1 - f0) / (x1 - x0) * (x - x0) + f0
      else interp_scan x xp' fp'
  | _, f0 :: _ => f0
  | _, [] => 0
  end.

Definition interp1 (x : R) (xp fp : list R) : R :=
  match xp, fp, last xp, last fp with
  | x0 :: _, f0 :: _, Some xl, Some fl =>
      if decide (xl < x) then fl
      else if decide (x < x0) then f0
      else interp_scan x xp fp
  | _, _, _, _ => 0
  end.

(** [np.interp] on an array of abscissae; numpy refuses [xp] and [fp] of
    different lengths and an empty [xp]. *)
Definition np_interp (xs xp fp : list R) : result (list R) :=
  if decide (length xp = length fp) then
    if decide (length xp = 0%nat)
    then Err (ValueError "array of sample points is empty")
    else Ok ((λ x, interp1 x xp fp) <$> xs)
  else Err (ValueError "fp and xp are not of the same length.").

(** Python's [int(x)] on a float: truncation towards zero. *)
Definition py_int (x : R) : Z :=
  if decide (0 <= x) then Int_part x else (- Int_part (- x))%Z.

(** ** datasets.py: the [Periodogram] dataclass *)

Module Periodogram.
Record t := mk {
  freqs : list R;
  power : list R;
  filtered : bool
}.

(** the property [n] *)
Definition n (self : t) : Z := Z.of_nat (length (freqs self)).
End Periodogram.

(** ** initialisation.py: [init_knots]

    The products [frac * (n_knots - 2)] that [int] truncates are exact
    here, like every operation on floats.  A double product can differ from
    the exact one by a rounding, and so can its truncation when the exact
    product lies within a rounding of an integer. *)

Definition init_knots (periodogram : Periodogram.t) (n_knots : Z)
    (frac_uniform frac_log : R) : result (list R) :=
  if decide (n_knots < 2)%Z then
    Err (ValueError
           "At least two knots are required (min and max frequencies).")
  else
    match head (Periodogram.freqs periodogram),
          last (Periodogram.freqs periodogram) with
    | Some min_freq, Some max_freq =>
        if decide (n_knots = 2)%Z then Ok [min_freq; max_freq]
        else
          (* Ensure fractions sum to at most 1 *)
          let frac_uniform := Rmax 0 (Rmin frac_uniform 1) in
          let frac_log := Rmax 0 (Rmin frac_log 1) in
          (* Compute number of knots in each category *)
          let n_uniform :=
            if decide (0 < frac_uniform)
            then py_int (frac_uniform * IZR (n_knots - 2)) else 0%Z in
          let n_log :=
            if decide (0 < frac_log)
            then py_int (frac_log * IZR (n_knots - 2)) else 0%Z in
          let n_density :=
            Z.max 0 ((n_knots - 2) - (n_uniform + n_log)) in
          (* Uniformly spaced knots (excluding min/max) *)
          let uniform_knots :=
            if decide (0 < n_uniform)%Z
            then slice_1_m1 (linspace min_freq max_freq (n_uniform + 2))
            else [] in
          (* Log-spaced knots (excluding min/max) *)
          let log_knots :=
            if decide (0 < n_log)%Z
            then slice_1_m1
                   (logspace (log10 min_freq) (log10 max_freq) (n_log + 2))
            else [] in
          (* Power-based density sampling *)
          density_knots ←
            (if decide (0 < n_density)%Z then
               let power := Periodogram.power periodogram in
               let density := (λ x, x / np_sum power) <$> power in
               let cdf := np_cumsum density in
               let quantiles := slice_1_m1 (linspace 0 1 (n_density + 2)) in
               np_interp quantiles cdf (Periodogram.freqs periodogram)
             else Ok []);
          (* Combine and sort *)
          let knots :=
            [min_freq] ++ uniform_knots ++ log_knots ++ density_knots
              ++ [max_freq] in
          let knots := np_sort knots in
          (* normalize to [0, 1] *)
          Ok ((λ k, (k - min_freq) / (max_freq - min_freq)) <$> knots)
    | _, _ => Err (IndexError "index 0 is out of bounds")
    end.

(** ** Extended float values and [ndarray]

    The basis builder writes [np.inf] into an array and divides by it, so
    its arrays carry IEEE special values next to the finite reals.  The sign
    of zero is not tracked: a zero divisor counts as [+0.0], which is what a
    difference of equal finite values is. *)

Inductive fval :=
| Fin (r : R)
| PInf
| NInf
| NaN.

#[export] Instance fval_inhabited : Inhabited fval := populate NaN.
#[export] Instance fval_eq_dec : EqDecision fval.
Proof. solve_decision. Defined.

Definition is_finite (v : fval) : Prop :=
  match v with Fin _ => True | _ => False end.

Definition fneg (a : fval) : fval :=
  match a with Fin x => Fin (- x) | PInf => NInf | NInf => PInf | NaN => NaN end.

(** the infinity with the sign of [x], for a finite [x <> 0] *)
Definition inf_with_sign_of (x : R) : fval :=
  if decide (0 < x) then PInf else NInf.

(** IEEE [a / b] *)
Definition fdiv (a b : fval) : fval :=
  match a, b with
  | NaN, _ | _, NaN => NaN
  | Fin x, Fin y =>
      if decide (y = 0)
      then (if decide (x = 0) then NaN else inf_with_sign_of x)
      else Fin (x / y)
  | Fin _, (PInf | NInf) => Fin 0
  | (PInf | NInf), (PInf | NInf) => NaN
  | PInf, Fin y => if decide (y < 0) then NInf else PInf
  | NInf, Fin y => if decide (y < 0) then PInf else NInf
  end.

(** IEEE [a + b] *)
Definition fadd (a b : fval) : fval :=
  match a, b with
  | NaN, _ | _, NaN => NaN
  | Fin x, Fin y => Fin (x + y)
  | PInf, NInf | NInf, PInf => NaN
  | PInf, _ | _, PInf => PInf
  | NInf, _ | _, NInf => NInf
  end.

(** IEEE [a * b] *)
Definition fmul (a b : fval) : fval :=
  match a, b with
  | NaN, _ | _, NaN => NaN
  | Fin x, Fin y => Fin (x * y)
  | Fin x, i | i, Fin x =>
      if decide (x = 0) then NaN
      else if decide (0 < x) then i else fneg i
  | PInf, PInf | NInf, NInf => PInf
  | PInf, NInf | NInf, PInf => NInf
  end.

(** the maximum as [np.max] folds it: a NaN operand wins *)
Definition fmax (a b : fval) : fval :=
  match a, b with
  | NaN, _ | _, NaN => NaN
  | PInf, _ | _, PInf => PInf
  | NInf, c | c, NInf => c
  | Fin x, Fin y => Fin (Rmax x y)
  end.

(** An array: its shape and its elements in row-major order. *)
Record ndarray (A : Type) := mkArr {
  shape : list nat;
  data : list A
}.
Arguments mkArr {A} shape data.
Arguments shape {A} _.
Arguments data {A} _.

(** the number of elements a shape holds *)
Definition size_of (s : list nat) : nat := foldr Nat.mul 1%nat s.

(** the array is well formed: its buffer has as many elements as its shape *)
Definition wf_array {A} (a : ndarray A) : Prop :=
  length (data a) = size_of (shape a).

(** all multi-indices of a shape, in row-major order *)
Fixpoint indices (s : list nat) : list (list nat) :=
  match s with
  | [] => [[]]
  | d :: s' => i ← seq 0 d; (λ idx, i :: idx) <$> indices s'
  end.

(** the offset of a multi-index in the row-major buffer of shape [s] *)
Fixpoint ravel (s idx : list nat) : nat :=
  match s, idx with
  | _ :: s', i :: idx' => (i * size_of s' + ravel s' idx')%nat
  | _, _ => 0%nat
  end.

(** [a.squeeze()]: every axis of length one is dropped *)
Definition squeeze {A} (a : ndarray A) : ndarray A :=
  mkArr (filter (λ d, d ≠ 1%nat) (shape a)) (data a).

(** [a.T]: the axes reversed *)
Definition transpose `{Inhabited A} (a : ndarray A) : ndarray A :=
  mkArr (reverse (shape a))
        ((λ idx, data a !!! ravel (shape a) (reverse idx))
           <$> indices (reverse (shape a))).

(** numpy broadcasting of two shapes, aligned at their last axes: paired
    axes must agree or one of them be 1. *)
Fixpoint broadcast_rev (r1 r2 : list nat) : option (list nat) :=
  match r1, r2 with
  | [], r | r, [] => Some r
  | d1 :: r1', d2 :: r2' =>
      r ← broadcast_rev r1' r2';
      if decide (d1 = d2) then Some (d1 :: r)
      else if decide (d1 = 1%nat) then Some (d2 :: r)
      else if decide (d2 = 1%nat) then Some (d1 :: r)
      else None
  end.
Definition broadcast_shape (s1 s2 : list nat) : option (list nat) :=
  reverse <$> broadcast_rev (reverse s1) (reverse s2).

(** the offset, in an operand of shape [s], of the element that the result's
    multi-index [idx] reads: leading result axes the operand lacks are
    dropped, and an operand axis of length one is read at 0. *)
Definition bcast_offset (s idx : list nat) : nat :=
  let idx' := drop (length idx - length s) idx in
  ravel s (zip_with (λ d i, if decide (d = 1%nat) then 0%nat else i) s idx').

(** an elementwise binary operation with broadcasting *)
Definition broadcast2 `{Inhabited A} (f : A → A → A) (a b : ndarray A)
    : result (ndarray A) :=
  match broadcast_shape (shape a) (shape b) with
  | Some s =>
      Ok (mkArr s
            ((λ idx, f (data a !!! bcast_offset (shape a) idx)
                       (data b !!! bcast_offset (shape b) idx))
               <$> indices s))
  | None =>
      Err (ValueError "operands could not be broadcast together")
  end.

(** a one-dimensional array and a scalar as [ndarray]s *)
Definition arr1 {A} (v : list A) : ndarray A := mkArr [length v] v.
Definition arr0 {A} (x : A) : ndarray A := mkArr [] [x].

(** [np.max(a)]; numpy refuses an empty array *)
Definition np_max (a : ndarray fval) : result fval :=
  match data a with
  | [] => Err (ValueError "zero-size array to reduction operation maximum")
  | x :: xs => Ok (foldl fmax x xs)
  end.

(** [np.eye(k)] *)
Definition np_eye (k : nat) : ndarray fval :=
  mkArr [k; k]
        ((λ idx, match idx with
                 | [i; j] => if decide (i = j) then Fin 1 else Fin 0
                 | _ => Fin 0
                 end) <$> indices [k; k]).

(** [np.repeat(v, k)] of a scalar; numpy refuses a negative count *)
Definition np_repeat (v : R) (k : Z) : result (list R) :=
  if decide (k < 0)%Z then Err (ValueError "negative dimensions are not allowed")
  else Ok (replicate (Z.to_nat k) v).

(** the slices [a[k:]] and [a[:k]]: a negative bound counts from the end *)
Definition slice_index {A} (k : Z) (a : list A) : nat :=
  if decide (k < 0)%Z then Z.to_nat (Z.of_nat (length a) + k) else Z.to_nat k.
Definition slice_from {A} (k : Z) (a : list A) : list A :=
  drop (slice_index k a) a.
Definition slice_to {A} (k : Z) (a : list A) : list A :=
  take (slice_index k a) a.

(** ** The scikit-fda collaborator

    [init_basis_and_penalty] obtains the raw B-spline design matrix and the
    raw penalty matrix from scikit-fda, which is not part of this
    repository.  The interface lists the three calls the source makes. *)

Class Skfda := {
  (** [BSplineBasis(domain_range=[0, 1], order=order, knots=knots)]: the
      constructor validates its arguments and may raise *)
  bspline_basis_init : list R → Z → result unit;
  (** [basis.to_basis().to_grid(grid_points).data_matrix], an array of shape
      (number of basis functions, number of grid points, 1) *)
  to_grid_data_matrix : list R → Z → list R → ndarray fval;
  (** [L2Regularization(LinearDifferentialOperator(q)).penalty_matrix(basis)] *)
  l2_penalty_matrix : list R → Z → Z → result (ndarray fval)
}.

(** ** initialisation.py: [init_basis_and_penalty] *)

(** the knots padded with [degree] boundary values at each end *)
Definition knots_with_boundary (knots : list R) (degree : Z)
    : result (list R) :=
  lo ← np_repeat 0 degree;
  hi ← np_repeat 1 degree;
  Ok (lo ++ knots ++ hi).

(** the per-column normalisation factors, zero spans replaced by [np.inf] *)
Definition norm_factor (kwb : list R) (degree : Z) : list fval :=
  let n_knots_total := Z.of_nat (length kwb) in
  let mid_to_end := slice_from (degree + 1) kwb in
  let start_to_mid := slice_to (n_knots_total - degree - 1) kwb in
  let norm_factor :=
    zip_with (λ m s, Fin ((m - s) / IZR (degree + 1)))
             mid_to_end start_to_mid in
  (* norm_factor[norm_factor == 0] = np.inf *)
  (λ v, if decide (v = Fin 0) then PInf else v) <$> norm_factor.

(** the raw penalty rescaled by its maximum: [p / np.max(p)] *)
Definition penalty_rescaled (p : ndarray fval) : result (ndarray fval) :=
  m ← np_max p;
  broadcast2 fdiv p (arr0 m).

(** the stabiliser added: [p + epsilon * np.eye(p.shape[1])] *)
Definition penalty_stabilised (epsilon : R) (p : ndarray fval)
    : result (ndarray fval) :=
  match shape p !! 1%nat with
  | None => Err (IndexError "tuple index out of range")
  | Some k =>
      let eye := np_eye k in
      broadcast2 fadd p (mkArr (shape eye) (fmul (Fin epsilon) <$> data eye))
  end.

Definition default_epsilon : R := 1 / 10 ^ 6.

Definition init_basis_and_penalty `{Skfda} (knots : list R)
    (degree n_grid_points diffMatrixOrder : Z) (epsilon : R)
    : result (ndarray fval * ndarray fval) :=
  let order := (degree + 1)%Z in
  _ ← bspline_basis_init knots order;
  _ ← (if decide (n_grid_points < 0)%Z
       then Err (ValueError "Number of samples must be non-negative.")
       else Ok ());
  let grid_points := linspace 0 1 n_grid_points in
  let basis_matrix :=
    transpose (squeeze (to_grid_data_matrix knots order grid_points)) in
  (* Augment knots with boundary values for proper normalization. *)
  kwb ← knots_with_boundary knots degree;
  let norm_factor := norm_factor kwb degree in
  basis_matrix ← broadcast2 fdiv basis_matrix (arr1 norm_factor);
  (* Compute the penalty matrix using L2 regularization. *)
  p ← l2_penalty_matrix knots order diffMatrixOrder;
  p ← penalty_rescaled p;
  p ← penalty_stabilised epsilon p;
  Ok (basis_matrix, p).

(** ** psplines.py: the [LogPSplines] dataclass *)

Module LogPSplines.
Record t := mk {
  degree : Z;
  diffMatrixOrder : Z;
  n : Z;
  basis : ndarray fval;
  penalty_matrix : ndarray fval;
  knots : list R;
  weights : list R;
  parametric_model : option (list R);
  (** the attribute the property [log_parametric_model] sets on its first
      access; a freshly constructed instance does not have it *)
  _log_parametric_model : option (list R)
}.

(** the properties [order], [n_knots] and [n_basis] *)
Definition order (self : t) : Z := (degree self + 1)%Z.
Definition n_knots (self : t) : Z := Z.of_nat (length (knots self)).
Definition n_basis (self : t) : Z := (n_knots self + degree self - 1)%Z.

Definition set_weights (w : list R) (self : t) : t :=
  mk (degree self) (diffMatrixOrder self) (n self) (basis self)
     (penalty_matrix self) (knots self) w (parametric_model self)
     (_log_parametric_model self).

Definition set_parametric_model (pm : option (list R)) (self : t) : t :=
  mk (degree self) (diffMatrixOrder self) (n self) (basis self)
     (penalty_matrix self) (knots self) (weights self) pm
     (_log_parametric_model self).

Definition set_log_parametric_model (c : option (list R)) (self : t) : t :=
  mk (degree self) (diffMatrixOrder self) (n self) (basis self)
     (penalty_matrix self) (knots self) (weights self)
     (parametric_model self) c.
End LogPSplines.

(** [LogPSplines.__post_init__] *)
Definition __post_init__ (self : LogPSplines.t) : result unit :=
  if decide (LogPSplines.degree self < LogPSplines.diffMatrixOrder self)%Z
  then Err (ValueError "Degree must be larger than diffMatrixOrder.")
  else if decide (LogPSplines.degree self ∉ [0; 1; 2; 3; 4; 5]%Z)
  then Err (ValueError "Degree must be between 0 and 5.")
  else if decide (LogPSplines.diffMatrixOrder self ∉ [0; 1; 2]%Z)
  then Err (ValueError "diffMatrixOrder must be 0, 1, or 2.")
  else if decide (LogPSplines.n_knots self < LogPSplines.degree self)%Z
  then Err (ValueError
              ("#knots: " +:+ pretty (LogPSplines.n_knots self)
                 +:+ ", degree: " +:+ pretty (LogPSplines.degree self)))
  else Ok ().

(** The dataclass constructor: the generated [__init__] stores the fields
    and then runs [__post_init__]. *)
Definition LogPSplines_init (degree diffMatrixOrder n : Z)
    (basis penalty_matrix : ndarray fval) (knots weights : list R)
    (parametric_model : option (list R)) : result LogPSplines.t :=
  let self :=
    LogPSplines.mk degree diffMatrixOrder n basis penalty_matrix knots
                   weights parametric_model None in
  _ ← __post_init__ self;
  Ok self.

(** ** The numerical collaborators of the weight initialiser

    [whittle_lnlike] and [build_spline] come from [bayesian_model.py], and
    the reverse-mode derivative from JAX; none of them is among the files
    embedded here, so they are the operations of an interface. *)

Class Autodiff := {
  (** [bayesian_model.whittle_lnlike(log_pdgrm, log_psd)] *)
  whittle_lnlike : list R → list R → R;
  (** [bayesian_model.build_spline(basis, weights)] *)
  build_spline : ndarray fval → list R → list R;
  (** [jax.value_and_grad(f)(w)]: the value of [f] at [w] and its gradient *)
  value_and_grad : (list R → R) → list R → R * list R
}.

(** [LogPSplines.__call__] *)
Definition LogPSplines_call `{Autodiff} (self : LogPSplines.t)
    (weights : option (list R)) : list R :=
  let weights := default (LogPSplines.weights self) weights in
  build_spline (LogPSplines.basis self) weights.

(** *** optax: the gradient-transformation interface and [adam] *)

Record GradientTransformation := {
  opt_state : Type;
  opt_init : list R → opt_state;
  opt_update : list R → opt_state → list R * opt_state
}.

Record ScaleByAdamState := mkAdam {
  count : Z;
  mu : list R;
  nu : list R
}.

(** [optax.adam(learning_rate)] with its defaults [b1 = 0.9], [b2 = 0.999],
    [eps = 1e-8], [eps_root = 0]: bias-corrected moment estimates, then a
    scaling by [-learning_rate]. *)
Definition adam (learning_rate : R) : GradientTransformation :=
  let b1 := 9 / 10 in
  let b2 := 999 / 1000 in
  let eps := 1 / 10 ^ 8 in
  let eps_root := 0 in
  {| opt_state := ScaleByAdamState;
     opt_init := λ params,
       mkAdam 0 ((λ _, 0) <$> params) ((λ _, 0) <$> params);
     opt_update := λ grads st,
       let mu' := zip_with (λ g m, (1 - b1) * g + b1 * m) grads (mu st) in
       let nu' :=
         zip_with (λ g v, (1 - b2) * (g * g) + b2 * v) grads (nu st) in
       let count_inc := (count st + 1)%Z in
       let mu_hat := (λ m, m / (1 - powerRZ b1 count_inc)) <$> mu' in
       let nu_hat := (λ v, v / (1 - powerRZ b2 count_inc)) <$> nu' in
       let updates :=
         zip_with (λ m v, m / (sqrt (v + eps_root) + eps)) mu_hat nu_hat in
       ((λ u, - learning_rate * u) <$> updates, mkAdam count_inc mu' nu') |}.

(** [optax.apply_updates] *)
Definition apply_updates (params updates : list R) : list R :=
  zip_with Rplus params updates.

(** [jax.lax.fori_loop(lower, upper, body, init)] *)
Definition fori_loop {S} (lower upper : Z) (body : Z → S → S) (init : S) : S :=
  foldl (λ s i, body i s) init (seqZ lower (upper - lower)).

(** [jnp.zeros(k)] and [jnp.ones(k)]; a negative length is refused *)
Definition jnp_full (v : R) (k : Z) : result (list R) :=
  if decide (k < 0)%Z then Err (ValueError "negative dimensions are not allowed")
  else Ok (replicate (Z.to_nat k) v).
Definition jnp_zeros : Z → result (list R) := jnp_full 0.
Definition jnp_ones : Z → result (list R) := jnp_full 1.

(** ** initialisation.py: [init_weights] *)

(** one iteration of the optimisation loop, the local function [step] *)
Definition init_weights_step `{Autodiff} (optimizer : GradientTransformation)
    (compute_loss : list R → R) (i : Z)
    (state : list R * opt_state optimizer)
    : list R * opt_state optimizer :=
  let '(weights, opt_state) := state in
  let '(loss, grads) := value_and_grad compute_loss weights in
  let '(updates, opt_state) := opt_update optimizer grads opt_state in
  let weights := apply_updates weights updates in
  (weights, opt_state).

Definition default_num_steps : Z := 5000.

Definition init_weights `{Autodiff} (log_pdgrm : list R)
    (log_psplines : LogPSplines.t) (init_weights : option (list R))
    (num_steps : Z) : result (list R) :=
  init_weights ←
    match init_weights with
    | None => jnp_zeros (LogPSplines.n_basis log_psplines)
    | Some w => Ok w
    end;
  let optimizer := adam (1 / 100) in
  let opt_state := opt_init optimizer init_weights in
  (* Define the loss as the negative log likelihood. *)
  let compute_loss := λ weights,
    - whittle_lnlike log_pdgrm (LogPSplines_call log_psplines (Some weights)) in
  let init_state := (init_weights, opt_state) in
  let final_state :=
    fori_loop 0 num_steps (init_weights_step optimizer compute_loss)
              init_state in
  let '(final_weights, _) := final_state in
  Ok final_weights.

(** ** Python values and the binding of call arguments

    [from_periodogram] passes its arguments to [init_knots] by position, so
    the classes of the values that reach each parameter matter.  [pyval] is
    the universe of values that can occur at that call. *)

Inductive pyval :=
| VNone
| VInt (z : Z)
| VFloat (x : R)
| VArray (a : list R)
| VPeriodogram (p : Periodogram.t).

Definition py_type_name (v : pyval) : string :=
  match v with
  | VNone => "NoneType"
  | VInt _ => "int"
  | VFloat _ => "float"
  | VArray _ => "ArrayImpl"
  | VPeriodogram _ => "Periodogram"
  end.

(** a number where a float is expected *)
Definition as_float (v : pyval) : option R :=
  match v with
  | VInt z => Some (IZR z)
  | VFloat x => Some x
  | _ => None
  end.

(** Binding positional arguments [args] and keyword arguments [kwargs] to
    the parameters of a [def], each a
    name with its default if it has one: positional arguments fill the
    parameters from the left, keywords the rest; a keyword that names no
    parameter, or one already filled by position, and a parameter left
    without a value are each a [TypeError]. *)
Fixpoint bind_params (params : list (string * option pyval))
    (args : list pyval) (kwargs : gmap string pyval) : result (list pyval) :=
  match params with
  | [] => Ok []
  | (name, dflt) :: params' =>
      v ← match args with
          | a :: _ =>
              if decide (name ∈ dom kwargs)
              then Err (TypeError ("got multiple values for argument " +:+ name))
              else Ok a
          | [] =>
              match kwargs !! name, dflt with
              | Some v, _ => Ok v
              | None, Some d => Ok d
              | None, None =>
                  Err (TypeError ("missing required argument " +:+ name))
              end
          end;
      vs ← bind_params params' (tail args) kwargs;
      Ok (v :: vs)
  end.

Definition bind_arguments (params : list (string * option pyval))
    (args : list pyval) (kwargs : gmap string pyval) : result (list pyval) :=
  if decide (length params < length args)%nat
  then Err (TypeError "too many positional arguments")
  else if decide (dom kwargs ⊆ list_to_set params.*1)
  then bind_params params args kwargs
  else Err (TypeError "got an unexpected keyword argument").

(** [init_knots] on dynamically typed arguments.  The guard [n_knots < 2] of
    its first statement is evaluated before any argument is used otherwise;
    Python orders an [int] against 2, and refuses to order a [Periodogram]
    or [None] against an [int].  Past the guard, [periodogram.freqs] needs a
    [Periodogram], and the fractions are read only when [n_knots > 2].
    Argument classes the annotations exclude and whose handling by numpy is
    not followed here are reported as [NotModelled]. *)
Definition init_knots_dyn (periodogram n_knots frac_uniform frac_log : pyval)
    : result (list R) :=
  match n_knots with
  | VInt n =>
      if decide (n < 2)%Z then
        Err (ValueError
               "At least two knots are required (min and max frequencies).")
      else
        match periodogram with
        | VPeriodogram p =>
            if decide (n = 2)%Z then init_knots p n 0 0
            else
              match frac_uniform, frac_log with
              | (VNone | VPeriodogram _), _ | _, (VNone | VPeriodogram _) =>
                  Err (TypeError "'<' not supported between instances")
              | VArray _, _ | _, VArray _ =>
                  Err (NotModelled "an array as a fraction")
              | (VInt _ | VFloat _), (VInt _ | VFloat _) =>
                  init_knots p n (default 0 (as_float frac_uniform))
                             (default 0 (as_float frac_log))
              end
        | v =>
            Err (AttributeError
                   ("'" +:+ py_type_name v +:+ "' object has no attribute 'freqs'"))
        end
  | VFloat _ | VArray _ => Err (NotModelled "n_knots is not an int")
  | (VNone | VPeriodogram _) as v =>
      Err (TypeError
             ("'<' not supported between instances of '" +:+ py_type_name v
                +:+ "' and 'int'"))
  end.

(** the signature [init_knots(periodogram, n_knots, frac_uniform=0.0,
    frac_log=0.8)] *)
Definition init_knots_params : list (string * option pyval) :=
  [("periodogram", None); ("n_knots", None);
   ("frac_uniform", Some (VFloat 0)); ("frac_log", Some (VFloat (8 / 10)))].

(** a call of [init_knots] with positional [args] and keywords [kwargs] *)
Definition init_knots_call (args : list pyval) (kwargs : gmap string pyval)
    : result (list R) :=
  bound ← bind_arguments init_knots_params args kwargs;
  match bound with
  | [periodogram; n_knots; frac_uniform; frac_log] =>
      init_knots_dyn periodogram n_knots frac_uniform frac_log
  | _ => Err (NotModelled "arity")
  end.

(** ** Calls in order: a log of the pipeline stages entered *)

Inductive event :=
| CallInitKnots
| CallInitBasisAndPenalty
| CallConstructor
| CallInitWeights.

Definition traced (A : Type) : Type := list event → result A * list event.

#[export] Instance traced_ret : MRet traced := λ A a tr, (Ok a, tr).
#[export] Instance traced_bind : MBind traced :=
  λ A B k m tr,
    match m tr with
    | (Ok a, tr') => k a tr'
    | (Err e, tr') => (Err e, tr')
    end.

(** entering a stage is logged, then its outcome is the stage's *)
Definition call {A} (ev : event) (r : result A) : traced A :=
  λ tr, (r, tr ++ [ev]).
(** a step of the caller itself *)
Definition step {A} (r : result A) : traced A := λ tr, (r, tr).

(** ** psplines.py: [LogPSplines.from_periodogram] *)

(** the body of [from_periodogram] once the knots are there: the basis and
    penalty are built, the model is constructed with zero weights, the
    weights are fitted and stored *)
Definition from_periodogram_after_knots `{Skfda} `{Autodiff}
    (periodogram : Periodogram.t) (knots : list R)
    (degree diffMatrixOrder : Z) (parametric_model : option (list R))
    : traced LogPSplines.t :=
  (* compute degree based on the number of knots *)
  bp ← call CallInitBasisAndPenalty
    (init_basis_and_penalty knots degree (Periodogram.n periodogram)
                            diffMatrixOrder default_epsilon);
  let '(basis, penalty_matrix) := bp in
  n_cols ← step (match shape basis !! 1%nat with
                 | Some k => Ok (Z.of_nat k)
                 | None => Err (IndexError "tuple index out of range")
                 end);
  zeros ← step (jnp_zeros n_cols);
  model ← call CallConstructor
    (LogPSplines_init degree diffMatrixOrder (Periodogram.n periodogram)
                      basis penalty_matrix knots zeros parametric_model);
  weights ← call CallInitWeights
    (init_weights (ln <$> Periodogram.power periodogram) model None
                  default_num_steps);
  mret (LogPSplines.set_weights weights model).

Definition from_periodogram `{Skfda} `{Autodiff}
    (periodogram : Periodogram.t) (n_knots degree diffMatrixOrder : Z)
    (parametric_model : option (list R)) (knot_kwargs : gmap string pyval)
    : traced LogPSplines.t :=
  knots ← call CallInitKnots
    (init_knots_call
       [VInt n_knots; VPeriodogram periodogram;
        from_option VArray VNone parametric_model]
       knot_kwargs);
  from_periodogram_after_knots periodogram knots degree diffMatrixOrder
                               parametric_model.

(** ** Objects in a store *)

Definition loc := positive.

(** [a[mask]] with a boolean mask, which must be as long as [a] *)
Definition mask_index {A} (a : list A) (mask : list bool) : result (list A) :=
  if decide (length mask = length a)
  then Ok ((zip a mask ≫= λ '(x, b), if b : bool then [x] else []))
  else Err (IndexError "boolean index did not match indexed array").

(** [Periodogram.highpass]: [self] is a reference into the store of
    [Periodogram] instances; the new instance is allocated at a fresh
    location. *)
Definition highpass (self : loc) (min_freq : R)
    (σ : gmap loc Periodogram.t) : result loc * gmap loc Periodogram.t :=
  match σ !! self with
  | None => (Err (NotModelled "dangling reference"), σ)
  | Some p =>
      let mask := (λ f, bool_decide (min_freq < f)) <$> Periodogram.freqs p in
      match mask_index (Periodogram.freqs p) mask,
            mask_index (Periodogram.power p) mask with
      | Ok fs, Ok pw =>
          let l := fresh (dom σ) in
          (Ok l, <[l := Periodogram.mk fs pw true]> σ)
      | Err e, _ | _, Err e => (Err e, σ)
      end
  end.

(** the property [LogPSplines.log_parametric_model] *)
Definition log_parametric_model (self : loc) (σ : gmap loc LogPSplines.t)
    : result (list R) * gmap loc LogPSplines.t :=
  match σ !! self with
  | None => (Err (NotModelled "dangling reference"), σ)
  | Some m =>
      match LogPSplines._log_parametric_model m with
      | Some cached => (Ok cached, σ)
      | None =>
          let pm :=
            match LogPSplines.parametric_model m with
            | None => jnp_ones (LogPSplines.n m)
            | Some pm => Ok pm
            end in
          match pm with
          | Err e => (Err e, σ)
          | Ok pm =>
              let m := LogPSplines.set_parametric_model (Some pm) m in
              let m :=
                LogPSplines.set_log_parametric_model (Some (ln <$> pm)) m in
              (Ok (ln <$> pm), <[self := m]> σ)
          end
      end
  end.

(** ** Vocabulary of the properties *)

(** a configuration the model must refuse *)
Definition invalid_configuration (degree diffMatrixOrder n_knots : Z) : Prop :=
  degree ∉ [0; 1; 2; 3; 4; 5]%Z ∨ diffMatrixOrder ∉ [0; 1; 2]%Z
  ∨ (degree < diffMatrixOrder)%Z ∨ (n_knots < degree)%Z.


Definition is_type_error {A} (r : result A) : Prop :=
  ∃ msg, r = Err (TypeError msg).

(** *** Matrices over the reals *)

#[export] Instance R_inhabited : Inhabited R := populate 0.

(** the real value of a finite entry *)
Definition real_of (v : fval) : R :=
  match v with Fin r => r | _ => 0 end.

(** entry [(i, j)] of a two-dimensional array *)
Definition entry2 (a : ndarray fval) (i j : nat) : fval :=
  match shape a with
  | [_; c] => data a !!! (i * c + j)%nat
  | _ => NaN
  end.

(** a [k] by [k] array of finite entries *)
Definition finite_square (k : nat) (a : ndarray fval) : Prop :=
  shape a = [k; k] ∧ wf_array a ∧ Forall is_finite (data a).

(** the sum of [f 0 .. f (k-1)] *)
Definition sum_n (k : nat) (f : nat → R) : R := np_sum (f <$> seq 0 k).

(** the quadratic form [x^T M x] of a [k] by [k] matrix *)
Definition quad_form (k : nat) (M : nat → nat → R) (x : nat → R) : R :=
  sum_n k (λ i, sum_n k (λ j, x i * M i j * x j)).

Definition symmetric (k : nat) (M : nat → nat → R) : Prop :=
  ∀ i j, (i < k)%nat → (j < k)%nat → M i j = M j i.

Definition pos_semidef (k : nat) (M : nat → nat → R) : Prop :=
  ∀ x, 0 <= quad_form k M x.

(** positive definite: the quadratic form is positive off the zero vector
    (for a symmetric matrix, all eigenvalues are positive) *)
Definition pos_def (k : nat) (M : nat → nat → R) : Prop :=
  ∀ x, (∃ i, (i < k)%nat ∧ x i ≠ 0) → 0 < quad_form k M x.

(** the matrix of reals an array of finite entries stands for *)
Definition matrix_of (a : ndarray fval) : nat → nat → R :=
  λ i j, real_of (entry2 a i j).

(** column [j] of the basis has a padded-knot window of zero span *)
Definition zero_span (kwb : list R) (degree : Z) (j : nat) : Prop :=
  kwb !!! (j + Z.to_nat (degree + 1))%nat = kwb !!! j.

(** *** Fixed instances of the collaborator interfaces

    They let the definitions run on concrete inputs.
    [skfda_unit_interval] is scikit-fda on the knots [0, 1]: with order 1
    the single basis function is the constant 1, with order 2 the basis
    functions are [1 - x] and [x]; the penalty is the Gram matrix of their
    derivatives of the given order over [0, 1].
    [autodiff_least_squares] takes the log-likelihood [- sum (a_i - b_i)^2]
    with the spline at the weights themselves. *)

Definition skfda_unit_interval : Skfda := {|
  bspline_basis_init := λ _ _, Ok ();
  to_grid_data_matrix := λ _ order grid,
    if decide (order = 1)%Z
    then mkArr [1%nat; length grid; 1%nat] ((λ _, Fin 1) <$> grid)
    else mkArr [2%nat; length grid; 1%nat]
               (((λ x, Fin (1 - x)) <$> grid) ++ (Fin <$> grid));
  l2_penalty_matrix := λ _ order q,
    if decide (order = 1)%Z
    then Ok (mkArr [1%nat; 1%nat]
                   [if decide (q = 0)%Z then Fin 1 else Fin 0])
    else if decide (q = 0)%Z
    then Ok (mkArr [2%nat; 2%nat]
                   [Fin (1 / 3); Fin (1 / 6); Fin (1 / 6); Fin (1 / 3)])
    else if decide (q = 1)%Z
    then Ok (mkArr [2%nat; 2%nat] [Fin 1; Fin (-1); Fin (-1); Fin 1])
    else Ok (mkArr [2%nat; 2%nat] [Fin 0; Fin 0; Fin 0; Fin 0])
|}.

Definition autodiff_least_squares : Autodiff := {|
  whittle_lnlike := λ a b, - np_sum (zip_with (λ x y, (x - y) * (x - y)) a b);
  build_spline := λ _ w, w;
  value_and_grad := λ f w, (f w, (λ x, 2 * x) <$> w)
|}.

(** ** datasets.py: the remaining methods

    The arrays of [Timeseries] and [Periodogram] hold finite reals.  Where
    the source would produce [inf] or [nan] (a division by zero, the mean
    of an empty array), or where numpy and JAX arrays behave differently,
    the model stops with [NotModelled]. *)

(** [jnp.mean] and [jnp.std], the population standard deviation *)
Definition jnp_mean (a : list R) : R := np_sum a / INR (length a).
Definition jnp_std (a : list R) : R :=
  sqrt (jnp_mean ((λ x, (x - jnp_mean a) ^ 2) <$> a)).

Module Timeseries.
Record obj := mk {
  t : list R;
  y : list R;
  std : R
}.

(** the property [n] *)
Definition n (self : obj) : Z := Z.of_nat (length (t self)).

(** the property [fs]: [1 / (t[1] - t[0])] *)
Definition fs (self : obj) : result R :=
  match t self with
  | [] => Err (IndexError "index 1 is out of bounds")
  | [_] => Err (NotModelled "index 1 of an array of one element")
  | t0 :: t1 :: _ =>
      if decide (t1 - t0 = 0) then Err (NotModelled "division by zero")
      else Ok (1 / (t1 - t0))
  end.
End Timeseries.

(** [Timeseries.standardise]: [self] is a reference into the store of
    [Timeseries] instances.  The method stores the standard deviation in
    [self.std] and returns a new instance. *)
Definition standardise (self : loc) (σ : gmap loc Timeseries.obj)
    : result loc * gmap loc Timeseries.obj :=
  match σ !! self with
  | None => (Err (NotModelled "dangling reference"), σ)
  | Some ts =>
      if decide (Timeseries.y ts = [])
      then (Err (NotModelled "mean of an empty array"), σ)
      else
        let s := jnp_std (Timeseries.y ts) in
        let ts' := Timeseries.mk (Timeseries.t ts) (Timeseries.y ts) s in
        let σ := <[self := ts']> σ in
        if decide (s = 0) then (Err (NotModelled "division by zero"), σ)
        else
          let y := (λ v, (v - jnp_mean (Timeseries.y ts)) / s)
                     <$> Timeseries.y ts in
          let l := fresh (dom σ) in
          (Ok l, <[l := Timeseries.mk (Timeseries.t ts) y s]> σ)
  end.

(** [jnp.fft.rfftfreq(n, d)]: the frequencies [k / (d n)] for
    [k = 0 .. n // 2] *)
Definition rfftfreq (n : nat) (d : R) : list R :=
  (λ k, INR k / (d * INR n)) <$> seq 0 (n / 2 + 1).

(** [jnp.fft.rfft(y)]: the bins [k = 0 .. n // 2] of the discrete Fourier
    transform, [sum_j y[j] exp(-2 pi i j k / n)], each as its real and its
    imaginary part *)
Definition dft_bin (y : list R) (k : nat) : R * R :=
  let angle := λ j : nat, 2 * PI * INR j * INR k / INR (length y) in
  (np_sum (imap (λ j v, v * cos (angle j)) y),
   - np_sum (imap (λ j v, v * sin (angle j)) y)).
Definition rfft (y : list R) : list (R * R) :=
  dft_bin y <$> seq 0 (length y / 2 + 1).
(** [jnp.abs] of a complex number *)
Definition complex_abs (z : R * R) : R := sqrt (z.1 ^ 2 + z.2 ^ 2).

(** [Timeseries.to_periodogram] *)
Definition to_periodogram (self : Timeseries.obj) : result Periodogram.t :=
  fs ← Timeseries.fs self;
  let y := Timeseries.y self in
  if decide (y = []) then Err (NotModelled "transform of an empty array")
  else
    let freq := rfftfreq (length y) (1 / fs) in
    let power := (λ z, complex_abs z ^ 2 / INR (length y)) <$> rfft y in
    Ok (Periodogram.mk (drop 1 freq) (drop 1 power) false).

(** the property [Periodogram.fs]: [2 * freqs[-1]] *)
Definition Periodogram_fs (self : Periodogram.t) : result R :=
  match last (Periodogram.freqs self) with
  | Some f => Ok (2 * f)
  | None => Err (IndexError "index -1 is out of bounds")
  end.

(** [jnp.fft.irfft(X, n=m)] of a real array [X] for an even [m]: the input
    is cut or padded with zeros to [m // 2 + 1] bins and taken as the
    non-negative half of a Hermitian spectrum *)
Definition irfft (X : list R) (m : nat) : list R :=
  (λ j : nat,
     (X !!! 0%nat
      + np_sum ((λ k : nat, 2 * X !!! k * cos (2 * PI * INR j * INR k / INR m))
                  <$> seq 1 (m / 2 - 1))
      + X !!! (m / 2)%nat * cos (PI * INR j)) / INR m)
    <$> seq 0 m.

(** [Periodogram.to_timeseries] *)
Definition to_timeseries (self : Periodogram.t) : result Timeseries.obj :=
  let m := (2 * (Periodogram.n self - 1))%Z in
  if decide (m ≤ 0)%Z
  then Err (NotModelled "transform to no data points")
  else
    let y := irfft (Periodogram.power self) (Z.to_nat m) in
    fs ← Periodogram_fs self;
    if decide (fs = 0) then Err (NotModelled "division by zero")
    else
      let t := linspace 0 (1 / fs) (Z.of_nat (length y)) in
      Ok (Timeseries.mk t y 1).

(** the right operand of [*] and [/]: a number or an array *)
Inductive operand :=
| Scalar (c : R)
| Vector (v : list R).

(** an arithmetic operation of a one-dimensional array with an operand,
    with the broadcasting of numpy and JAX *)
Definition array_op (f : R → R → R) (a : list R) (other : operand)
    : result (list R) :=
  match other with
  | Scalar c => Ok ((λ x, f x c) <$> a)
  | Vector v =>
      if decide (length v = length a) then Ok (zip_with f a v)
      else if decide (length v = 1%nat)
      then Ok ((λ x, f x (v !!! 0%nat)) <$> a)
      else if decide (length a = 1%nat)
      then Ok ((λ x, f (a !!! 0%nat) x) <$> v)
      else Err (ValueError "operands could not be broadcast together")
  end.

(** a divisor with a zero in it *)
Definition has_zero (other : operand) : Prop :=
  match other with
  | Scalar c => c = 0
  | Vector v => 0 ∈ v
  end.

#[export] Instance has_zero_dec (other : operand) : Decision (has_zero other).
Proof. destruct other; apply _. Defined.

(** [Periodogram.__mul__] and [Periodogram.__truediv__]: the new instance
    gets the default [filtered=False] *)
Definition __mul__ (self : Periodogram.t) (other : operand)
    : result Periodogram.t :=
  power ← array_op Rmult (Periodogram.power self) other;
  Ok (Periodogram.mk (Periodogram.freqs self) power false).

Definition __truediv__ (self : Periodogram.t) (other : operand)
    : result Periodogram.t :=
  if decide (has_zero other) then Err (NotModelled "division by zero")
  else
    power ← array_op Rdiv (Periodogram.power self) other;
    Ok (Periodogram.mk (Periodogram.freqs self) power false).

(** [compute_welsch_psd(freqs, power, alpha)]:
    [power / (1 + (freqs / alpha) ** 2)] *)
Definition compute_welsch_psd (freqs power : list R) (alpha : R)
    : result (list R) :=
  if decide (alpha = 0) then Err (NotModelled "division by zero")
  else
    quot ← array_op Rdiv freqs (Scalar alpha);
    let denom := (λ x, 1 + x ^ 2) <$> quot in
    array_op Rdiv power (Vector denom).

(** ** mcmc.py: [run_mcmc] *)

(** the sampler is numpyro's *)
Class Numpyro := {
  mcmc_state : Type;
  (** [MCMC(NUTS(bayesian_model, init_strategy), ...).run(rng_key, ...)]
      on the log-periodogram, the basis, the penalty, the log parametric
      model and the initial weights *)
  mcmc_run : Z → list R → ndarray fval → ndarray fval → list R → list R
             → mcmc_state
}.

(** [run_mcmc(pdgrm, parametric_model, ..., rng_key, **spline_kwgs)]: the
    spline keywords are read with their defaults 10, 3 and 2; the model is
    built by [from_periodogram]; the sampler runs from the model's weights.
    The model lives in the store, where [log_parametric_model] updates
    it. *)
Definition run_mcmc `{Skfda} `{Autodiff} `{Numpyro}
    (pdgrm : Periodogram.t) (parametric_model : option (list R))
    (rng_key : Z) (spline_kwgs : gmap string Z)
    : traced (mcmc_state * LogPSplines.t) :=
  λ tr,
  let log_pdgrm := ln <$> Periodogram.power pdgrm in
  match from_periodogram pdgrm
          (default 10%Z (spline_kwgs !! "n_knots"))
          (default 3%Z (spline_kwgs !! "degree"))
          (default 2%Z (spline_kwgs !! "diffMatrixOrder"))
          parametric_model ∅ tr with
  | (Err e, tr) => (Err e, tr)
  | (Ok spline_model, tr) =>
      let self : loc := 1%positive in
      match log_parametric_model self {[ self := spline_model ]} with
      | (Err e, _) => (Err e, tr)
      | (Ok lpm, σ) =>
          let spline_model := default spline_model (σ !! self) in
          (Ok (mcmc_run rng_key log_pdgrm
                        (LogPSplines.basis spline_model)
                        (LogPSplines.penalty_matrix spline_model)
                        lpm (LogPSplines.weights spline_model),
               spline_model),
           tr)
      end
  end.

(** the zero-span test is decidable *)
#[export] Instance zero_span_dec (kwb : list R) (degree : Z) (j : nat)
  : Decision (zero_span kwb degree j).
Proof. unfold zero_span. apply _. Defined.

(** * Properties *)

(** ** [init_knots]: the guard and the two-knot return *)

(** C5. For every periodogram and every [n_knots < 2], [init_knots] raises
    [ValueError] (the invalid-configuration error) and returns no knots. *)
Theorem init_knots_too_few_knots (p : Periodogram.t) (n_knots : Z)
    (frac_uniform frac_log : R) :
  (n_knots < 2)%Z →
  init_knots p n_knots frac_uniform frac_log =
    Err (ValueError
           "At least two knots are required (min and max frequencies).")
  ∧ ∀ knots, init_knots p n_knots frac_uniform frac_log ≠ Ok knots.
Proof.
  intros Hn. unfold init_knots.
  destruct (decide (n_knots < 2)%Z) as [_|Hge]; [|lia].
  split; [reflexivity|]. intros knots; discriminate.
Qed.

Lemma init_knots_too_few_knots_witness :
  (1 < 2)%Z ∧
  init_knots (Periodogram.mk [1; 2; 3] [1; 1; 1] false) 1 0 (8 / 10) =
    Err (ValueError
           "At least two knots are required (min and max frequencies).").
Proof.
  split; [lia|].
  apply (init_knots_too_few_knots
           (Periodogram.mk [1; 2; 3] [1; 1; 1] false) 1 0 (8 / 10)).
  lia.
Defined.

(** With exactly two knots the function returns the first and the last
    frequency as they are: the return precedes the normalisation. *)
Lemma init_knots_two_knots (p : Periodogram.t) (fu fl min_freq max_freq : R) :
  head (Periodogram.freqs p) = Some min_freq →
  last (Periodogram.freqs p) = Some max_freq →
  init_knots p 2 fu fl = Ok [min_freq; max_freq].
Proof.
  intros Hh Hl. unfold init_knots. rewrite Hh, Hl.
  destruct (decide (2 < 2)%Z); [lia|].
  destruct (decide (2 = 2)%Z); [reflexivity|lia].
Qed.

(** C3 (at the failing input). On the frequencies [1, 2, 3] and
    [n_knots = 2], [init_knots] returns [[1, 3]], the raw end frequencies,
    which is not the array [[0, 1]]. *)
Theorem init_knots_two_knots_not_normalised :
  init_knots (Periodogram.mk [1; 2; 3] [1; 1; 1] false) 2 0 (8 / 10)
    = Ok [1; 3]
  ∧ [1; 3] ≠ [0; 1].
Proof.
  split.
  - apply init_knots_two_knots; reflexivity.
  - intros Heq. injection Heq as H1 _. lra.
Qed.

(** ** [from_periodogram]: the call of [init_knots] *)

(** The call passes [(n_knots, periodogram, parametric_model)] by position
    to the parameters [(periodogram, n_knots, frac_uniform)]: whatever the
    keywords, the guard [n_knots < 2] then compares a [Periodogram] with an
    [int], or the binding itself fails. *)
Lemma init_knots_call_swapped (n : Z) (p : Periodogram.t) (third : pyval)
    (kwargs : gmap string pyval) :
  is_type_error (init_knots_call [VInt n; VPeriodogram p; third] kwargs).
Proof.
  unfold is_type_error, init_knots_call, bind_arguments, init_knots_params.
  cbn [length fmap list_fmap fst].
  destruct (decide (4 < 3)%nat) as [?|_]; [lia|].
  case_decide; [|eexists; reflexivity].
  cbn [bind_params tail].
  repeat case_decide; cbv [mbind result_bind]; try (eexists; reflexivity).
  destruct (kwargs !! "frac_log"); cbv [init_knots_dyn];
    eexists; reflexivity.
Qed.

(** Every run of [from_periodogram] ends inside its first stage. *)
Lemma from_periodogram_stops_in_init_knots `{Skfda} `{Autodiff}
    (periodogram : Periodogram.t) (n_knots degree diffMatrixOrder : Z)
    (parametric_model : option (list R)) (knot_kwargs : gmap string pyval) :
  ∃ msg,
    from_periodogram periodogram n_knots degree diffMatrixOrder
                     parametric_model knot_kwargs []
    = (Err (TypeError msg), [CallInitKnots]).
Proof.
  destruct (init_knots_call_swapped n_knots periodogram
              (from_option VArray VNone parametric_model) knot_kwargs)
    as [msg Hmsg].
  exists msg. unfold from_periodogram, call.
  cbn [mbind traced_bind]. rewrite Hmsg. reflexivity.
Qed.

(** C1 (the code's behaviour on every input). [from_periodogram] raises
    [TypeError] inside its first stage, the call of [init_knots], for every
    periodogram, configuration, parametric model and keyword dictionary: no
    basis is built, no weights are fitted and no model is returned. *)
Theorem from_periodogram_raises_type_error `{Skfda} `{Autodiff}
    (periodogram : Periodogram.t) (n_knots degree diffMatrixOrder : Z)
    (parametric_model : option (list R)) (knot_kwargs : gmap string pyval) :
  is_type_error
    (from_periodogram periodogram n_knots degree diffMatrixOrder
                      parametric_model knot_kwargs []).1
  ∧ (from_periodogram periodogram n_knots degree diffMatrixOrder
                      parametric_model knot_kwargs []).2 = [CallInitKnots]
  ∧ ∀ model,
      (from_periodogram periodogram n_knots degree diffMatrixOrder
                        parametric_model knot_kwargs []).1 ≠ Ok model.
Proof.
  destruct (from_periodogram_stops_in_init_knots periodogram n_knots degree
              diffMatrixOrder parametric_model knot_kwargs) as [msg ->].
  split; [exists msg; reflexivity|]. split; [reflexivity|].
  intros model; discriminate.
Qed.

(** ** Construction and validation *)

(** [__post_init__] accepts exactly the configurations that are not
    invalid, and raises [ValueError] on the others. *)
Lemma post_init_spec (self : LogPSplines.t) :
  (invalid_configuration (LogPSplines.degree self)
                         (LogPSplines.diffMatrixOrder self)
                         (LogPSplines.n_knots self)
   ∧ is_value_error (__post_init__ self))
  ∨ (¬ invalid_configuration (LogPSplines.degree self)
                             (LogPSplines.diffMatrixOrder self)
                             (LogPSplines.n_knots self)
     ∧ __post_init__ self = Ok ()).
Proof.
  unfold __post_init__, invalid_configuration, is_value_error.
  repeat case_decide; try (left; split; [tauto|eauto]).
  right. split; [tauto|reflexivity].
Qed.



(** The statements of [from_periodogram] that follow the call of
    [init_knots], taken on their own with knots given: an invalid
    configuration ends in an error there, after the stage that builds the
    basis and the penalty has been entered. *)
Lemma constructor_check_follows_basis_and_penalty `{Skfda} `{Autodiff}
    (periodogram : Periodogram.t) (knots : list R)
    (degree diffMatrixOrder : Z) (parametric_model : option (list R))
    (tr : list event) :
  invalid_configuration degree diffMatrixOrder (Z.of_nat (length knots)) →
  ∃ e rest,
    from_periodogram_after_knots periodogram knots degree diffMatrixOrder
                                 parametric_model tr
    = (Err e, tr ++ CallInitBasisAndPenalty :: rest).
Proof.
  intros Hinv. unfold from_periodogram_after_knots.
  cbv beta iota delta [mbind traced_bind call step].
  destruct (init_basis_and_penalty _ _ _ _ _) as [[basis pen]|e];
    [|by exists e, []].
  destruct (shape basis !! 1%nat) as [k|]; [|by eexists _, []].
  destruct (jnp_zeros (Z.of_nat k)) as [zeros|e]; [|by exists e, []].
  unfold LogPSplines_init.
  destruct (post_init_spec
              (LogPSplines.mk degree diffMatrixOrder
                 (Periodogram.n periodogram) basis pen knots zeros
                 parametric_model None))
    as [[_ [msg Hmsg]]|[Hok _]]; [|exfalso; apply Hok; exact Hinv].
  rewrite Hmsg. exists (ValueError msg), [CallConstructor].
  cbv beta iota delta [mbind result_bind]. by rewrite <- app_assoc.
Qed.


(** ** [Periodogram.highpass] *)

(** Selecting two arrays of one length by the same mask selects the pairs. *)
Lemma mask_index_pairs (keep : R → bool) (fs pw : list R) :
  length pw = length fs →
  ∃ fs' pw',
    mask_index fs (keep <$> fs) = Ok fs'
    ∧ mask_index pw (keep <$> fs) = Ok pw'
    ∧ length fs' = length pw'
    ∧ zip fs' pw' = filter (λ fp, keep fp.1 = true) (zip fs pw).
Proof.
  intros Hlen. unfold mask_index. rewrite !length_fmap.
  destruct (decide (length fs = length fs)) as [_|]; [|done].
  destruct (decide (length fs = length pw)) as [_|]; [|done].
  eexists _, _. split; [reflexivity|]. split; [reflexivity|].
  revert pw Hlen. induction fs as [|f fs IH]; intros [|q pw] Hlen;
    simplify_eq/=; [done|].
  destruct (IH pw ltac:(done)) as [IHlen IHzip].
  rewrite filter_cons. cbn [fst].
  destruct (keep f) eqn:Hk; cbn.
  - rewrite decide_True by done. cbn. split; [by f_equal|by f_equal].
  - rewrite decide_False by done. done.
Qed.

(** C9. [highpass] allocates a new [Periodogram] holding the
    frequency/power pairs whose frequency is above the threshold, marked as
    filtered, and leaves the instance it was called on, and every other
    instance of the store, as it was. *)
Theorem highpass_new_instance_self_unchanged (σ : gmap loc Periodogram.t)
    (self : loc) (p : Periodogram.t) (min_freq : R) :
  σ !! self = Some p →
  length (Periodogram.power p) = length (Periodogram.freqs p) →
  ∃ l q σ',
    highpass self min_freq σ = (Ok l, σ')
    ∧ σ !! l = None
    ∧ σ' !! l = Some q
    ∧ Periodogram.filtered q = true
    ∧ length (Periodogram.freqs q) = length (Periodogram.power q)
    ∧ zip (Periodogram.freqs q) (Periodogram.power q)
      = filter (λ fp, bool_decide (min_freq < fp.1) = true)
               (zip (Periodogram.freqs p) (Periodogram.power p))
    ∧ σ' !! self = Some p
    ∧ ∀ l', l' ≠ l → σ' !! l' = σ !! l'.
Proof.
  intros Hself Hlen. unfold highpass. rewrite Hself.
  destruct (mask_index_pairs (λ f, bool_decide (min_freq < f))
              (Periodogram.freqs p) (Periodogram.power p) Hlen)
    as (fs & pw & -> & -> & Hl & Hz).
  set (l := fresh (dom σ)).
  assert (Hfresh : σ !! l = None).
  { apply not_elem_of_dom. apply is_fresh. }
  exists l, (Periodogram.mk fs pw true), (<[l := Periodogram.mk fs pw true]> σ).
  split; [reflexivity|]. split; [exact Hfresh|].
  split; [by rewrite lookup_insert_eq|].
  split; [reflexivity|]. split; [exact Hl|]. split; [exact Hz|].
  split.
  - rewrite lookup_insert_ne; [exact Hself|]. intros ->. congruence.
  - intros l' Hne. by rewrite lookup_insert_ne.
Qed.

(** Whatever the outcome, the receiver is not modified. *)
Lemma highpass_frame (σ : gmap loc Periodogram.t) (self : loc) (min_freq : R) :
  (highpass self min_freq σ).2 !! self = σ !! self.
Proof.
  unfold highpass. destruct (σ !! self) as [p|] eqn:Hself; [|done].
  destruct (mask_index _ _) as [fs|e]; [|done].
  destruct (mask_index _ _) as [pw|e]; [|done].
  cbn. rewrite lookup_insert_ne; [done|].
  intros Heq. pose proof (is_fresh (dom σ)) as Hf.
  rewrite Heq in Hf. apply Hf. by apply elem_of_dom.
Qed.

Lemma highpass_new_instance_self_unchanged_witness :
  ∃ l q σ',
    highpass 1%positive 1
      {[ 1%positive := Periodogram.mk [1; 2; 3] [5; 6; 7] false ]}
    = (Ok l, σ')
    ∧ σ' !! l = Some q
    ∧ σ' !! 1%positive = Some (Periodogram.mk [1; 2; 3] [5; 6; 7] false).
Proof.
  destruct (highpass_new_instance_self_unchanged
              {[ 1%positive := Periodogram.mk [1; 2; 3] [5; 6; 7] false ]}
              1%positive (Periodogram.mk [1; 2; 3] [5; 6; 7] false) 1
              (lookup_singleton_eq _ _) eq_refl)
    as (l & q & σ' & Hrun & _ & Hl & _ & _ & _ & Hself & _).
  exists l, q, σ'. split; [exact Hrun|]. split; [exact Hl|exact Hself].
Defined.

(** ** The property [log_parametric_model] *)

Lemma ln_replicate_1 (k : nat) : ln <$> replicate k 1 = replicate k 0.
Proof. rewrite fmap_replicate. by rewrite ln_1. Qed.

(** C10. On a model constructed with [parametric_model = None], the first
    access to [log_parametric_model] returns the zero vector of length [n]
    and mutates the model: [parametric_model] becomes the all-ones vector of
    length [n] and the zero vector is cached.  Every later access returns
    the cached vector and changes nothing; the cache is returned as it is
    even when [parametric_model] has been reassigned in between. *)
Theorem log_parametric_model_first_access_mutates
    (σ : gmap loc LogPSplines.t) (self : loc) (m : LogPSplines.t)
    (degree diffMatrixOrder n : Z) (basis penalty_matrix : ndarray fval)
    (knots weights : list R) :
  LogPSplines_init degree diffMatrixOrder n basis penalty_matrix knots
                   weights None = Ok m →
  σ !! self = Some m →
  (0 ≤ n)%Z →
  let ones := replicate (Z.to_nat n) 1 in
  let zeros := replicate (Z.to_nat n) 0 in
  let m' :=
    LogPSplines.mk degree diffMatrixOrder n basis penalty_matrix knots
                   weights (Some ones) (Some zeros) in
  let σ' := <[self := m']> σ in
  log_parametric_model self σ = (Ok zeros, σ')
  ∧ σ' ≠ σ
  ∧ LogPSplines.parametric_model m = None
  ∧ log_parametric_model self σ' = (Ok zeros, σ')
  ∧ ∀ pm,
      let σ'' := <[self := LogPSplines.set_parametric_model pm m']> σ' in
      log_parametric_model self σ'' = (Ok zeros, σ'').
Proof.
  intros Hinit Hself Hn ones zeros m' σ'.
  unfold LogPSplines_init in Hinit.
  destruct (__post_init__ _); simplify_eq/=.
  split; [|split; [|split; [reflexivity|split]]].
  - unfold log_parametric_model. rewrite Hself. cbn.
    unfold jnp_ones, jnp_full. rewrite decide_False by lia.
    cbn. by rewrite ln_replicate_1.
  - intros Heq. assert (Hl : σ' !! self = σ !! self) by by rewrite Heq.
    unfold σ' in Hl. rewrite lookup_insert_eq, Hself in Hl. discriminate.
  - unfold log_parametric_model, σ'. by rewrite lookup_insert_eq.
  - intros pm. unfold log_parametric_model.
    by rewrite lookup_insert_eq.
Qed.

Lemma log_parametric_model_first_access_mutates_witness :
  log_parametric_model 1%positive
    {[ 1%positive :=
         LogPSplines.mk 1 1 2 (mkArr [] []) (mkArr [] []) [0; 1] [0; 0]
                        None None ]}
  = (Ok [0; 0],
     <[ 1%positive :=
          LogPSplines.mk 1 1 2 (mkArr [] []) (mkArr [] []) [0; 1] [0; 0]
                         (Some [1; 1]) (Some [0; 0]) ]>
       {[ 1%positive :=
            LogPSplines.mk 1 1 2 (mkArr [] []) (mkArr [] []) [0; 1] [0; 0]
                           None None ]}).
Proof.
  refine (proj1 (log_parametric_model_first_access_mutates
                   {[ 1%positive :=
                        LogPSplines.mk 1 1 2 (mkArr [] []) (mkArr [] [])
                                       [0; 1] [0; 0] None None ]}
                   1%positive _ 1 1 2 (mkArr [] []) (mkArr [] []) [0; 1]
                   [0; 0] _ (lookup_singleton_eq _ _) _)).
  - reflexivity.
  - lia.
Defined.

(** ** [init_weights] *)

(** The body of [init_weights] reads the model only through its basis and
    its number of basis functions. *)
Lemma init_weights_reads_basis_only `{Autodiff} (log_pdgrm : list R)
    (m1 m2 : LogPSplines.t) (w0 : option (list R)) (num_steps : Z) :
  LogPSplines.basis m1 = LogPSplines.basis m2 →
  LogPSplines.n_basis m1 = LogPSplines.n_basis m2 →
  init_weights log_pdgrm m1 w0 num_steps
  = init_weights log_pdgrm m2 w0 num_steps.
Proof.
  intros Hb Hn. unfold init_weights, LogPSplines_call. cbn [default].
  rewrite Hb, Hn. reflexivity.
Qed.

(** *** The optimisation loop keeps the length of the weight vector *)

Lemma fori_loop_invariant {S} (P : S → Prop) (lower upper : Z)
    (body : Z → S → S) (init : S) :
  P init → (∀ i s, P s → P (body i s)) → P (fori_loop lower upper body init).
Proof.
  intros H0 Hstep. unfold fori_loop.
  generalize (seqZ lower (upper - lower)). intros l. revert init H0.
  induction l as [|i l IH]; intros init H0; [exact H0|].
  cbn. apply IH. by apply Hstep.
Qed.

(** When the derivative has as many entries as the weights, as a gradient
    has, the fitted weights have the length of the initial vector:
    [n_knots + degree - 1] entries when the run starts from zeros. *)
Lemma init_weights_length `{Autodiff} (log_pdgrm : list R)
    (m : LogPSplines.t) (num_steps : Z) :
  (∀ f w, length (value_and_grad f w).2 = length w) →
  (0 ≤ LogPSplines.n_basis m)%Z →
  ∃ w, init_weights log_pdgrm m None num_steps = Ok w
       ∧ Z.of_nat (length w) = LogPSplines.n_basis m.
Proof.
  intros Hgrad Hn. unfold init_weights, jnp_zeros, jnp_full.
  rewrite decide_False by lia. cbn [mbind result_bind].
  set (w0 := replicate (Z.to_nat (LogPSplines.n_basis m)) 0).
  set (L := Z.to_nat (LogPSplines.n_basis m)).
  set (loss := λ weights : list R,
         - whittle_lnlike log_pdgrm (LogPSplines_call m (Some weights))).
  set (P := λ st : list R * opt_state (adam (1 / 100)),
         length st.1 = L ∧ length (mu st.2) = L ∧ length (nu st.2) = L).
  assert (HP : P (fori_loop 0 num_steps
                    (init_weights_step (adam (1 / 100)) loss)
                    (w0, opt_init (adam (1 / 100)) w0))).
  { apply fori_loop_invariant.
    - unfold P, w0, L. cbn. by rewrite !length_fmap, length_replicate.
    - intros i [w st] (Hw & Hmu & Hnu). unfold P, init_weights_step.
      cbn [fst snd] in *.
      pose proof (Hgrad loss w) as Hg.
      destruct (value_and_grad loss w) as [v g]. cbn [snd] in Hg.
      cbn. unfold apply_updates.
      rewrite !length_zip_with, !length_fmap, !length_zip_with,
        !length_fmap, !length_zip_with. lia. }
  destruct (fori_loop 0 num_steps _ _) as [w st].
  destruct HP as (Hw & _). cbn [fst] in Hw.
  exists w. split; [reflexivity|]. rewrite Hw. unfold L. lia.
Qed.

(** ** [init_knots]: the general path *)

Lemma py_int_bounds (x : R) :
  0 <= x → (0 ≤ py_int x)%Z ∧ IZR (py_int x) <= x.
Proof.
  intros Hx. unfold py_int. destruct (decide (0 <= x)) as [_|]; [|lra].
  destruct (base_Int_part x) as [Hle Hgt]. split; [|exact Hle].
  apply Z.lt_succ_r, lt_IZR. rewrite succ_IZR. lra.
Qed.

(** The per-group counts never overshoot when the clamped fractions sum to
    at most one. *)
Lemma knot_counts_fit (fu fl : R) (m : Z) :
  0 <= fu → 0 <= fl → fu + fl <= 1 → (0 ≤ m)%Z →
  let nu := if decide (0 < fu) then py_int (fu * IZR m) else 0%Z in
  let nl := if decide (0 < fl) then py_int (fl * IZR m) else 0%Z in
  (0 ≤ nu)%Z ∧ (0 ≤ nl)%Z ∧ (nu + nl ≤ m)%Z.
Proof.
  intros Hu Hl Hsum Hm nu nl.
  assert (HmR : 0 <= IZR m) by (apply IZR_le in Hm; exact Hm).
  assert (Hnu : (0 ≤ nu)%Z ∧ IZR nu <= fu * IZR m).
  { unfold nu. destruct (decide (0 < fu)).
    - apply py_int_bounds. nra.
    - split; [lia|]. nra. }
  assert (Hnl : (0 ≤ nl)%Z ∧ IZR nl <= fl * IZR m).
  { unfold nl. destruct (decide (0 < fl)).
    - apply py_int_bounds. nra.
    - split; [lia|]. nra. }
  destruct Hnu as [Hnu0 Hnu], Hnl as [Hnl0 Hnl].
  split; [exact Hnu0|]. split; [exact Hnl0|].
  apply le_IZR. rewrite plus_IZR. nra.
Qed.

Lemma length_slice_1_m1 {A} (a : list A) :
  length (slice_1_m1 a) = (length a - 2)%nat.
Proof. unfold slice_1_m1. rewrite length_take, length_drop. lia. Qed.

Lemma Forall_slice_1_m1 {A} (P : A → Prop) (a : list A) :
  Forall P a → Forall P (slice_1_m1 a).
Proof. intros Ha. unfold slice_1_m1. by apply Forall_take, Forall_drop. Qed.

Lemma length_linspace (a b : R) (num : Z) :
  length (linspace a b num) = Z.to_nat num.
Proof.
  unfold linspace. destruct (Z.to_nat num) as [|[|div]]; [done..|].
  rewrite length_app, length_fmap, length_seq. cbn. lia.
Qed.

(** The samples of [linspace] lie between its end points. *)
Lemma linspace_bounds (a b : R) (num : Z) :
  a <= b → Forall (λ x, a <= x <= b) (linspace a b num).
Proof.
  intros Hab. unfold linspace.
  destruct (Z.to_nat num) as [|[|div]].
  - constructor.
  - constructor; [lra|constructor].
  - apply Forall_app. split; [|constructor; [lra|constructor]].
    apply Forall_fmap, Forall_forall. intros i Hi.
    apply elem_of_seq in Hi as [_ Hi]. cbn [plus] in Hi.
    assert (Hd : 0 < INR (S div)) by (apply lt_0_INR; lia).
    assert (Hi0 : 0 <= INR i) by apply pos_INR.
    assert (Hi1 : INR i <= INR (S div)) by (apply le_INR; lia).
    unfold compose. set (d := INR (S div)) in *.
    replace (INR i * ((b - a) / d) + a) with (a + (INR i / d) * (b - a))
      by (field; lra).
    assert (Hinv : 0 < / d) by (by apply Rinv_0_lt_compat).
    assert (Ht0 : 0 <= INR i / d) by (unfold Rdiv; nra).
    assert (Ht1 : INR i / d <= 1).
    { apply (Rmult_le_reg_r d); [lra|]. unfold Rdiv.
      rewrite Rmult_assoc, Rinv_l by lra. lra. }
    assert (Hp0 : 0 <= INR i / d * (b - a)) by (apply Rmult_le_pos; lra).
    assert (Hp1 : INR i / d * (b - a) <= 1 * (b - a))
      by (apply Rmult_le_compat_r; lra).
    lra.
Qed.

Lemma Rpower_10_log10 (x : R) : 0 < x → Rpower 10 (log10 x) = x.
Proof.
  intros Hx. unfold Rpower, log10.
  assert (Hln10 : 0 < ln 10).
  { rewrite <- ln_1. apply ln_increasing; lra. }
  replace (ln x / ln 10 * ln 10) with (ln x) by (field; lra).
  by apply exp_ln.
Qed.

Lemma log10_le (x y : R) : 0 < x → x <= y → log10 x <= log10 y.
Proof.
  intros Hx Hxy. unfold log10.
  assert (Hln10 : 0 < ln 10).
  { rewrite <- ln_1. apply ln_increasing; lra. }
  assert (Hln : ln x <= ln y).
  { destruct Hxy as [Hlt| ->]; [left; by apply ln_increasing|lra]. }
  apply Rmult_le_compat_r; [|exact Hln].
  left. by apply Rinv_0_lt_compat.
Qed.

(** Between positive end points the samples of [logspace] lie between
    them. *)
Lemma logspace_bounds (a b : R) (num : Z) :
  0 < a → a <= b →
  Forall (λ x, a <= x <= b) (logspace (log10 a) (log10 b) num).
Proof.
  intros Ha Hab. unfold logspace. apply Forall_fmap.
  pose proof (linspace_bounds (log10 a) (log10 b) num (log10_le a b Ha Hab))
    as Hlin.
  eapply Forall_impl; [exact Hlin|]. intros y [Hy1 Hy2]. unfold compose.
  pose proof (Rle_Rpower 10 (log10 a) y ltac:(lra) Hy1) as Hlo.
  pose proof (Rle_Rpower 10 y (log10 b) ltac:(lra) Hy2) as Hhi.
  rewrite Rpower_10_log10 in Hlo, Hhi by lra. lra.
Qed.

Lemma interp_scan_segment (x x0 x1 f0 f1 : R) (xp fp : list R) :
  interp_scan x (x0 :: x1 :: xp) (f0 :: f1 :: fp)
  = if decide (x < x1)
    then (f1 - f0) / (x1 - x0) * (x - x0) + f0
    else interp_scan x (x1 :: xp) (f1 :: fp).
Proof. reflexivity. Qed.

(** A value interpolated by [np.interp] lies in any interval that holds all
    the ordinates. *)
Lemma interp_scan_bounds (lo hi x : R) (xp fp : list R) :
  Forall (λ f, lo <= f <= hi) fp → fp ≠ [] →
  (∀ x0, head xp = Some x0 → x0 <= x) →
  lo <= interp_scan x xp fp <= hi.
Proof.
  revert fp. induction xp as [|x0 xp IH]; intros fp Hfp Hne Hinv.
  - destruct fp as [|f0 fp]; [done|]. cbn. by inversion Hfp.
  - destruct fp as [|f0 fp]; [done|]. inversion Hfp as [|? ? Hf0 Hfp']; subst.
    destruct xp as [|x1 xp]; [exact Hf0|].
    destruct fp as [|f1 fp]; [exact Hf0|].
    rewrite interp_scan_segment. destruct (decide (x < x1)) as [Hlt|Hge].
    + inversion Hfp' as [|? ? Hf1 _]; subst.
      assert (Hx0 : x0 <= x) by (by apply Hinv).
      assert (Hd : 0 < x1 - x0) by lra.
      set (t := (x - x0) / (x1 - x0)).
      assert (Ht0 : 0 <= t).
      { unfold t, Rdiv. apply Rmult_le_pos; [lra|].
        left. by apply Rinv_0_lt_compat. }
      assert (Ht1 : t <= 1).
      { unfold t. apply (Rmult_le_reg_r (x1 - x0)); [lra|]. unfold Rdiv.
        rewrite Rmult_assoc, Rinv_l by lra. lra. }
      replace ((f1 - f0) / (x1 - x0) * (x - x0) + f0)
        with ((1 - t) * f0 + t * f1) by (unfold t; field; lra).
      assert (0 <= (1 - t) * (f0 - lo)) by (apply Rmult_le_pos; lra).
      assert (0 <= t * (f1 - lo)) by (apply Rmult_le_pos; lra).
      assert (0 <= (1 - t) * (hi - f0)) by (apply Rmult_le_pos; lra).
      assert (0 <= t * (hi - f1)) by (apply Rmult_le_pos; lra).
      lra.
    + apply IH; [exact Hfp'|done|].
      intros ? [= <-]. lra.
Qed.

Lemma interp1_bounds (lo hi x : R) (xp fp : list R) :
  Forall (λ f, lo <= f <= hi) fp → fp ≠ [] → xp ≠ [] →
  lo <= interp1 x xp fp <= hi.
Proof.
  intros Hfp Hne Hxne. unfold interp1.
  destruct xp as [|x0 xp]; [done|]. destruct fp as [|f0 fp]; [done|].
  destruct (last (x0 :: xp)) as [xl|] eqn:Hxl;
    [|by apply last_None in Hxl].
  destruct (last (f0 :: fp)) as [fl|] eqn:Hfl;
    [|by apply last_None in Hfl].
  destruct (decide (xl < x)).
  { apply last_Some_elem_of in Hfl.
    by apply (proj1 (Forall_forall _ _) Hfp). }
  destruct (decide (x < x0)); [by inversion Hfp|].
  apply interp_scan_bounds; [exact Hfp|done|].
  intros ? [= <-]. lra.
Qed.

Lemma length_cumsum_from (acc : R) (a : list R) :
  length (cumsum_from acc a) = length a.
Proof. revert acc. induction a; intros acc; cbn; [done|]. by rewrite IHa. Qed.

Lemma np_interp_bounds (lo hi : R) (xs xp fp : list R) :
  Forall (λ f, lo <= f <= hi) fp → fp ≠ [] → length xp = length fp →
  ∃ ys, np_interp xs xp fp = Ok ys
        ∧ length ys = length xs ∧ Forall (λ y, lo <= y <= hi) ys.
Proof.
  intros Hfp Hne Hlen. unfold np_interp.
  rewrite decide_True by done.
  rewrite decide_False by (destruct fp; [done|cbn in Hlen; lia]).
  eexists. split; [reflexivity|]. split; [by rewrite length_fmap|].
  apply Forall_fmap, Forall_forall. intros x _. unfold compose.
  apply interp1_bounds; [exact Hfp|exact Hne|].
  intros ->. destruct fp; [done|discriminate].
Qed.

(** Ends of a sorted list. *)
Lemma sorted_le_last (l : list R) (hi : R) :
  StronglySorted Rle l → last l = Some hi → Forall (λ f, f <= hi) l.
Proof.
  intros Hs. revert hi. induction Hs as [|x l Hs IH Hx]; intros hi Hl.
  - constructor.
  - destruct l as [|y l]; [simplify_eq/=; constructor; [lra|constructor]|].
    change (last (y :: l) = Some hi) in Hl. pose proof (IH hi Hl) as Hall.
    constructor; [|exact Hall].
    apply last_Some_elem_of in Hl.
    apply (proj1 (Forall_forall _ _) Hx) in Hl. exact Hl.
Qed.

Lemma strongly_sorted_lt_le (l : list R) :
  StronglySorted Rlt l → StronglySorted Rle l.
Proof.
  induction 1 as [|x l _ IH Hx]; constructor; [exact IH|].
  eapply Forall_impl; [exact Hx|]. intros y Hy. cbn in *. lra.
Qed.

Lemma increasing_bounds (l : list R) (lo hi : R) :
  Sorted Rlt l → head l = Some lo → last l = Some hi →
  Forall (λ f, lo <= f <= hi) l ∧ ((2 ≤ length l)%nat → lo < hi).
Proof.
  intros Hs Hh Hl. apply Sorted_StronglySorted in Hs; [|apply _].
  assert (Hle : StronglySorted Rle l) by (by apply strongly_sorted_lt_le).
  pose proof (sorted_le_last l hi Hle Hl) as Hhi.
  destruct l as [|x l]; [done|]. simplify_eq/=.
  inversion Hs as [|? ? _ Hx]; subst. split.
  - apply Forall_cons. split.
    + split; [lra|]. by inversion Hhi.
    + apply Forall_forall. intros f Hf. split.
      * left. by apply (proj1 (Forall_forall _ _) Hx).
      * inversion Hhi as [|? ? _ Hhi']; subst.
        by apply (proj1 (Forall_forall _ _) Hhi').
  - intros Hlen. destruct l as [|y l]; [cbn in Hlen; lia|].
    change (last (y :: l) = Some hi) in Hl.
    apply last_Some_elem_of in Hl.
    by apply (proj1 (Forall_forall _ _) Hx).
Qed.

Lemma sorted_head_min (l : list R) (lo : R) :
  Sorted Rle l → Forall (λ k, lo <= k) l → lo ∈ l → head l = Some lo.
Proof.
  intros Hs Hall Hin. apply Sorted_StronglySorted in Hs; [|apply _].
  destruct l as [|x l]; [by apply elem_of_nil in Hin|]. cbn. f_equal.
  inversion Hs as [|? ? _ Hx]; subst. inversion Hall; subst.
  apply elem_of_cons in Hin as [->|Hin]; [done|].
  apply (proj1 (Forall_forall _ _) Hx) in Hin. lra.
Qed.

Lemma sorted_last_max (l : list R) (hi : R) :
  Sorted Rle l → Forall (λ k, k <= hi) l → hi ∈ l → last l = Some hi.
Proof.
  intros Hs. apply Sorted_StronglySorted in Hs; [|apply _].
  induction Hs as [|x l Hs IH Hx]; intros Hall Hin.
  - by apply elem_of_nil in Hin.
  - inversion Hall as [|? ? Hxhi Hall']; subst.
    destruct l as [|y l].
    + apply list_elem_of_singleton in Hin as ->. done.
    + change (last (y :: l) = Some hi). apply IH; [exact Hall'|].
      apply elem_of_cons in Hin as [->|Hin]; [|exact Hin].
      inversion Hx as [|? ? Hxy _]; subst. inversion Hall'; subst.
      assert (y = x) as -> by lra. apply list_elem_of_here.
Qed.

(** For non-negative power of positive total the cumulative distribution
    that [np.interp] receives as abscissae is non-decreasing, as it
    requires. *)
Lemma cumsum_nondecreasing (acc : R) (a : list R) :
  Forall (λ x, 0 <= x) a → Sorted Rle (cumsum_from acc a).
Proof.
  intros Ha. revert acc. induction Ha as [|x a Hx Ha IH]; intros acc.
  - constructor.
  - cbn. constructor; [apply IH|].
    destruct Ha as [|y a Hy _]; cbn; constructor. lra.
Qed.

Lemma cdf_nondecreasing (power : list R) :
  Forall (λ x, 0 <= x) power → 0 < np_sum power →
  Sorted Rle (np_cumsum ((λ x, x / np_sum power) <$> power)).
Proof.
  intros Hp Hs. apply cumsum_nondecreasing, Forall_fmap.
  eapply Forall_impl; [exact Hp|]. intros x Hx. unfold compose, Rdiv.
  apply Rmult_le_pos; [exact Hx|]. left. by apply Rinv_0_lt_compat.
Qed.

(** The general path of [init_knots], for more than two knots: the result
    is the normalised sort of the end frequencies and the three groups; the
    groups have the computed sizes and stay between the end frequencies. *)
Lemma init_knots_general (p : Periodogram.t) (n_knots : Z)
    (frac_uniform frac_log min_freq max_freq : R) :
  (3 ≤ n_knots)%Z →
  head (Periodogram.freqs p) = Some min_freq →
  last (Periodogram.freqs p) = Some max_freq →
  length (Periodogram.power p) = length (Periodogram.freqs p) →
  Forall (λ f, min_freq <= f <= max_freq) (Periodogram.freqs p) →
  0 < min_freq →
  let fu := Rmax 0 (Rmin frac_uniform 1) in
  let fl := Rmax 0 (Rmin frac_log 1) in
  let n_uniform :=
    if decide (0 < fu) then py_int (fu * IZR (n_knots - 2)) else 0%Z in
  let n_log :=
    if decide (0 < fl) then py_int (fl * IZR (n_knots - 2)) else 0%Z in
  let n_density := Z.max 0 ((n_knots - 2) - (n_uniform + n_log)) in
  ∃ raw,
    init_knots p n_knots frac_uniform frac_log
    = Ok ((λ k, (k - min_freq) / (max_freq - min_freq)) <$> np_sort raw)
    ∧ length raw
      = (2 + Z.to_nat n_uniform + Z.to_nat n_log + Z.to_nat n_density)%nat
    ∧ Forall (λ k, min_freq <= k <= max_freq) raw
    ∧ min_freq ∈ raw ∧ max_freq ∈ raw.
Proof.
  intros Hn Hh Hl Hlen Hfreqs Hpos fu fl n_uniform n_log n_density.
  assert (Hmm : min_freq <= max_freq).
  { apply last_Some_elem_of in Hl.
    apply (proj1 (Forall_forall _ _) Hfreqs) in Hl. lra. }
  unfold init_knots. rewrite Hh, Hl.
  rewrite decide_False by lia. rewrite decide_False by lia.
  fold fu fl. fold n_uniform n_log. fold n_density.
  set (U := if decide (0 < n_uniform)%Z
            then slice_1_m1 (linspace min_freq max_freq (n_uniform + 2))
            else []).
  set (L := if decide (0 < n_log)%Z
            then slice_1_m1
                   (logspace (log10 min_freq) (log10 max_freq) (n_log + 2))
            else []).
  assert (HU : length U = Z.to_nat n_uniform
               ∧ Forall (λ k, min_freq <= k <= max_freq) U).
  { unfold U. destruct (decide (0 < n_uniform)%Z).
    - split; [rewrite length_slice_1_m1, length_linspace; lia|].
      by apply Forall_slice_1_m1, linspace_bounds.
    - split; [cbn; lia|constructor]. }
  assert (HL : length L = Z.to_nat n_log
               ∧ Forall (λ k, min_freq <= k <= max_freq) L).
  { unfold L. destruct (decide (0 < n_log)%Z).
    - split; [unfold logspace;
              rewrite length_slice_1_m1, length_fmap, length_linspace; lia|].
      by apply Forall_slice_1_m1, logspace_bounds.
    - split; [cbn; lia|constructor]. }
  assert (HD : ∃ D,
             (if decide (0 < n_density)%Z then
                np_interp (slice_1_m1 (linspace 0 1 (n_density + 2)))
                  (np_cumsum ((λ x, x / np_sum (Periodogram.power p))
                                <$> Periodogram.power p))
                  (Periodogram.freqs p)
              else Ok []) = Ok D
             ∧ length D = Z.to_nat n_density
             ∧ Forall (λ k, min_freq <= k <= max_freq) D).
  { destruct (decide (0 < n_density)%Z).
    - destruct (np_interp_bounds min_freq max_freq
                  (slice_1_m1 (linspace 0 1 (n_density + 2)))
                  (np_cumsum ((λ x, x / np_sum (Periodogram.power p))
                                <$> Periodogram.power p))
                  (Periodogram.freqs p) Hfreqs)
        as (D & HD & HDlen & HDall).
      + intros Hnil. rewrite Hnil in Hh. discriminate.
      + unfold np_cumsum. by rewrite length_cumsum_from, length_fmap.
      + exists D. split; [exact HD|]. split; [|exact HDall].
        rewrite HDlen, length_slice_1_m1, length_linspace. lia.
    - exists []. split; [reflexivity|]. split; [cbn; lia|constructor]. }
  destruct HD as (D & -> & HDlen & HDall).
  destruct HU as [HUlen HUall], HL as [HLlen HLall].
  exists ([min_freq] ++ U ++ L ++ D ++ [max_freq]).
  split; [reflexivity|]. split; [|split; [|split]].
  - rewrite !length_app, HUlen, HLlen, HDlen. cbn. lia.
  - repeat (apply Forall_app; split); try done;
      (constructor; [lra|constructor]).
  - apply list_elem_of_here.
  - rewrite !elem_of_app. do 4 right. apply list_elem_of_here.
Qed.

Lemma head_fmap {A B} (f : A → B) (l : list A) :
  head (f <$> l) = f <$> head l.
Proof. by destruct l. Qed.

(** X27. Where the overshoot cannot occur: for more than two knots, clamped
    fractions that sum to at most one, and a periodogram with at least two
    strictly increasing positive frequencies and non-negative power of
    positive total, [init_knots] returns exactly [n_knots] knots,
    non-decreasing, the first 0 and the last 1, hence [n_knots - 2]
    interior knots.  (Positive frequencies keep [np.log10] defined;
    non-negative power of positive total keeps the density defined and the
    abscissae of [np.interp] non-decreasing, see [cdf_nondecreasing].) *)
Lemma init_knots_count_and_order (p : Periodogram.t) (n_knots : Z)
    (frac_uniform frac_log : R) :
  (3 ≤ n_knots)%Z →
  Rmax 0 (Rmin frac_uniform 1) + Rmax 0 (Rmin frac_log 1) <= 1 →
  Sorted Rlt (Periodogram.freqs p) →
  (2 ≤ length (Periodogram.freqs p))%nat →
  Forall (λ f, 0 < f) (Periodogram.freqs p) →
  length (Periodogram.power p) = length (Periodogram.freqs p) →
  Forall (λ x, 0 <= x) (Periodogram.power p) →
  0 < np_sum (Periodogram.power p) →
  ∃ knots,
    init_knots p n_knots frac_uniform frac_log = Ok knots
    ∧ Z.of_nat (length knots) = n_knots
    ∧ Sorted Rle knots
    ∧ head knots = Some 0
    ∧ last knots = Some 1
    ∧ Z.of_nat (length (slice_1_m1 knots)) = (n_knots - 2)%Z.
Proof.
  intros Hn Hsum Hsorted Hlen2 Hpos Hlen Hpow Htotal.
  destruct (Periodogram.freqs p) as [|min_freq fs] eqn:Hfs;
    [cbn in Hlen2; lia|].
  destruct (last (min_freq :: fs)) as [max_freq|] eqn:Hlast;
    [|by apply last_None in Hlast].
  destruct (increasing_bounds (min_freq :: fs) min_freq max_freq
              Hsorted eq_refl Hlast) as [Hbounds Hlt].
  specialize (Hlt Hlen2).
  assert (Hmin : 0 < min_freq) by (by inversion Hpos).
  rewrite <- Hfs in *.
  destruct (init_knots_general p n_knots frac_uniform frac_log
              min_freq max_freq Hn ltac:(by rewrite Hfs) Hlast Hlen
              Hbounds Hmin) as (raw & -> & Hrawlen & Hrawall & Hlo & Hhi).
  destruct (knot_counts_fit (Rmax 0 (Rmin frac_uniform 1))
              (Rmax 0 (Rmin frac_log 1)) (n_knots - 2)
              (Rmax_l _ _) (Rmax_l _ _) Hsum ltac:(lia))
    as (Hnu & Hnl & Hfit).
  cbv zeta in Hrawlen, Hnu, Hnl, Hfit.
  set (n_uniform := if decide (0 < Rmax 0 (Rmin frac_uniform 1))
                    then py_int (Rmax 0 (Rmin frac_uniform 1)
                                 * IZR (n_knots - 2)) else 0%Z) in *.
  set (n_log := if decide (0 < Rmax 0 (Rmin frac_log 1))
                then py_int (Rmax 0 (Rmin frac_log 1)
                             * IZR (n_knots - 2)) else 0%Z) in *.
  pose proof (merge_sort_Permutation Rle raw) as Hperm.
  pose proof (Sorted_merge_sort Rle raw) as Hsort.
  fold (np_sort raw) in Hperm, Hsort.
  assert (Hlenk : Z.of_nat
                    (length ((λ k, (k - min_freq) / (max_freq - min_freq))
                               <$> np_sort raw)) = n_knots).
  { rewrite length_fmap, Hperm, Hrawlen. lia. }
  eexists. split; [reflexivity|]. split; [exact Hlenk|].
  assert (Hd : 0 < / (max_freq - min_freq))
    by (apply Rinv_0_lt_compat; lra).
  split; [|split; [|split]].
  - eapply Sorted_fmap; [|exact Hsort]. intros x y Hxy. cbn.
    unfold Rdiv. apply Rmult_le_compat_r; lra.
  - rewrite head_fmap.
    rewrite (sorted_head_min (np_sort raw) min_freq Hsort).
    + cbn. f_equal. unfold Rdiv. rewrite Rminus_diag. lra.
    + rewrite Hperm. eapply Forall_impl; [exact Hrawall|].
      intros k Hk. cbn in *. lra.
    + by rewrite Hperm.
  - rewrite fmap_last.
    rewrite (sorted_last_max (np_sort raw) max_freq Hsort).
    + cbn. f_equal. field. lra.
    + rewrite Hperm. eapply Forall_impl; [exact Hrawall|].
      intros k Hk. cbn in *. lra.
    + by rewrite Hperm.
  - rewrite length_slice_1_m1. lia.
Qed.

Lemma init_knots_count_and_order_witness :
  ∃ knots,
    init_knots (Periodogram.mk [1; 2; 4] [1; 1; 1] false) 4 0 (8 / 10)
    = Ok knots
    ∧ Z.of_nat (length knots) = 4%Z
    ∧ Sorted Rle knots
    ∧ head knots = Some 0
    ∧ last knots = Some 1
    ∧ Z.of_nat (length (slice_1_m1 knots)) = (4 - 2)%Z.
Proof.
  apply (init_knots_count_and_order
           (Periodogram.mk [1; 2; 4] [1; 1; 1] false) 4 0 (8 / 10)).
  - lia.
  - unfold Rmax, Rmin. repeat destruct (Rle_dec _ _); lra.
  - repeat constructor; lra.
  - cbn. lia.
  - repeat (constructor; [lra|]). constructor.
  - reflexivity.
  - repeat (constructor; [lra|]). constructor.
  - cbn. lra.
Defined.

Lemma py_int_1 : py_int (1 * 1) = 1%Z.
Proof.
  unfold py_int. rewrite decide_True by lra.
  symmetry. apply Int_part_spec. lra.
Qed.

(** C4. The fractions are clamped one by one, so their sum is not kept at
    most one, as the comment above the clamping says it is: both fractions
    equal to 1 are in [0, 1] and stay as they are; with [n_knots = 3] the
    uniform group and the log group each receive the one interior knot,
    and four knots are returned where three were asked for. *)
Lemma init_knots_fractions_overshoot :
  Sorted Rlt [1; 2; 4]
  ∧ 0 < np_sum [1; 1; 1]
  ∧ (2 ≤ 3)%Z
  ∧ 0 <= 1 <= 1
  ∧ ∃ knots,
      init_knots (Periodogram.mk [1; 2; 4] [1; 1; 1] false) 3 1 1 = Ok knots
      ∧ length knots = 4%nat
      ∧ Z.of_nat (length knots) ≠ 3%Z.
Proof.
  split; [repeat constructor; lra|]. split; [cbn; lra|].
  split; [lia|]. split; [lra|].
  destruct (init_knots_general
              (Periodogram.mk [1; 2; 4] [1; 1; 1] false) 3 1 1 1 4)
    as (raw & Heq & Hlen & _).
  - lia.
  - reflexivity.
  - reflexivity.
  - reflexivity.
  - cbn. repeat (constructor; [lra|]). constructor.
  - lra.
  - assert (Hclamp : Rmax 0 (Rmin 1 1) = 1).
    { unfold Rmax, Rmin. repeat destruct (Rle_dec _ _); lra. }
    cbv zeta in Hlen. rewrite Hclamp in Hlen.
    rewrite decide_True in Hlen by lra.
    change (3 - 2)%Z with 1%Z in Hlen. rewrite py_int_1 in Hlen.
    cbn in Hlen.
    assert (Hk : length ((λ k : R, (k - 1) / (4 - 1)) <$> np_sort raw)
                 = 4%nat).
    { rewrite length_fmap. unfold np_sort.
      by rewrite merge_sort_Permutation. }
    eexists. split; [exact Heq|]. split; [exact Hk|]. rewrite Hk. lia.
Qed.

(** ** Arrays: indices, offsets and broadcasting *)

Lemma length_indices (s : list nat) : length (indices s) = size_of s.
Proof.
  induction s as [|d s IH]; [done|]. cbn [indices size_of foldr].
  fold (size_of s). induction d as [|d IHd]; [done|].
  rewrite seq_S, bind_app, length_app, IHd. cbn.
  rewrite app_nil_r, length_fmap, IH. apply Nat.add_comm.
Qed.

Lemma seq_blocks (d m : nat) :
  seq 0 d ≫= (λ i, (λ r, (i * m + r)%nat) <$> seq 0 m) = seq 0 (d * m).
Proof.
  induction d as [|d IH]; [done|].
  rewrite seq_S, bind_app, IH. cbn. rewrite app_nil_r.
  rewrite fmap_add_seq, (Nat.add_comm m (d * m)), seq_app.
  f_equal. f_equal. lia.
Qed.

Lemma fmap_bind_blocks {A B C} (f : B → C) (g : A → list B)
    (k : A → list C) (l : list A) :
  (∀ x, f <$> g x = k x) → f <$> (l ≫= g) = l ≫= k.
Proof.
  intros Hk. induction l as [|x l IH]; [done|].
  by rewrite !bind_cons, fmap_app, IH, Hk.
Qed.

(** Row-major order: the offsets of the multi-indices count up from 0. *)
Lemma ravel_indices (s : list nat) :
  ravel s <$> indices s = seq 0 (size_of s).
Proof.
  induction s as [|d s IH]; [done|]. cbn [indices size_of foldr].
  fold (size_of s). rewrite <- seq_blocks.
  apply fmap_bind_blocks.
  intros i. rewrite <- IH, <- !list_fmap_compose. done.
Qed.

Lemma elem_of_indices (s idx : list nat) :
  idx ∈ indices s → Forall2 lt idx s.
Proof.
  revert idx. induction s as [|d s IH]; intros idx Hin.
  - apply list_elem_of_singleton in Hin as ->. constructor.
  - cbn [indices] in Hin. apply list_elem_of_bind in Hin as (i & Hidx & Hi).
    apply list_elem_of_fmap in Hidx as (idx' & -> & Hidx').
    apply elem_of_seq in Hi. constructor; [lia|by apply IH].
Qed.

Lemma ravel_lt (s idx : list nat) :
  Forall2 lt idx s → (ravel s idx < size_of s)%nat.
Proof.
  induction 1 as [|i d idx s Hi _ IH]; [cbn; lia|].
  cbn [ravel size_of foldr]. fold (size_of s). nia.
Qed.

(** Looking up the entry of offset [k] in an array built over [indices]. *)
Lemma lookup_fmap_indices {A} (g : list nat → A) (s idx : list nat) :
  Forall2 lt idx s →
  (g <$> indices s) !! ravel s idx = Some (g idx).
Proof.
  intros Hidx. rewrite list_lookup_fmap.
  enough (indices s !! ravel s idx = Some idx) as -> by done.
  pose proof (ravel_lt s idx Hidx) as Hlt.
  pose proof (ravel_indices s) as Hrav.
  assert (Hsome : is_Some (indices s !! ravel s idx)).
  { apply lookup_lt_is_Some. by rewrite length_indices. }
  destruct Hsome as [idx' Hidx'].
  assert (Hr : ravel s idx' = ravel s idx).
  { assert (Hl : (ravel s <$> indices s) !! ravel s idx = Some (ravel s idx')).
    { by rewrite list_lookup_fmap, Hidx'. }
    rewrite Hrav in Hl. apply lookup_seq in Hl. lia. }
  rewrite Hidx'. f_equal.
  assert (Hv' : Forall2 lt idx' s).
  { apply elem_of_indices. by eapply list_elem_of_lookup_2. }
  clear -Hidx Hv' Hr. revert idx' Hv' Hr.
  induction Hidx as [|i d idx s Hi Hidx IH]; intros idx' Hv' Hr.
  - by inversion Hv'.
  - inversion Hv' as [|i' ? idx'' ? Hi' Hv'']; subst.
    cbn [ravel] in Hr.
    pose proof (ravel_lt s idx Hidx). pose proof (ravel_lt s idx'' Hv'').
    assert (i' = i) as -> by nia.
    f_equal. apply IH; [done|lia].
Qed.

Lemma indices_valid (s : list nat) : Forall (λ idx, Forall2 lt idx s) (indices s).
Proof. apply Forall_forall. intros idx. apply elem_of_indices. Qed.

(** Within an operand of the result's own shape nothing is pinned. *)
Lemma bcast_offset_same (s idx : list nat) :
  Forall2 lt idx s → bcast_offset s idx = ravel s idx.
Proof.
  intros Hidx. unfold bcast_offset.
  rewrite (Forall2_length _ _ _ Hidx), Nat.sub_diag, drop_0. f_equal.
  induction Hidx as [|i d idx s Hi _ IH]; [done|]. cbn. rewrite IH. f_equal.
  destruct (decide (d = 1%nat)); lia.
Qed.

(** A buffer read at the offsets of all multi-indices is the buffer. *)
Lemma fmap_ravel_indices {B} (g : nat → B) (s : list nat) :
  (λ idx, g (ravel s idx)) <$> indices s = g <$> seq 0 (size_of s).
Proof. by rewrite <- ravel_indices, <- list_fmap_compose. Qed.

Lemma fmap_lookup_total_seq `{Inhabited A} {B} (g : A → B) (l : list A) :
  (λ k, g (l !!! k)) <$> seq 0 (length l) = g <$> l.
Proof.
  apply list_eq. intros i. rewrite !list_lookup_fmap.
  destruct (decide (i < length l)%nat) as [Hi|Hi].
  - rewrite lookup_seq_lt by done. cbn.
    by rewrite (list_lookup_lookup_total_lt l i Hi).
  - rewrite lookup_seq_ge by lia. by rewrite lookup_ge_None_2 by lia.
Qed.

Lemma broadcast_rev_nil_r (r : list nat) : broadcast_rev r [] = Some r.
Proof. by destruct r. Qed.

(** An array and a scalar: the operation is applied to every entry. *)
Lemma broadcast2_scalar `{Inhabited A} (f : A → A → A) (a : ndarray A)
    (m : A) :
  wf_array a →
  broadcast2 f a (arr0 m)
  = Ok (mkArr (shape a) ((λ x, f x m) <$> data a)).
Proof.
  intros Hwf. unfold broadcast2, broadcast_shape, arr0.
  cbn [shape data reverse rev_append]. change (reverse []) with (@nil nat).
  rewrite broadcast_rev_nil_r. cbn [fmap option_fmap option_map].
  rewrite reverse_involutive. do 2 f_equal.
  rewrite <- (fmap_lookup_total_seq (λ x, f x m)), Hwf, <- fmap_ravel_indices.
  apply Forall_fmap_ext_1. eapply Forall_impl; [apply indices_valid|].
  intros idx Hidx. cbn beta. by rewrite bcast_offset_same.
Qed.

Lemma broadcast_rev_same (r : list nat) : broadcast_rev r r = Some r.
Proof.
  induction r as [|d r IH]; [done|]. cbn. rewrite IH. cbn.
  by rewrite decide_True.
Qed.

Lemma fmap_seq_zip_with `{Inhabited A} (f : A → A → A) (l1 l2 : list A) :
  length l1 = length l2 →
  (λ k, f (l1 !!! k) (l2 !!! k)) <$> seq 0 (length l1) = zip_with f l1 l2.
Proof.
  intros Hlen. apply list_eq. intros i. rewrite list_lookup_fmap, lookup_zip_with.
  destruct (decide (i < length l1)%nat) as [Hi|Hi].
  - rewrite lookup_seq_lt by done. cbn.
    rewrite (list_lookup_lookup_total_lt l1 i Hi).
    by rewrite (list_lookup_lookup_total_lt l2 i) by lia.
  - rewrite lookup_seq_ge by lia. rewrite (lookup_ge_None_2 l1 i) by lia.
    done.
Qed.

(** Two arrays of one shape: the operation is applied entry by entry. *)
Lemma broadcast2_same_shape `{Inhabited A} (f : A → A → A) (a b : ndarray A) :
  shape b = shape a → wf_array a → wf_array b →
  broadcast2 f a b = Ok (mkArr (shape a) (zip_with f (data a) (data b))).
Proof.
  intros Hs Ha Hb. unfold broadcast2, broadcast_shape. rewrite Hs.
  rewrite broadcast_rev_same. cbn [fmap option_fmap option_map].
  rewrite reverse_involutive. do 2 f_equal.
  rewrite <- fmap_seq_zip_with by (rewrite Ha, Hb, Hs; done).
  rewrite Ha, <- fmap_ravel_indices.
  apply Forall_fmap_ext_1. eapply Forall_impl; [apply indices_valid|].
  intros idx Hidx. cbn beta. by rewrite bcast_offset_same.
Qed.

(** A matrix and a row vector: column [j] is combined with entry [j]. *)
Lemma broadcast2_rows `{Inhabited A} (f : A → A → A) (n b : nat)
    (d v : list A) :
  length v = b →
  broadcast2 f (mkArr [n; b] d) (arr1 v)
  = Ok (mkArr [n; b]
          ((λ idx, f (d !!! ravel [n; b] idx) (v !!! (idx !!! 1%nat)))
             <$> indices [n; b])).
Proof.
  intros Hv. unfold broadcast2, broadcast_shape, arr1. cbn [shape data].
  rewrite Hv.
  assert (Hsh : reverse <$> broadcast_rev (reverse [n; b]) (reverse [b])
                = Some [n; b]).
  { cbn. by rewrite decide_True. }
  rewrite Hsh. do 2 f_equal.
  apply Forall_fmap_ext_1. eapply Forall_impl; [apply indices_valid|].
  intros idx Hidx. cbn beta. rewrite bcast_offset_same by done.
  f_equal. f_equal.
  inversion Hidx as [|i ? idx' ? Hi Hidx']; subst.
  inversion Hidx' as [|j ? idx'' ? Hj Hidx'']; subst.
  inversion Hidx''; subst. unfold bcast_offset. cbn.
  case_decide; lia.
Qed.

(** ** The penalty matrix: rescaling and stabiliser *)

Lemma fdiv_fin (x y : R) : y ≠ 0 → fdiv (Fin x) (Fin y) = Fin (x / y).
Proof. intros Hy. unfold fdiv. by rewrite decide_False. Qed.

Lemma finite_data (d : list fval) :
  Forall is_finite d → d = Fin <$> (real_of <$> d).
Proof.
  induction 1 as [|v d Hv _ IH]; [done|].
  destruct v; try done. cbn. by rewrite <- IH.
Qed.

Lemma foldl_fmax_fin (x : R) (xs : list R) :
  foldl fmax (Fin x) (Fin <$> xs) = Fin (foldl Rmax x xs).
Proof. revert x. induction xs as [|y xs IH]; intros x; [done|]. cbn. apply IH. Qed.

Lemma foldl_Rmax_upper (x : R) (xs : list R) :
  Forall (λ y, y <= foldl Rmax x xs) (x :: xs).
Proof.
  assert (Hmono : ∀ xs x, x <= foldl Rmax x xs).
  { clear. induction xs as [|y xs IH]; intros x; cbn; [lra|].
    specialize (IH (Rmax x y)). pose proof (Rmax_l x y). lra. }
  revert x. induction xs as [|y xs IH]; intros x.
  - cbn. constructor; [lra|constructor].
  - cbn [foldl]. specialize (IH (Rmax x y)).
    inversion IH as [|? ? Hm Hxs]; subst.
    constructor; [|constructor; [|exact Hxs]].
    + pose proof (Rmax_l x y). lra.
    + pose proof (Rmax_r x y). lra.
Qed.

Lemma foldl_Rmax_scale (c x : R) (xs : list R) :
  0 <= c →
  foldl Rmax (x * c) ((λ y, y * c) <$> xs) = foldl Rmax x xs * c.
Proof.
  intros Hc. revert x. induction xs as [|y xs IH]; intros x; [done|].
  cbn. rewrite <- IH. f_equal.
  unfold Rmax. repeat destruct (Rle_dec _ _); nra.
Qed.

Lemma size_of_square (k : nat) : size_of [k; k] = (k * k)%nat.
Proof. cbn. lia. Qed.

Lemma ravel_square (k i j : nat) : ravel [k; k] [i; j] = (i * k + j)%nat.
Proof. cbn. lia. Qed.

Lemma valid_index2 (n b i j : nat) :
  (i < n)%nat → (j < b)%nat → Forall2 lt [i; j] [n; b].
Proof. intros. repeat constructor; done. Qed.

Lemma offset2_lt (n b i j : nat) :
  (i < n)%nat → (j < b)%nat → (i * b + j < n * b)%nat.
Proof. intros. nia. Qed.

(** The entry of a pointwise image is the image of the entry. *)
Lemma entry2_fmap (g : fval → fval) (k : nat) (d : list fval) (i j : nat) :
  length d = (k * k)%nat → (i < k)%nat → (j < k)%nat →
  entry2 (mkArr [k; k] (g <$> d)) i j = g (entry2 (mkArr [k; k] d) i j).
Proof.
  intros Hlen Hi Hj. unfold entry2. cbn [shape data].
  pose proof (offset2_lt k k i j Hi Hj).
  apply list_lookup_total_correct. rewrite list_lookup_fmap.
  by rewrite (list_lookup_lookup_total_lt d) by lia.
Qed.

Lemma entry2_zip_with (g : fval → fval → fval) (k : nat) (d1 d2 : list fval)
    (i j : nat) :
  length d1 = (k * k)%nat → length d2 = (k * k)%nat →
  (i < k)%nat → (j < k)%nat →
  entry2 (mkArr [k; k] (zip_with g d1 d2)) i j
  = g (entry2 (mkArr [k; k] d1) i j) (entry2 (mkArr [k; k] d2) i j).
Proof.
  intros H1 H2 Hi Hj. unfold entry2. cbn [shape data].
  pose proof (offset2_lt k k i j Hi Hj).
  apply list_lookup_total_correct. rewrite lookup_zip_with.
  rewrite (list_lookup_lookup_total_lt d1) by lia.
  by rewrite (list_lookup_lookup_total_lt d2) by lia.
Qed.

Lemma entry2_eye (k i j : nat) :
  (i < k)%nat → (j < k)%nat →
  entry2 (np_eye k) i j = if decide (i = j) then Fin 1 else Fin 0.
Proof.
  intros Hi Hj. unfold entry2, np_eye. cbn [shape data].
  apply list_lookup_total_correct. rewrite <- ravel_square.
  by rewrite lookup_fmap_indices by (by apply valid_index2).
Qed.

Lemma wf_eye (k : nat) : wf_array (np_eye k).
Proof. unfold wf_array, np_eye. cbn [shape data]. by rewrite length_fmap, length_indices. Qed.

Lemma entry2_finite (k : nat) (a : ndarray fval) (i j : nat) :
  finite_square k a → (i < k)%nat → (j < k)%nat →
  entry2 a i j = Fin (matrix_of a i j).
Proof.
  intros (Hs & Hwf & Hfin) Hi Hj. unfold matrix_of, entry2. rewrite Hs.
  unfold wf_array in Hwf. rewrite Hs, size_of_square in Hwf.
  pose proof (offset2_lt k k i j Hi Hj).
  pose proof (Forall_lookup_total_1 _ _ (i * k + j) Hfin ltac:(lia)) as Hf.
  by destruct (data a !!! (i * k + j)%nat).
Qed.

Lemma Forall_finite_zip_fadd (l1 l2 : list fval) :
  Forall is_finite l1 → Forall is_finite l2 →
  Forall is_finite (zip_with fadd l1 l2).
Proof.
  intros H1. revert l2. induction H1 as [|x l1 Hx _ IH]; intros l2 H2;
    [constructor|].
  destruct H2 as [|y l2 Hy H2]; cbn; constructor; [|by apply IH].
  by destruct x, y.
Qed.

Lemma Forall_finite_scaled_eye (eps : R) (k : nat) :
  Forall is_finite (fmul (Fin eps) <$> data (np_eye k)).
Proof.
  unfold np_eye. cbn [data]. apply Forall_fmap, Forall_fmap, Forall_forall.
  intros idx _. unfold compose.
  destruct idx as [|? [|? [|? ?]]]; cbn; try done. by case_decide.
Qed.

(** The two post-processing steps of the raw penalty [raw], a [k] by [k]
    array of finite entries whose maximum [m] is positive. *)
Lemma penalty_pipeline (raw : ndarray fval) (k : nat) (eps : R) :
  finite_square k raw → (0 < k)%nat →
  ∃ m, np_max raw = Ok (Fin m)
    ∧ (∀ i j, (i < k)%nat → (j < k)%nat → matrix_of raw i j <= m)
    ∧ (0 < m →
       ∃ scaled p,
         penalty_rescaled raw = Ok scaled
         ∧ penalty_stabilised eps scaled = Ok p
         ∧ finite_square k scaled ∧ finite_square k p
         ∧ np_max scaled = Ok (Fin 1)
         ∧ (∀ i j, (i < k)%nat → (j < k)%nat →
              matrix_of scaled i j = matrix_of raw i j / m)
         ∧ (∀ i j, (i < k)%nat → (j < k)%nat →
              matrix_of p i j
              = matrix_of raw i j / m + eps * (if decide (i = j) then 1 else 0))).
Proof.
  intros Hsq Hk. pose proof Hsq as (Hs & Hwf & Hfin).
  destruct raw as [s d]. cbn [shape data] in *. subst s.
  unfold wf_array in Hwf. cbn [shape data] in Hwf.
  rewrite size_of_square in Hwf.
  pose proof (finite_data d Hfin) as Hd.
  assert (Hrs : length (real_of <$> d) = (k * k)%nat)
    by (by rewrite length_fmap).
  remember (real_of <$> d) as rs eqn:Hrsdef.
  destruct rs as [|r0 rs']; [cbn in Hrs; nia|].
  set (m := foldl Rmax r0 rs').
  assert (Hmax : np_max (mkArr [k; k] d) = Ok (Fin m)).
  { unfold np_max. cbn [data]. rewrite Hd. cbn [fmap list_fmap].
    by rewrite foldl_fmax_fin. }
  exists m. split; [exact Hmax|]. split.
  { intros i j Hi Hj. pose proof (offset2_lt k k i j Hi Hj).
    pose proof (foldl_Rmax_upper r0 rs') as Hup. fold m in Hup.
    pose proof (Forall_lookup_total_1 _ _ (i * k + j) Hup ltac:(lia)) as Hij.
    cbn beta in Hij. unfold matrix_of, entry2. cbn [shape data].
    rewrite Hrsdef in Hij.
    rewrite (list_lookup_total_fmap real_of d) in Hij by lia. exact Hij. }
  intros Hm.
  set (scaled := mkArr [k; k] ((λ x, fdiv x (Fin m)) <$> d)).
  assert (Hscaled : penalty_rescaled (mkArr [k; k] d) = Ok scaled).
  { unfold penalty_rescaled. rewrite Hmax. cbn [mbind result_bind].
    rewrite broadcast2_scalar; [done|].
    unfold wf_array. cbn [shape data]. by rewrite size_of_square. }
  assert (Hsdata : data scaled = Fin <$> ((λ x, x * / m) <$> (r0 :: rs'))).
  { unfold scaled. cbn [data]. rewrite Hd at 1.
    rewrite <- !list_fmap_compose. apply Forall_fmap_ext_1, Forall_forall.
    intros x _. unfold compose. rewrite fdiv_fin by lra. done. }
  assert (Hsq1 : finite_square k scaled).
  { split; [done|]. split.
    - unfold wf_array, scaled. cbn [shape data].
      by rewrite length_fmap, size_of_square.
    - rewrite Hsdata. apply Forall_fmap, Forall_forall. by intros. }
  set (stab := fmul (Fin eps) <$> data (np_eye k)).
  set (p := mkArr [k; k] (zip_with fadd (data scaled) stab)).
  assert (Hstab : length stab = (k * k)%nat).
  { unfold stab. rewrite length_fmap. pose proof (wf_eye k) as Hw.
    unfold wf_array in Hw. rewrite Hw. apply size_of_square. }
  assert (Hp : penalty_stabilised eps scaled = Ok p).
  { unfold penalty_stabilised. cbn [shape scaled lookup list_lookup].
    rewrite broadcast2_same_shape; [done|done| |].
    - by destruct Hsq1 as (_ & Hw & _).
    - unfold wf_array. cbn [shape data np_eye].
      by rewrite !length_fmap, length_indices. }
  assert (Hlens : length (data scaled) = (k * k)%nat).
  { unfold scaled. cbn [data]. by rewrite length_fmap. }
  assert (Hentry_s : ∀ i j, (i < k)%nat → (j < k)%nat →
            entry2 scaled i j = Fin (matrix_of (mkArr [k; k] d) i j / m)).
  { intros i j Hi Hj. unfold scaled. rewrite entry2_fmap by done.
    rewrite (entry2_finite k) by done. by rewrite fdiv_fin by lra. }
  assert (Hentry_p : ∀ i j, (i < k)%nat → (j < k)%nat →
            entry2 p i j
            = Fin (matrix_of (mkArr [k; k] d) i j / m
                   + eps * (if decide (i = j) then 1 else 0))).
  { intros i j Hi Hj. unfold p.
    rewrite entry2_zip_with by done.
    change (mkArr [k; k] (data scaled)) with scaled.
    rewrite Hentry_s by done. unfold stab.
    rewrite entry2_fmap; [|by rewrite <- Hstab; unfold stab;
                              rewrite length_fmap|done|done].
    change (mkArr [k; k] (data (np_eye k))) with (np_eye k).
    rewrite entry2_eye by done. by destruct (decide (i = j)). }
  exists scaled, p. split; [exact Hscaled|]. split; [exact Hp|].
  split; [exact Hsq1|]. split; [|split; [|split]].
  - split; [done|]. split.
    + unfold wf_array, p. cbn [shape data].
      rewrite length_zip_with, Hlens, Hstab, size_of_square. lia.
    + unfold p. cbn [data]. apply Forall_finite_zip_fadd.
      * by destruct Hsq1 as (_ & _ & Hf).
      * apply Forall_finite_scaled_eye.
  - unfold np_max. rewrite Hsdata. cbn [fmap list_fmap].
    rewrite foldl_fmax_fin, foldl_Rmax_scale.
    + fold m. do 2 f_equal. field. lra.
    + left. by apply Rinv_0_lt_compat.
  - intros i j Hi Hj. unfold matrix_of at 1. by rewrite Hentry_s.
  - intros i j Hi Hj. unfold matrix_of at 1. by rewrite Hentry_p.
Qed.

(** *** Finite sums and the quadratic form *)

Lemma sum_n_ext (k : nat) (f g : nat → R) :
  (∀ i, (i < k)%nat → f i = g i) → sum_n k f = sum_n k g.
Proof.
  intros Hfg. unfold sum_n. f_equal. apply Forall_fmap_ext_1, Forall_forall.
  intros i Hi. apply elem_of_seq in Hi. apply Hfg. lia.
Qed.

Lemma np_sum_cons (x : R) (l : list R) : np_sum (x :: l) = x + np_sum l.
Proof. reflexivity. Qed.

Lemma np_sum_plus {A} (f g : A → R) (l : list A) :
  np_sum ((λ i, f i + g i) <$> l) = np_sum (f <$> l) + np_sum (g <$> l).
Proof.
  induction l as [|a l IH]; [cbn; lra|].
  rewrite !fmap_cons, !np_sum_cons, IH. lra.
Qed.

Lemma np_sum_scale {A} (c : R) (f : A → R) (l : list A) :
  np_sum ((λ i, c * f i) <$> l) = c * np_sum (f <$> l).
Proof.
  induction l as [|a l IH]; [cbn; lra|].
  rewrite !fmap_cons, !np_sum_cons, IH. lra.
Qed.

Lemma np_sum_nonneg (l : list R) : Forall (λ x, 0 <= x) l → 0 <= np_sum l.
Proof.
  induction 1 as [|x l Hx _ IH]; [cbn; lra|]. rewrite np_sum_cons. lra.
Qed.

Lemma np_sum_pos (l : list R) :
  Forall (λ x, 0 <= x) l → Exists (λ x, 0 < x) l → 0 < np_sum l.
Proof.
  intros Hall Hex. induction Hex as [x l Hx|x l _ IH]; rewrite np_sum_cons;
    inversion Hall as [|? ? Hx0 Hl]; subst.
  - pose proof (np_sum_nonneg l Hl). lra.
  - specialize (IH Hl). lra.
Qed.

Lemma np_sum_delta (i : nat) (g : nat → R) (l : list nat) :
  NoDup l → i ∈ l →
  np_sum ((λ j, if decide (i = j) then g j else 0) <$> l) = g i.
Proof.
  assert (Hzero : ∀ l', i ∉ l' →
            np_sum ((λ j, if decide (i = j) then g j else 0) <$> l') = 0).
  { induction l' as [|b l' IH']; intros Hni; [done|].
    rewrite fmap_cons, np_sum_cons.
    rewrite decide_False by (intros ->; apply Hni, list_elem_of_here).
    rewrite IH'; [lra|]. intros Hb. apply Hni. by apply list_elem_of_further. }
  intros Hnd Hin.
  induction Hnd as [|a l Ha Hnd IH]; [by apply elem_of_nil in Hin|].
  rewrite fmap_cons, np_sum_cons.
  apply elem_of_cons in Hin as [->|Hin].
  - rewrite decide_True by done. rewrite Hzero by done. lra.
  - rewrite decide_False by (intros ->; done). rewrite IH by done. lra.
Qed.

Lemma sum_n_delta (k i : nat) (g : nat → R) :
  (i < k)%nat → sum_n k (λ j, if decide (i = j) then g j else 0) = g i.
Proof.
  intros Hi. unfold sum_n. apply np_sum_delta; [apply NoDup_seq|].
  apply elem_of_seq. lia.
Qed.

Lemma sum_n_plus (k : nat) (f g : nat → R) :
  sum_n k (λ i, f i + g i) = sum_n k f + sum_n k g.
Proof. apply np_sum_plus. Qed.

Lemma sum_n_scale (c : R) (k : nat) (f : nat → R) :
  sum_n k (λ i, c * f i) = c * sum_n k f.
Proof. apply np_sum_scale. Qed.

Lemma quad_form_ext (k : nat) (M N : nat → nat → R) (x : nat → R) :
  (∀ i j, (i < k)%nat → (j < k)%nat → M i j = N i j) →
  quad_form k M x = quad_form k N x.
Proof.
  intros HMN. unfold quad_form. apply sum_n_ext. intros i Hi.
  apply sum_n_ext. intros j Hj. by rewrite HMN.
Qed.

(** The form of [M / m + eps I] is the form of [M] over [m] plus [eps]
    times the squared norm. *)
Lemma quad_form_rescaled_stabilised (k : nat) (M : nat → nat → R)
    (m eps : R) (x : nat → R) :
  quad_form k (λ i j, M i j / m + eps * (if decide (i = j) then 1 else 0)) x
  = quad_form k M x / m + eps * sum_n k (λ i, x i * x i).
Proof.
  unfold quad_form.
  transitivity
    (sum_n k (λ i, / m * sum_n k (λ j, x i * M i j * x j)
                   + eps * (x i * x i))).
  { apply sum_n_ext. intros i Hi.
    transitivity
      (sum_n k (λ j, / m * (x i * M i j * x j)
                     + eps * (if decide (i = j) then x i * x j else 0))).
    { apply sum_n_ext. intros j _. destruct (decide (i = j)); unfold Rdiv; lra. }
    rewrite sum_n_plus, !sum_n_scale, sum_n_delta by lia. done. }
  rewrite sum_n_plus, !sum_n_scale. unfold Rdiv. lra.
Qed.

Lemma sum_squares_pos (k : nat) (x : nat → R) :
  (∃ i, (i < k)%nat ∧ x i ≠ 0) → 0 < sum_n k (λ i, x i * x i).
Proof.
  intros (i & Hi & Hx). unfold sum_n. apply np_sum_pos.
  - apply Forall_fmap, Forall_forall. intros j _. unfold compose. nra.
  - apply Exists_fmap, Exists_exists. exists i. split; [apply elem_of_seq; lia|].
    unfold compose. nra.
Qed.

(** ** The basis matrix: padding, normalisation factors, division *)

Lemma knots_with_boundary_ok (knots : list R) (degree : Z) :
  (0 ≤ degree)%Z →
  knots_with_boundary knots degree
  = Ok (replicate (Z.to_nat degree) 0 ++ knots
          ++ replicate (Z.to_nat degree) 1).
Proof.
  intros Hd. unfold knots_with_boundary, np_repeat.
  repeat case_decide; try lia. reflexivity.
Qed.

Lemma length_norm_factor (knots : list R) (degree : Z) :
  (0 ≤ degree)%Z →
  length (norm_factor (replicate (Z.to_nat degree) 0 ++ knots
                         ++ replicate (Z.to_nat degree) 1) degree)
  = Z.to_nat (Z.of_nat (length knots) + degree - 1).
Proof.
  intros Hd. unfold norm_factor, slice_from, slice_to, slice_index.
  rewrite length_fmap, length_zip_with, length_drop, length_take.
  rewrite !length_app, !length_replicate.
  repeat case_decide; lia.
Qed.

(** Each factor is [np.inf] on a window of zero span, and a non-zero finite
    number otherwise. *)
Lemma norm_factor_entry (kwb : list R) (degree : Z) (j : nat) :
  (0 ≤ degree)%Z →
  (j < length (norm_factor kwb degree))%nat →
  (zero_span kwb degree j ∧ norm_factor kwb degree !!! j = PInf)
  ∨ (¬ zero_span kwb degree j
     ∧ ∃ r, r ≠ 0 ∧ norm_factor kwb degree !!! j = Fin r).
Proof.
  intros Hd Hj. unfold zero_span.
  assert (Hc : 0 < IZR (degree + 1)) by (apply IZR_lt; lia).
  revert Hj. unfold norm_factor, slice_from, slice_to, slice_index.
  rewrite (decide_False (P := (degree + 1 < 0)%Z)) by lia.
  set (t := if decide (Z.of_nat (length kwb) - degree - 1 < 0)%Z
            then Z.to_nat (Z.of_nat (length kwb)
                           + (Z.of_nat (length kwb) - degree - 1))
            else Z.to_nat (Z.of_nat (length kwb) - degree - 1)).
  rewrite length_fmap, length_zip_with, length_drop, length_take. intros Hj.
  set (g := λ v : fval, if decide (v = Fin 0) then PInf else v).
  set (h := λ m s : R, Fin ((m - s) / IZR (degree + 1))).
  assert (Hlk : (g <$> zip_with h (drop (Z.to_nat (degree + 1)) kwb)
                                  (take t kwb)) !!! j
                = g (h (kwb !!! (j + Z.to_nat (degree + 1))%nat) (kwb !!! j))).
  { apply list_lookup_total_correct.
    rewrite list_lookup_fmap, lookup_zip_with, lookup_drop, lookup_take_lt
      by lia.
    rewrite (list_lookup_lookup_total_lt kwb (Z.to_nat (degree + 1) + j))
      by lia.
    rewrite (list_lookup_lookup_total_lt kwb j) by lia.
    cbn. by rewrite (Nat.add_comm j). }
  rewrite Hlk. unfold g, h.
  set (a := kwb !!! (j + Z.to_nat (degree + 1))%nat). set (b := kwb !!! j).
  destruct (decide (a = b)) as [Hab|Hab].
  - left. split; [done|]. rewrite decide_True; [done|].
    f_equal. rewrite Hab. unfold Rdiv. rewrite Rminus_diag. lra.
  - right. split; [done|].
    assert (Hne : (a - b) / IZR (degree + 1) ≠ 0).
    { intros H0. apply Hab.
      apply (Rmult_eq_compat_r (IZR (degree + 1))) in H0.
      unfold Rdiv in H0. rewrite Rmult_assoc, Rinv_l in H0 by lra. lra. }
    exists ((a - b) / IZR (degree + 1)). split; [exact Hne|].
    rewrite decide_False; [done|]. intros [= H0]. done.
Qed.

(** What the replacement of zero factors by [np.inf] prevents: a finite
    entry divided by [np.inf] is 0, divided by 0 it is NaN or infinite. *)
Lemma zero_factor_guard (x : R) :
  fdiv (Fin x) PInf = Fin 0 ∧ ¬ is_finite (fdiv (Fin x) (Fin 0)).
Proof.
  split; [reflexivity|]. unfold fdiv, inf_with_sign_of.
  rewrite decide_True by done. repeat case_decide; cbn; tauto.
Qed.

Lemma fdiv_norm_factor_finite (x v : fval) :
  is_finite x → (v = PInf ∨ ∃ r, r ≠ 0 ∧ v = Fin r) → is_finite (fdiv x v).
Proof.
  intros Hx [->|(r & Hr & ->)]; destruct x; try done.
  by rewrite fdiv_fin.
Qed.

Lemma size_of_reverse (s : list nat) : size_of (reverse s) = size_of s.
Proof.
  assert (Happ : ∀ s1 s2, size_of (s1 ++ s2) = (size_of s1 * size_of s2)%nat).
  { induction s1 as [|d s1 IH]; intros s2.
    - cbn. fold (size_of s2). lia.
    - change (size_of ((d :: s1) ++ s2))
        with (d * size_of (s1 ++ s2))%nat.
      change (size_of (d :: s1)) with (d * size_of s1)%nat.
      rewrite IH. apply Nat.mul_assoc. }
  induction s as [|d s IH]; [done|].
  rewrite reverse_cons, Happ, IH.
  change (size_of [d]) with (d * 1)%nat.
  change (size_of (d :: s)) with (d * size_of s)%nat. lia.
Qed.

Lemma squeeze_main_case {A} (k n : nat) (d : list A) :
  k ≠ 1%nat → n ≠ 1%nat →
  squeeze (mkArr [k; n; 1%nat] d) = mkArr [k; n] d.
Proof.
  intros Hk Hn. unfold squeeze. cbn [shape data]. f_equal.
  rewrite filter_cons_True by done. rewrite filter_cons_True by done.
  by rewrite filter_cons_False by (intros H; by apply H).
Qed.

Lemma ravel2 (n b i j : nat) : ravel [n; b] [i; j] = (i * b + j)%nat.
Proof. cbn. lia. Qed.

(** The main case of the basis builder's normalisation: a raw design array
    of shape [(k, n, 1)] with [k] and [n] other than 1 becomes, squeezed
    and transposed, an [n] by [k] matrix, whose column [j] is divided by
    the factor [j]. *)
Lemma basis_main_case (k n : nat) (d nf : list fval) :
  k ≠ 1%nat → n ≠ 1%nat → length d = (k * n)%nat → length nf = k →
  ∃ r,
    broadcast2 fdiv (transpose (squeeze (mkArr [k; n; 1%nat] d))) (arr1 nf)
    = Ok r
    ∧ shape r = [n; k]
    ∧ wf_array r
    ∧ (∀ i j, (i < n)%nat → (j < k)%nat →
         entry2 r i j = fdiv (d !!! (j * n + i)%nat) (nf !!! j))
    ∧ (Forall is_finite d →
       Forall (λ v, v = PInf ∨ ∃ x, x ≠ 0 ∧ v = Fin x) nf →
       Forall is_finite (data r)).
Proof.
  intros Hk Hn Hd Hnf. rewrite squeeze_main_case by done.
  unfold transpose. cbn [shape data].
  change (reverse [k; n]) with [n; k].
  rewrite broadcast2_rows by done.
  eexists. split; [reflexivity|]. split; [reflexivity|].
  assert (Hentry : ∀ i j, (i < n)%nat → (j < k)%nat →
            ((λ idx : list nat, d !!! ravel [k; n] (reverse idx))
               <$> indices [n; k]) !!! ravel [n; k] [i; j]
            = d !!! (j * n + i)%nat).
  { intros i j Hi Hj. apply list_lookup_total_correct.
    rewrite lookup_fmap_indices by (by apply valid_index2).
    change (reverse [i; j]) with [j; i]. by rewrite ravel2. }
  split; [|split].
  - unfold wf_array. cbn [shape data]. by rewrite length_fmap, length_indices.
  - intros i j Hi Hj. unfold entry2. cbn [shape data].
    apply list_lookup_total_correct. rewrite <- (ravel2 n k i j).
    rewrite lookup_fmap_indices by (by apply valid_index2).
    cbn beta. by rewrite Hentry.
  - intros Hfin Hfac. cbn [data]. apply Forall_fmap.
    eapply Forall_impl; [apply indices_valid|].
    intros idx Hidx. unfold compose.
    inversion Hidx as [|i ? idx' ? Hi Hidx']; subst.
    inversion Hidx' as [|j ? idx'' ? Hj Hidx'']; subst.
    inversion Hidx''; subst.
    rewrite Hentry by done. apply fdiv_norm_factor_finite.
    + apply (Forall_lookup_total_1 _ _ _ Hfin). nia.
    + change ([i; j] !!! 1%nat) with j.
      by apply (Forall_lookup_total_1 _ _ _ Hfac).
Qed.

(** Whatever [k] and [n] are, the division by the factors broadcasts. *)
Lemma basis_division_broadcasts (k n : nat) (d nf : list fval) :
  length nf = k →
  ∃ r, broadcast2 fdiv (transpose (squeeze (mkArr [k; n; 1%nat] d)))
                  (arr1 nf) = Ok r.
Proof.
  intros Hnf. unfold broadcast2, transpose, squeeze, arr1. cbn [shape data].
  rewrite Hnf.
  enough (Hsome : is_Some (broadcast_shape
                             (reverse (filter (λ d0, d0 ≠ 1%nat) [k; n; 1%nat]))
                             [k])).
  { destruct Hsome as [s ->]. eauto. }
  assert (H1 : ¬ (1 ≠ 1)%nat) by (intros H; by apply H).
  unfold broadcast_shape.
  destruct (decide (k = 1%nat)) as [->|Hk], (decide (n = 1%nat)) as [->|Hn].
  - rewrite !filter_cons_False by done. cbn. eauto.
  - rewrite filter_cons_False by done.
    rewrite filter_cons_True by done. rewrite filter_cons_False by done.
    cbn. rewrite decide_False by done. rewrite decide_False by done.
    rewrite decide_True by done. eauto.
  - rewrite filter_cons_True by done.
    rewrite !filter_cons_False by done.
    cbn. rewrite decide_True by done. eauto.
  - rewrite !filter_cons_True by done. rewrite filter_cons_False by done.
    cbn. rewrite decide_True by done. eauto.
Qed.

(** ** [init_basis_and_penalty] *)

(** the padded knots for a non-negative degree *)
Lemma init_basis_and_penalty_unfold `{Skfda} (knots : list R)
    (degree n_grid_points diffMatrixOrder : Z) (epsilon : R) :
  (0 ≤ degree)%Z → (0 ≤ n_grid_points)%Z →
  bspline_basis_init knots (degree + 1) = Ok () →
  init_basis_and_penalty knots degree n_grid_points diffMatrixOrder epsilon
  = (basis ← broadcast2 fdiv
       (transpose
          (squeeze (to_grid_data_matrix knots (degree + 1)
                      (linspace 0 1 n_grid_points))))
       (arr1 (norm_factor
                (replicate (Z.to_nat degree) 0 ++ knots
                   ++ replicate (Z.to_nat degree) 1) degree));
     p ← l2_penalty_matrix knots (degree + 1) diffMatrixOrder;
     p ← penalty_rescaled p;
     p ← penalty_stabilised epsilon p;
     Ok (basis, p)).
Proof.
  intros Hd Hn Hinit. unfold init_basis_and_penalty.
  rewrite Hinit, knots_with_boundary_ok by done.
  rewrite decide_False by lia. reflexivity.
Qed.

(** A positive entry makes the maximum positive. *)
Lemma penalty_pipeline_positive (raw : ndarray fval) (k : nat) (eps : R) :
  finite_square k raw →
  (∃ i j, (i < k)%nat ∧ (j < k)%nat ∧ 0 < matrix_of raw i j) →
  ∃ m scaled p,
    0 < m
    ∧ penalty_rescaled raw = Ok scaled
    ∧ penalty_stabilised eps scaled = Ok p
    ∧ finite_square k scaled ∧ finite_square k p
    ∧ np_max scaled = Ok (Fin 1)
    ∧ (∀ i j, (i < k)%nat → (j < k)%nat →
         matrix_of scaled i j = matrix_of raw i j / m)
    ∧ (∀ i j, (i < k)%nat → (j < k)%nat →
         matrix_of p i j
         = matrix_of raw i j / m + eps * (if decide (i = j) then 1 else 0)).
Proof.
  intros Hsq (i & j & Hi & Hj & Hpos).
  destruct (penalty_pipeline raw k eps Hsq ltac:(lia)) as (m & _ & Hup & Hrest).
  assert (Hm : 0 < m) by (specialize (Hup i j Hi Hj); lra).
  destruct (Hrest Hm) as (scaled & p & Hprops).
  exists m, scaled, p. split; [exact Hm|exact Hprops].
Qed.

(** C7. Let scikit-fda return, for the [k = n_knots + degree - 1] basis
    functions, a raw penalty that is a [k] by [k] array of finite entries,
    symmetric, positive semi-definite and with a positive entry (the Gram
    matrix of the derivatives of the basis functions, not all zero).  Then
    [init_basis_and_penalty] returns a penalty matrix that is [k] by [k]
    and symmetric; before the stabiliser is added its maximum entry is 1;
    and with [epsilon > 0] times the identity added it is positive
    definite. *)
Theorem penalty_matrix_symmetric_positive_definite `{Skfda}
    (knots : list R) (degree n_grid_points diffMatrixOrder : Z)
    (epsilon : R) (raw : ndarray fval) (k : nat) :
  (0 ≤ degree)%Z → (0 ≤ n_grid_points)%Z →
  Z.of_nat k = (Z.of_nat (length knots) + degree - 1)%Z →
  bspline_basis_init knots (degree + 1) = Ok () →
  shape (to_grid_data_matrix knots (degree + 1)
           (linspace 0 1 n_grid_points))
  = [k; Z.to_nat n_grid_points; 1%nat] →
  l2_penalty_matrix knots (degree + 1) diffMatrixOrder = Ok raw →
  finite_square k raw →
  symmetric k (matrix_of raw) →
  pos_semidef k (matrix_of raw) →
  (∃ i j, (i < k)%nat ∧ (j < k)%nat ∧ 0 < matrix_of raw i j) →
  0 < epsilon →
  ∃ basis scaled p,
    init_basis_and_penalty knots degree n_grid_points diffMatrixOrder epsilon
    = Ok (basis, p)
    ∧ penalty_rescaled raw = Ok scaled
    ∧ penalty_stabilised epsilon scaled = Ok p
    ∧ np_max scaled = Ok (Fin 1)
    ∧ symmetric k (matrix_of scaled)
    ∧ shape p = [k; k]
    ∧ Forall is_finite (data p)
    ∧ symmetric k (matrix_of p)
    ∧ pos_def k (matrix_of p).
Proof.
  intros Hd Hn Hk Hinit Hshape Hraw Hsq Hsym Hpsd Hpos Heps.
  destruct (penalty_pipeline_positive raw k epsilon Hsq Hpos)
    as (m & scaled & p & Hm & Hsc & Hp & Hsq1 & Hsq2 & Hmax & Hes & Hep).
  destruct (to_grid_data_matrix knots (degree + 1)
              (linspace 0 1 n_grid_points)) as [s d] eqn:Hdm.
  cbn [shape] in Hshape. subst s.
  destruct (basis_division_broadcasts k (Z.to_nat n_grid_points) d
              (norm_factor (replicate (Z.to_nat degree) 0 ++ knots
                              ++ replicate (Z.to_nat degree) 1) degree))
    as [basis Hbasis].
  { rewrite length_norm_factor by done. lia. }
  exists basis, scaled, p.
  split.
  { rewrite init_basis_and_penalty_unfold by done.
    rewrite Hdm, Hbasis, Hraw. cbn [mbind result_bind].
    rewrite Hsc. cbn [mbind result_bind]. by rewrite Hp. }
  split; [exact Hsc|]. split; [exact Hp|]. split; [exact Hmax|].
  split; [|split; [by destruct Hsq2|split; [by destruct Hsq2 as (_ & _ & ?)|]]].
  - intros i j Hi Hj. rewrite !Hes by done. by rewrite Hsym.
  - split.
    + intros i j Hi Hj. rewrite !Hep by done. rewrite (Hsym i j) by done.
      by destruct (decide (i = j)) as [->|]; [rewrite decide_True
                                             |rewrite decide_False].
    + intros x Hx.
      rewrite (quad_form_ext k _
                 (λ i j, matrix_of raw i j / m
                         + epsilon * (if decide (i = j) then 1 else 0)))
        by exact Hep.
      rewrite quad_form_rescaled_stabilised.
      pose proof (Hpsd x) as Hq. pose proof (sum_squares_pos k x Hx) as Hs.
      assert (0 <= quad_form k (matrix_of raw) x / m).
      { unfold Rdiv. apply Rmult_le_pos; [exact Hq|].
        left. by apply Rinv_0_lt_compat. }
      assert (0 < epsilon * sum_n k (λ i, x i * x i))
        by (by apply Rmult_lt_0_compat).
      lra.
Qed.

Lemma default_epsilon_pos : 0 < default_epsilon.
Proof.
  unfold default_epsilon. apply Rdiv_lt_0_compat; [lra|]. apply pow_lt. lra.
Qed.

Lemma penalty_matrix_symmetric_positive_definite_witness :
  ∃ basis scaled p,
    @init_basis_and_penalty skfda_unit_interval [0; 1] 1 3 1 default_epsilon
    = Ok (basis, p)
    ∧ penalty_rescaled (mkArr [2; 2]%nat [Fin 1; Fin (-1); Fin (-1); Fin 1])
      = Ok scaled
    ∧ penalty_stabilised default_epsilon scaled = Ok p
    ∧ np_max scaled = Ok (Fin 1)
    ∧ symmetric 2 (matrix_of scaled)
    ∧ shape p = [2; 2]%nat
    ∧ Forall is_finite (data p)
    ∧ symmetric 2 (matrix_of p)
    ∧ pos_def 2 (matrix_of p).
Proof.
  apply (@penalty_matrix_symmetric_positive_definite skfda_unit_interval
           [0; 1] 1 3 1 default_epsilon
           (mkArr [2; 2]%nat [Fin 1; Fin (-1); Fin (-1); Fin 1]) 2).
  - lia.
  - lia.
  - reflexivity.
  - reflexivity.
  - reflexivity.
  - reflexivity.
  - split; [reflexivity|]. split; [reflexivity|].
    repeat (constructor; [exact I|]). constructor.
  - intros [|[|i]] [|[|j]] Hi Hj; try lia; reflexivity.
  - intros x. unfold quad_form, sum_n, matrix_of, entry2. cbn.
    pose proof (Rle_0_sqr (x 0%nat - x 1%nat)) as Hsq.
    unfold Rsqr in Hsq. nra.
  - exists 0%nat, 0%nat. split; [lia|]. split; [lia|].
    unfold matrix_of, entry2. cbn. lra.
  - exact default_epsilon_pos.
Defined.

(** With a single basis function the squeeze drops the axis of the basis
    functions as well: the result is one-dimensional, each entry divided by
    the single factor. *)
Lemma basis_single_column_case (n : nat) (d nf : list fval) :
  n ≠ 1%nat → length nf = 1%nat → length d = n →
  broadcast2 fdiv (transpose (squeeze (mkArr [1%nat; n; 1%nat] d)))
             (arr1 nf)
  = Ok (mkArr [n] ((λ x, fdiv x (nf !!! 0%nat)) <$> d)).
Proof.
  intros Hn Hnf Hd. unfold broadcast2, transpose, squeeze, arr1.
  cbn [shape data]. rewrite Hnf.
  assert (H1 : ¬ (1 ≠ 1)%nat) by (intros H; by apply H).
  rewrite filter_cons_False by done. rewrite filter_cons_True by done.
  rewrite filter_cons_False by done.
  change (filter (λ d0 : nat, d0 ≠ 1%nat) []) with (@nil nat).
  change (reverse [n]) with [n].
  assert (Hs : broadcast_shape [n] [1%nat] = Some [n]).
  { unfold broadcast_shape. cbn. rewrite decide_False by done.
    rewrite decide_False by done. by rewrite decide_True. }
  rewrite Hs. do 2 f_equal.
  transitivity ((λ idx, fdiv (d !!! ravel [n] idx) (nf !!! 0%nat))
                  <$> indices [n]).
  - clear Hd. apply Forall_fmap_ext_1.
    eapply Forall_impl; [apply indices_valid|].
    intros idx Hidx. cbn beta in *.
    rewrite bcast_offset_same by done.
    inversion Hidx as [|i ? idx' ? Hi Hidx']; subst.
    inversion Hidx'; subst. f_equal.
    apply list_lookup_total_correct.
    by rewrite lookup_fmap_indices by done.
  - rewrite (fmap_ravel_indices (λ k, fdiv (d !!! k) (nf !!! 0%nat)) [n]).
    change (size_of [n]) with (n * 1)%nat. rewrite Nat.mul_1_r, <- Hd.
    apply (fmap_lookup_total_seq (λ x, fdiv x (nf !!! 0%nat))).
Qed.

Lemma norm_factor_unit_knots : norm_factor [0; 1] 0 = [Fin 1].
Proof.
  unfold norm_factor, slice_from, slice_to, slice_index.
  cbn [length]. repeat case_decide; try lia.
  change (Z.to_nat (0 + 1)) with 1%nat.
  change (Z.to_nat (Z.of_nat 2 - 0 - 1)) with 1%nat.
  cbn [drop take zip_with fmap list_fmap].
  rewrite decide_False.
  - do 2 f_equal. change (IZR (0 + 1)) with 1. field.
  - change (IZR (0 + 1)) with 1. intros [= Hz]. lra.
Qed.

(** The run on the valid knots [[0, 1]] with degree 0, three grid points
    and differential order 0: one basis function, the constant 1. *)
Lemma init_basis_and_penalty_single_column :
  ∃ p,
    @init_basis_and_penalty skfda_unit_interval [0; 1] 0 3 0 default_epsilon
    = Ok (mkArr [3%nat] [Fin 1; Fin 1; Fin 1], p).
Proof.
  destruct (penalty_pipeline_positive (mkArr [1; 1]%nat [Fin 1]) 1
              default_epsilon)
    as (m & scaled & p & _ & Hsc & Hp & _).
  { split; [reflexivity|]. split; [reflexivity|].
    constructor; [exact I|constructor]. }
  { exists 0%nat, 0%nat. split; [lia|]. split; [lia|].
    unfold matrix_of, entry2. cbn. lra. }
  exists p.
  rewrite (@init_basis_and_penalty_unfold skfda_unit_interval)
    by (try lia; reflexivity).
  cbn [to_grid_data_matrix l2_penalty_matrix skfda_unit_interval].
  rewrite !decide_True by lia.
  change (replicate (Z.to_nat 0) 0 ++ [0; 1] ++ replicate (Z.to_nat 0) 1)
    with [0; 1].
  rewrite norm_factor_unit_knots, length_linspace.
  change (Z.to_nat 3) with 3%nat.
  rewrite basis_single_column_case;
    [|lia|reflexivity|by rewrite length_fmap, length_linspace].
  cbn [mbind result_bind]. rewrite Hsc. cbn [mbind result_bind].
  rewrite Hp. unfold linspace. change (Z.to_nat 3) with 3%nat.
  cbn [mbind result_bind fmap list_fmap seq app lookup_total
       list_lookup_total].
  rewrite !fdiv_fin by lra. replace (1 / 1) with 1 by field. reflexivity.
Qed.

(** C6 (at the failing input). On the valid knots [[0, 1]] with degree 0,
    three grid points and differential order 0, there is one basis function
    and [init_basis_and_penalty] returns a basis of shape [(3,)]: a
    one-dimensional array, not the matrix of shape
    [(3, n_knots + degree - 1) = (3, 1)]. *)
Theorem basis_matrix_single_column_is_one_dimensional :
  ∃ basis p,
    @init_basis_and_penalty skfda_unit_interval [0; 1] 0 3 0 default_epsilon
    = Ok (basis, p)
    ∧ basis = mkArr [3%nat] [Fin 1; Fin 1; Fin 1]
    ∧ shape basis
      ≠ [3%nat; Z.to_nat (Z.of_nat (length [0; 1]) + 0 - 1)].
Proof.
  destruct init_basis_and_penalty_single_column as [p Hrun].
  exists (mkArr [3%nat] [Fin 1; Fin 1; Fin 1]), p.
  split; [exact Hrun|]. split; [reflexivity|]. discriminate.
Qed.

(** In the main case, with more than one basis function and more than one
    grid point, and a raw design array of finite entries, the basis is the
    [n] by [k] matrix of finite entries; a column whose padded-knot window
    has zero span is zero. *)
Lemma basis_matrix_main_case `{Skfda}
    (knots : list R) (degree n_grid_points diffMatrixOrder : Z)
    (epsilon : R) (raw : ndarray fval) (k n : nat) :
  (0 ≤ degree)%Z → n = Z.to_nat n_grid_points → (0 ≤ n_grid_points)%Z →
  Z.of_nat k = (Z.of_nat (length knots) + degree - 1)%Z →
  k ≠ 1%nat → n ≠ 1%nat →
  bspline_basis_init knots (degree + 1) = Ok () →
  let dm := to_grid_data_matrix knots (degree + 1)
              (linspace 0 1 n_grid_points) in
  shape dm = [k; n; 1%nat] → wf_array dm → Forall is_finite (data dm) →
  l2_penalty_matrix knots (degree + 1) diffMatrixOrder = Ok raw →
  finite_square k raw →
  (∃ i j, (i < k)%nat ∧ (j < k)%nat ∧ 0 < matrix_of raw i j) →
  ∃ basis p,
    init_basis_and_penalty knots degree n_grid_points diffMatrixOrder epsilon
    = Ok (basis, p)
    ∧ shape basis = [n; k]
    ∧ Forall is_finite (data basis)
    ∧ ∀ j, (j < k)%nat →
        zero_span (replicate (Z.to_nat degree) 0 ++ knots
                     ++ replicate (Z.to_nat degree) 1) degree j →
        ∀ i, (i < n)%nat → entry2 basis i j = Fin 0.
Proof.
  intros Hd Hnn Hn Hk Hk1 Hn1 Hinit dm Hshape Hwf Hfin Hraw Hsq Hpos.
  destruct (penalty_pipeline_positive raw k epsilon Hsq Hpos)
    as (m & scaled & p & _ & Hsc & Hp & _).
  set (kwb := replicate (Z.to_nat degree) 0 ++ knots
                ++ replicate (Z.to_nat degree) 1).
  assert (Hlen : length (norm_factor kwb degree) = k).
  { unfold kwb. rewrite length_norm_factor by done. lia. }
  destruct dm as [s d] eqn:Hdm. cbn [shape data] in *. subst s.
  unfold wf_array in Hwf. cbn [shape data size_of foldr] in Hwf.
  destruct (basis_main_case k n d (norm_factor kwb degree) Hk1 Hn1
              ltac:(lia) Hlen) as (basis & Hbasis & Hbs & _ & Hentry & Hf).
  exists basis, p. split; [|split; [exact Hbs|split]].
  - rewrite init_basis_and_penalty_unfold by done.
    fold kwb. unfold dm in Hdm. rewrite Hdm, Hbasis, Hraw.
    cbn [mbind result_bind]. rewrite Hsc. cbn [mbind result_bind].
    by rewrite Hp.
  - apply Hf; [exact Hfin|].
    apply (Forall_lookup_total_2 (λ v, v = PInf ∨ ∃ x, x ≠ 0 ∧ v = Fin x)).
    intros j Hj.
    destruct (norm_factor_entry kwb degree j Hd Hj)
      as [[_ ->]|[_ (r & Hr & ->)]]; eauto.
  - intros j Hj Hz i Hi. rewrite Hentry by done.
    destruct (norm_factor_entry kwb degree j Hd ltac:(lia))
      as [[_ ->]|[Hnz _]]; [|done].
    pose proof (Forall_lookup_total_1 _ _ (j * n + i) Hfin ltac:(nia)) as Hx.
    by destruct (d !!! (j * n + i)%nat).
Qed.

(** * Further properties of the code *)

(** ** [Periodogram.highpass]: order, threshold and composition *)

(** selecting an array by the mask computed from it is a filter *)
Lemma mask_index_filter (P : R → Prop) `{!∀ x, Decision (P x)} (fs : list R) :
  mask_index fs ((λ f, bool_decide (P f)) <$> fs) = Ok (filter P fs).
Proof.
  unfold mask_index. rewrite length_fmap, decide_True by done. f_equal.
  induction fs as [|f fs IH]; [done|].
  rewrite filter_cons, <- IH. cbn.
  destruct (decide (P f)) as [Hp|Hp].
  - by rewrite bool_decide_eq_true_2.
  - by rewrite bool_decide_eq_false_2.
Qed.

(** selecting a second array of the same length by that mask keeps the
    entries at the positions of the kept frequencies *)
Lemma mask_index_filter_snd (P : R → Prop) `{!∀ x, Decision (P x)}
    (fs pw : list R) :
  length pw = length fs →
  mask_index pw ((λ f, bool_decide (P f)) <$> fs)
  = Ok ((filter (λ fp, P fp.1) (zip fs pw)).*2).
Proof.
  intros Hlen. unfold mask_index. rewrite length_fmap, decide_True by done.
  f_equal. revert pw Hlen.
  induction fs as [|f fs IH]; intros [|q pw] Hlen; simplify_eq/=; [done|].
  rewrite filter_cons, IH by done. cbn [fst].
  destruct (decide (P f)) as [Hp|Hp].
  - by rewrite bool_decide_eq_true_2.
  - by rewrite bool_decide_eq_false_2.
Qed.

Lemma filter_zip_fst (P : R → Prop) `{!∀ x, Decision (P x)} (fs pw : list R) :
  length pw = length fs →
  (filter (λ fp, P fp.1) (zip fs pw)).*1 = filter P fs.
Proof.
  revert pw. induction fs as [|f fs IH]; intros [|q pw] Hlen;
    simplify_eq/=; [done|].
  rewrite !filter_cons. cbn [fst].
  destruct (decide (P f)); cbn; by rewrite IH.
Qed.

(** the outcome of [highpass] on a periodogram with as many powers as
    frequencies *)
Lemma highpass_filter (σ : gmap loc Periodogram.t) (self : loc)
    (p : Periodogram.t) (min_freq : R) :
  σ !! self = Some p →
  length (Periodogram.power p) = length (Periodogram.freqs p) →
  let kept :=
    filter (λ fp, min_freq < fp.1)
           (zip (Periodogram.freqs p) (Periodogram.power p)) in
  highpass self min_freq σ
  = (Ok (fresh (dom σ)),
     <[fresh (dom σ) := Periodogram.mk (kept.*1) (kept.*2) true]> σ).
Proof.
  intros Hself Hlen kept. unfold highpass. rewrite Hself.
  rewrite (mask_index_filter (λ f, min_freq < f)).
  rewrite (mask_index_filter_snd (λ f, min_freq < f)) by done.
  unfold kept. by rewrite (filter_zip_fst (λ f, min_freq < f)).
Qed.

Lemma sorted_lt_filter (P : R → Prop) `{!∀ x, Decision (P x)} (l : list R) :
  Sorted Rlt l → Sorted Rlt (filter P l).
Proof.
  intros Hs. apply Sorted_StronglySorted in Hs; [|apply _].
  apply StronglySorted_Sorted.
  induction Hs as [|x l Hs IH Hall]; [constructor|].
  rewrite filter_cons. destruct (decide (P x)); [|done].
  constructor; [done|].
  apply Forall_forall. intros y Hy. apply list_elem_of_filter in Hy as [_ Hy].
  rewrite Forall_forall in Hall. by apply Hall.
Qed.

(** X1. On a periodogram with as many powers as frequencies, [highpass]
    keeps exactly the frequencies above the threshold, in their order: the
    kept frequencies are the filtered list, all of them exceed the
    threshold, frequencies and powers are subsequences of the originals of
    one common length, and increasing frequencies stay increasing. *)
Theorem highpass_keeps_order_above_threshold (σ : gmap loc Periodogram.t)
    (self : loc) (p : Periodogram.t) (min_freq : R) :
  σ !! self = Some p →
  length (Periodogram.power p) = length (Periodogram.freqs p) →
  ∃ l q σ',
    highpass self min_freq σ = (Ok l, σ')
    ∧ σ' !! l = Some q
    ∧ Periodogram.freqs q = filter (λ f, min_freq < f) (Periodogram.freqs p)
    ∧ Forall (λ f, min_freq < f) (Periodogram.freqs q)
    ∧ sublist (Periodogram.freqs q) (Periodogram.freqs p)
    ∧ sublist (Periodogram.power q) (Periodogram.power p)
    ∧ length (Periodogram.power q) = length (Periodogram.freqs q)
    ∧ (Periodogram.n q ≤ Periodogram.n p)%Z
    ∧ (Sorted Rlt (Periodogram.freqs p) → Sorted Rlt (Periodogram.freqs q)).
Proof.
  intros Hself Hlen.
  pose proof (highpass_filter σ self p min_freq Hself Hlen) as Hrun.
  cbv zeta in Hrun.
  set (kept := filter (λ fp : R * R, min_freq < fp.1)
                      (zip (Periodogram.freqs p) (Periodogram.power p)))
    in Hrun.
  assert (Hfs : kept.*1 = filter (λ f, min_freq < f) (Periodogram.freqs p)).
  { unfold kept. by rewrite (filter_zip_fst (λ f, min_freq < f)). }
  eexists _, _, _. split; [exact Hrun|].
  split; [by rewrite lookup_insert_eq|]. cbn.
  split; [exact Hfs|].
  split.
  { rewrite Hfs. apply Forall_forall. intros f Hf.
    by apply list_elem_of_filter in Hf as [Hf _]. }
  split; [rewrite Hfs; apply sublist_filter|].
  split.
  { transitivity ((zip (Periodogram.freqs p) (Periodogram.power p)).*2).
    - apply fmap_sublist, sublist_filter.
    - rewrite snd_zip by lia. done. }
  split; [by rewrite !length_fmap|].
  split.
  { unfold Periodogram.n. cbn. rewrite Hfs.
    pose proof (length_filter (λ f, min_freq < f) (Periodogram.freqs p)). lia. }
  intros Hs. rewrite Hfs. by apply sorted_lt_filter.
Qed.

Lemma highpass_keeps_order_above_threshold_witness :
  ∃ l q σ',
    highpass 1%positive 1
      {[ 1%positive := Periodogram.mk [1; 2; 3] [5; 6; 7] false ]}
    = (Ok l, σ')
    ∧ σ' !! l = Some q
    ∧ Forall (λ f, 1 < f) (Periodogram.freqs q).
Proof.
  destruct (highpass_keeps_order_above_threshold
              {[ 1%positive := Periodogram.mk [1; 2; 3] [5; 6; 7] false ]}
              1%positive (Periodogram.mk [1; 2; 3] [5; 6; 7] false) 1
              (lookup_singleton_eq _ _) eq_refl)
    as (l & q & σ' & Hrun & Hl & _ & Hall & _).
  exists l, q, σ'. split; [exact Hrun|]. split; [exact Hl|exact Hall].
Defined.

(** X2. Two high-pass filters in a row keep what a single filter at the
    larger threshold keeps: the instance returned by filtering at [a] and
    then at [b] has the frequencies and powers of the instance returned by
    filtering at [max a b]. *)
Theorem highpass_twice_is_highpass_max (σ : gmap loc Periodogram.t)
    (self : loc) (p : Periodogram.t) (a b : R) :
  σ !! self = Some p →
  length (Periodogram.power p) = length (Periodogram.freqs p) →
  ∃ l1 σ1 l2 σ2 q2 l3 σ3 q3,
    highpass self a σ = (Ok l1, σ1)
    ∧ highpass l1 b σ1 = (Ok l2, σ2)
    ∧ σ2 !! l2 = Some q2
    ∧ highpass self (Rmax a b) σ = (Ok l3, σ3)
    ∧ σ3 !! l3 = Some q3
    ∧ Periodogram.freqs q2 = Periodogram.freqs q3
    ∧ Periodogram.power q2 = Periodogram.power q3.
Proof.
  intros Hself Hlen.
  pose proof (highpass_filter σ self p a Hself Hlen) as H1. cbv zeta in H1.
  set (k1 := filter (λ fp : R * R, a < fp.1)
                    (zip (Periodogram.freqs p) (Periodogram.power p))) in H1.
  set (l1 := fresh (dom σ)) in H1.
  set (q1 := Periodogram.mk (k1.*1) (k1.*2) true) in H1.
  set (σ1 := <[l1 := q1]> σ) in H1.
  assert (Hl1 : σ1 !! l1 = Some q1) by (unfold σ1; by rewrite lookup_insert_eq).
  assert (Hlen1 : length (Periodogram.power q1) = length (Periodogram.freqs q1))
    by (cbn; by rewrite !length_fmap).
  pose proof (highpass_filter σ1 l1 q1 b Hl1 Hlen1) as H2. cbv zeta in H2.
  pose proof (highpass_filter σ self p (Rmax a b) Hself Hlen) as H3.
  cbv zeta in H3.
  eexists _, _, _, _, _, _, _, _.
  split; [exact H1|]. split; [exact H2|].
  split; [by rewrite lookup_insert_eq|].
  split; [exact H3|]. split; [by rewrite lookup_insert_eq|].
  assert (Hz : zip (Periodogram.freqs q1) (Periodogram.power q1) = k1).
  { cbn. apply zip_fst_snd. }
  assert (Hk : filter (λ fp : R * R, b < fp.1) k1
               = filter (λ fp : R * R, Rmax a b < fp.1)
                        (zip (Periodogram.freqs p) (Periodogram.power p))).
  { unfold k1. rewrite list_filter_filter. apply list_filter_iff.
    intros [f w]. cbn. unfold Rmax. destruct (Rle_dec a b); lra. }
  cbn [Periodogram.freqs Periodogram.power]. rewrite Hz, Hk. done.
Qed.

Lemma highpass_twice_is_highpass_max_witness :
  ∃ l1 σ1 l2 σ2 q2,
    highpass 1%positive 1
      {[ 1%positive := Periodogram.mk [1; 2; 3] [5; 6; 7] false ]}
    = (Ok l1, σ1)
    ∧ highpass l1 2 σ1 = (Ok l2, σ2)
    ∧ σ2 !! l2 = Some q2.
Proof.
  destruct (highpass_twice_is_highpass_max
              {[ 1%positive := Periodogram.mk [1; 2; 3] [5; 6; 7] false ]}
              1%positive (Periodogram.mk [1; 2; 3] [5; 6; 7] false) 1 2
              (lookup_singleton_eq _ _) eq_refl)
    as (l1 & σ1 & l2 & σ2 & q2 & _ & _ & _ & H1 & H2 & Hq & _).
  exists l1, σ1, l2, σ2, q2. split; [exact H1|]. split; [exact H2|exact Hq].
Defined.

(** X3. When the periodogram has a different number of powers than
    frequencies, [highpass] raises [IndexError] and the store is left as it
    was: no instance is created. *)
Theorem highpass_length_mismatch (σ : gmap loc Periodogram.t)
    (self : loc) (p : Periodogram.t) (min_freq : R) :
  σ !! self = Some p →
  length (Periodogram.power p) ≠ length (Periodogram.freqs p) →
  highpass self min_freq σ
  = (Err (IndexError "boolean index did not match indexed array"), σ).
Proof.
  intros Hself Hlen. unfold highpass. rewrite Hself.
  rewrite (mask_index_filter (λ f, min_freq < f)).
  unfold mask_index. rewrite length_fmap.
  by rewrite decide_False by congruence.
Qed.

Lemma highpass_length_mismatch_witness :
  highpass 1%positive 1
    {[ 1%positive := Periodogram.mk [1; 2; 3] [5; 6] false ]}
  = (Err (IndexError "boolean index did not match indexed array"),
     {[ 1%positive := Periodogram.mk [1; 2; 3] [5; 6] false ]}).
Proof.
  apply (highpass_length_mismatch
           {[ 1%positive := Periodogram.mk [1; 2; 3] [5; 6] false ]}
           1%positive (Periodogram.mk [1; 2; 3] [5; 6] false) 1
           (lookup_singleton_eq _ _)).
  cbn. lia.
Defined.

(** ** [Periodogram.__mul__] and [Periodogram.__truediv__] *)

(** X4. Multiplying a periodogram by a non-zero number, or by an array of
    non-zero numbers of the length of its power, and dividing the result by
    the same operand gives back the frequencies and the powers.  Both
    operations return an instance marked as not filtered, whatever the
    flag of the periodogram was. *)
Theorem mul_then_truediv_restores_power (p : Periodogram.t)
    (other : operand) :
  ¬ has_zero other →
  (∀ v, other = Vector v → length v = length (Periodogram.power p)) →
  ∃ q,
    __mul__ p other = Ok q
    ∧ Periodogram.freqs q = Periodogram.freqs p
    ∧ length (Periodogram.power q) = length (Periodogram.power p)
    ∧ Periodogram.filtered q = false
    ∧ __truediv__ q other
      = Ok (Periodogram.mk (Periodogram.freqs p) (Periodogram.power p) false).
Proof.
  intros Hz Hlen. unfold __mul__.
  destruct other as [c|v].
  - eexists. split; [reflexivity|]. cbn [Periodogram.freqs Periodogram.power
      Periodogram.filtered]. rewrite length_fmap.
    repeat split. unfold __truediv__. rewrite decide_False by done.
    cbn. do 2 f_equal. cbn in Hz.
    rewrite <- list_fmap_compose.
    rewrite <- (list_fmap_id (Periodogram.power p)) at 2.
    apply list_fmap_ext. intros i x _. cbn. by field.
  - specialize (Hlen v eq_refl). cbn.
    rewrite decide_True by done. cbn.
    eexists. split; [reflexivity|]. cbn. rewrite length_zip_with.
    split; [done|]. split; [lia|]. split; [done|].
    unfold __truediv__. rewrite decide_False by done. cbn.
    rewrite length_zip_with, decide_True by lia. cbn. do 2 f_equal.
    cbn in Hz. revert v Hz Hlen. generalize (Periodogram.power p).
    induction l as [|x l IH]; intros [|c v] Hz Hlen; simplify_eq/=; [done|].
    rewrite not_elem_of_cons in Hz. destruct Hz as [Hc Hz].
    f_equal; [by field|by apply IH].
Qed.

Lemma mul_then_truediv_restores_power_witness :
  ∃ q,
    __mul__ (Periodogram.mk [1; 2] [5; 6] true) (Scalar 2) = Ok q
    ∧ __truediv__ q (Scalar 2) = Ok (Periodogram.mk [1; 2] [5; 6] false).
Proof.
  assert (Hz : ¬ has_zero (Scalar 2)) by (cbn; lra).
  destruct (mul_then_truediv_restores_power
              (Periodogram.mk [1; 2] [5; 6] true) (Scalar 2) Hz
              ltac:(intros v Hv; discriminate Hv))
    as (q & Hm & _ & _ & _ & Hd).
  exists q. split; [exact Hm|exact Hd].
Defined.

(** ** [compute_welsch_psd] *)

(** X5. For a non-zero [alpha] and as many frequencies as powers,
    [compute_welsch_psd] returns one value per power, [w / (1 + (f /
    alpha)^2)]: a non-negative power is never raised and never made
    negative, and at frequency zero it is returned as it is. *)
Theorem compute_welsch_psd_damps (freqs power : list R) (alpha : R) :
  alpha ≠ 0 →
  length freqs = length power →
  ∃ out,
    compute_welsch_psd freqs power alpha = Ok out
    ∧ length out = length power
    ∧ ∀ i f w, freqs !! i = Some f → power !! i = Some w →
        out !! i = Some (w / (1 + (f / alpha) ^ 2))
        ∧ (0 <= w → 0 <= w / (1 + (f / alpha) ^ 2) <= w)
        ∧ (f = 0 → w / (1 + (f / alpha) ^ 2) = w).
Proof.
  intros Ha Hlen. unfold compute_welsch_psd. rewrite decide_False by done.
  cbn. rewrite !length_fmap, decide_True by done.
  eexists. split; [reflexivity|].
  split; [rewrite length_zip_with, !length_fmap; lia|].
  intros i f w Hf Hw.
  assert (Hd : 1 <= 1 + (f / alpha) ^ 2).
  { pose proof (pow2_ge_0 (f / alpha)). lra. }
  split; [|split].
  - rewrite lookup_zip_with, Hw. cbn.
    by rewrite !list_lookup_fmap, Hf.
  - intros Hw0. split.
    + apply Rmult_le_pos; [done|]. left. apply Rinv_0_lt_compat. lra.
    + apply (Rmult_le_reg_r (1 + (f / alpha) ^ 2)); [lra|].
      unfold Rdiv. rewrite Rmult_assoc, Rinv_l by lra. nra.
  - intros ->. unfold Rdiv at 2. rewrite Rmult_0_l. cbn. by field.
Qed.

Lemma compute_welsch_psd_damps_witness :
  ∃ out, compute_welsch_psd [0; 2] [3; 4] 2 = Ok out
         ∧ length out = 2%nat.
Proof.
  destruct (compute_welsch_psd_damps [0; 2] [3; 4] 2 ltac:(lra) eq_refl)
    as (out & Hrun & Hl & _).
  exists out. split; [exact Hrun|exact Hl].
Defined.

(** ** [Timeseries.standardise] *)

Lemma np_sum_affine (m s : R) (a : list R) :
  s ≠ 0 →
  np_sum ((λ v, (v - m) / s) <$> a) = (np_sum a - INR (length a) * m) / s.
Proof.
  intros Hs. induction a as [|x a IH].
  - cbn. by field.
  - rewrite fmap_cons, !np_sum_cons, IH.
    change (length (x :: a)) with (S (length a)). rewrite S_INR. by field.
Qed.

Lemma INR_length_pos {A} (a : list A) : a ≠ [] → 0 < INR (length a).
Proof.
  intros Ha. destruct a as [|x a]; [done|].
  change (length (x :: a)) with (S (length a)). rewrite S_INR.
  pose proof (pos_INR (length a)). lra.
Qed.

Lemma jnp_mean_standardised (a : list R) (s : R) :
  a ≠ [] → s ≠ 0 →
  jnp_mean ((λ v, (v - jnp_mean a) / s) <$> a) = 0.
Proof.
  intros Ha Hs. pose proof (INR_length_pos a Ha) as Hn.
  unfold jnp_mean at 1. rewrite np_sum_affine, length_fmap by done.
  unfold jnp_mean. field. split; lra.
Qed.

Lemma variance_nonneg (a : list R) :
  0 <= jnp_mean ((λ x, (x - jnp_mean a) ^ 2) <$> a).
Proof.
  unfold jnp_mean at 1. rewrite length_fmap.
  apply Rmult_le_pos.
  - apply np_sum_nonneg. apply Forall_fmap, Forall_forall. intros x _.
    cbn. apply pow2_ge_0.
  - destruct a as [|x a]; [cbn; rewrite Rinv_0; lra|].
    left. apply Rinv_0_lt_compat. by apply INR_length_pos.
Qed.

Lemma jnp_std_standardised (a : list R) :
  jnp_std a ≠ 0 →
  jnp_std ((λ v, (v - jnp_mean a) / jnp_std a) <$> a) = 1.
Proof.
  intros Hs.
  assert (Ha : a ≠ []).
  { intros ->. apply Hs. unfold jnp_std, jnp_mean. cbn.
    unfold Rdiv. rewrite Rmult_0_l. apply sqrt_0. }
  pose proof (INR_length_pos a Ha) as Hn.
  unfold jnp_std at 1. rewrite jnp_mean_standardised by done.
  rewrite <- list_fmap_compose.
  set (V := jnp_mean ((λ x, (x - jnp_mean a) ^ 2) <$> a)).
  assert (HV : jnp_std a * jnp_std a = V).
  { unfold jnp_std. apply sqrt_sqrt. apply variance_nonneg. }
  assert (Heq : jnp_mean
                  (((λ x : R, (x - 0) ^ 2) ∘ (λ v, (v - jnp_mean a) / jnp_std a))
                     <$> a) = 1).
  { unfold jnp_mean at 1. rewrite length_fmap.
    rewrite (list_fmap_ext _
               (λ v, / (jnp_std a * jnp_std a) * (v - jnp_mean a) ^ 2) a)
      by (intros i x _; unfold compose; cbn; by field).
    rewrite (np_sum_scale (/ (jnp_std a * jnp_std a))
                          (λ v, (v - jnp_mean a) ^ 2) a).
    rewrite HV. assert (V ≠ 0) by (rewrite <- HV; nra).
    assert (HVn : np_sum ((λ v, (v - jnp_mean a) ^ 2) <$> a)
                  = V * INR (length a)).
    { unfold V. unfold jnp_mean at 2. rewrite length_fmap. field. lra. }
    rewrite HVn. field. split; first [done|lra]. }
  rewrite Heq. apply sqrt_1.
Qed.

(** X6. On a series whose standard deviation is not zero, [standardise]
    writes the standard deviation into the [std] field of the instance it
    is called on, leaving its [t] and [y], and returns a new instance with
    the same time axis whose values have mean 0 and standard deviation 1;
    the original values are the new ones times [std] plus the mean. *)
Theorem standardise_zero_mean_unit_std (σ : gmap loc Timeseries.obj)
    (self : loc) (ts : Timeseries.obj) :
  σ !! self = Some ts →
  jnp_std (Timeseries.y ts) ≠ 0 →
  ∃ l new σ',
    standardise self σ = (Ok l, σ')
    ∧ σ !! l = None
    ∧ σ' !! l = Some new
    ∧ σ' !! self
      = Some (Timeseries.mk (Timeseries.t ts) (Timeseries.y ts)
                            (jnp_std (Timeseries.y ts)))
    ∧ Timeseries.t new = Timeseries.t ts
    ∧ Timeseries.std new = jnp_std (Timeseries.y ts)
    ∧ length (Timeseries.y new) = length (Timeseries.y ts)
    ∧ jnp_mean (Timeseries.y new) = 0
    ∧ jnp_std (Timeseries.y new) = 1
    ∧ Timeseries.y ts
      = (λ v, v * Timeseries.std new + jnp_mean (Timeseries.y ts))
          <$> Timeseries.y new.
Proof.
  intros Hself Hs.
  assert (Ha : Timeseries.y ts ≠ []).
  { intros Hnil. apply Hs. rewrite Hnil. unfold jnp_std, jnp_mean. cbn.
    unfold Rdiv. rewrite Rmult_0_l. apply sqrt_0. }
  unfold standardise. rewrite Hself.
  rewrite decide_False by done. rewrite decide_False by done.
  set (s := jnp_std (Timeseries.y ts)) in *.
  set (σ1 := <[self := Timeseries.mk (Timeseries.t ts) (Timeseries.y ts) s]> σ).
  set (l := fresh (dom σ1)).
  assert (Hfresh : σ1 !! l = None).
  { apply not_elem_of_dom. apply is_fresh. }
  assert (Hne : l ≠ self).
  { intros Heq. rewrite Heq in Hfresh. unfold σ1 in Hfresh.
    by rewrite lookup_insert_eq in Hfresh. }
  eexists l, _, _. split; [reflexivity|].
  split.
  { unfold σ1 in Hfresh. by rewrite lookup_insert_ne in Hfresh. }
  split; [by rewrite lookup_insert_eq|].
  split.
  { rewrite lookup_insert_ne by done. unfold σ1. by rewrite lookup_insert_eq. }
  cbn. split; [done|]. split; [done|].
  split; [by rewrite length_fmap|].
  split; [by apply jnp_mean_standardised|].
  split; [by apply jnp_std_standardised|].
  rewrite <- list_fmap_compose.
  rewrite <- (list_fmap_id (Timeseries.y ts)) at 1.
  apply list_fmap_ext. intros i x _. unfold compose. cbn. by field.
Qed.

Lemma jnp_std_two_points : jnp_std [0; 2] = 1.
Proof.
  unfold jnp_std, jnp_mean. cbn.
  replace ((_ + _) / _) with 1 by field. apply sqrt_1.
Qed.

Lemma standardise_zero_mean_unit_std_witness :
  ∃ l new σ',
    standardise 1%positive {[ 1%positive := Timeseries.mk [0; 1] [0; 2] 1 ]}
    = (Ok l, σ')
    ∧ σ' !! l = Some new
    ∧ jnp_mean (Timeseries.y new) = 0
    ∧ jnp_std (Timeseries.y new) = 1.
Proof.
  assert (Hs : jnp_std (Timeseries.y (Timeseries.mk [0; 1] [0; 2] 1)) ≠ 0).
  { cbn [Timeseries.y]. rewrite jnp_std_two_points. lra. }
  destruct (standardise_zero_mean_unit_std
              {[ 1%positive := Timeseries.mk [0; 1] [0; 2] 1 ]}
              1%positive (Timeseries.mk [0; 1] [0; 2] 1)
              (lookup_singleton_eq _ _) Hs)
    as (l & new & σ' & Hrun & _ & Hl & _ & _ & _ & _ & Hm & Hstd & _).
  exists l, new, σ'. repeat split; assumption.
Defined.

(** ** [Timeseries.to_periodogram] and [Periodogram.to_timeseries] *)

Lemma sorted_lt_seq (a m : nat) : Sorted lt (seq a m).
Proof.
  revert a. induction m as [|m IH]; intros a; [constructor|].
  cbn. constructor; [apply IH|].
  destruct m; cbn; constructor. lia.
Qed.

Lemma drop_1_fmap_seq {A} (f : nat → A) (m : nat) :
  drop 1 (f <$> seq 0 (m + 1)) = f <$> seq 1 m.
Proof. replace (m + 1)%nat with (S m) by lia. reflexivity. Qed.

Lemma last_fmap_seq {A} (f : nat → A) (a m : nat) :
  last (f <$> seq a (S m)) = Some (f (a + m)%nat).
Proof. rewrite seq_S, fmap_app. cbn. by rewrite last_snoc. Qed.

Lemma timeseries_fs_nonzero (ts : Timeseries.obj) (fs : R) :
  Timeseries.fs ts = Ok fs → fs ≠ 0.
Proof.
  unfold Timeseries.fs. destruct (Timeseries.t ts) as [|t0 [|t1 rest]]; [done..|].
  case_decide; [done|]. intros [= <-].
  unfold Rdiv. rewrite Rmult_1_l. by apply Rinv_neq_0_compat.
Qed.

(** the outcome of [to_periodogram]: the zero-frequency bin is dropped *)
Lemma to_periodogram_unfold (ts : Timeseries.obj) (fs : R) :
  Timeseries.fs ts = Ok fs →
  Timeseries.y ts ≠ [] →
  let n := length (Timeseries.y ts) in
  to_periodogram ts
  = Ok (Periodogram.mk
          ((λ k, INR k * fs / INR n) <$> seq 1 (n / 2))
          ((λ k, complex_abs (dft_bin (Timeseries.y ts) k) ^ 2 / INR n)
             <$> seq 1 (n / 2))
          false).
Proof.
  intros Hfs Hy n. pose proof (timeseries_fs_nonzero ts fs Hfs) as Hfs0.
  pose proof (INR_length_pos _ Hy) as Hn.
  unfold to_periodogram. rewrite Hfs. cbn.
  rewrite decide_False by done. unfold rfftfreq, rfft.
  rewrite <- list_fmap_compose, !drop_1_fmap_seq. do 2 f_equal.
  apply list_fmap_ext. intros i k _. fold n in Hn |- *. field. split; lra.
Qed.

(** X7. When the sampling frequency [fs] of a series is defined and the
    series has [n >= 1] values, [to_periodogram] returns [n // 2]
    frequencies and as many powers: frequency number [k] (from 0) is
    [(k + 1) fs / n], so the zero frequency is left out; no power is
    negative; for a positive [fs] the frequencies are positive and strictly
    increasing.  The instance is not marked as filtered. *)
Theorem to_periodogram_frequency_grid (ts : Timeseries.obj) (fs : R) :
  Timeseries.fs ts = Ok fs →
  Timeseries.y ts ≠ [] →
  let n := length (Timeseries.y ts) in
  ∃ p,
    to_periodogram ts = Ok p
    ∧ Periodogram.filtered p = false
    ∧ length (Periodogram.freqs p) = (n / 2)%nat
    ∧ length (Periodogram.power p) = (n / 2)%nat
    ∧ (∀ k, (k < n / 2)%nat →
         Periodogram.freqs p !! k = Some (INR (k + 1) * fs / INR n))
    ∧ Forall (λ w, 0 <= w) (Periodogram.power p)
    ∧ (0 < fs →
       Forall (λ f, 0 < f) (Periodogram.freqs p)
       ∧ Sorted Rlt (Periodogram.freqs p)).
Proof.
  intros Hfs Hy n. pose proof (INR_length_pos _ Hy) as Hn. fold n in Hn.
  eexists. split; [by apply to_periodogram_unfold|].
  cbn [Periodogram.freqs Periodogram.power Periodogram.filtered].
  split; [done|]. rewrite !length_fmap, !length_seq.
  split; [done|]. split; [done|]. fold n.
  split; [|split].
  - intros k Hk. rewrite list_lookup_fmap, lookup_seq_lt by done.
    replace (1 + k)%nat with (k + 1)%nat by lia. done.
  - apply Forall_fmap, Forall_forall. intros k _. cbn.
    apply Rmult_le_pos; [|left; by apply Rinv_0_lt_compat].
    rewrite Rmult_1_r. apply Rle_0_sqr.
  - intros Hpos. split.
    + apply Forall_fmap, Forall_forall. intros k Hk. cbn.
      apply elem_of_seq in Hk.
      assert (0 < INR k) by (apply lt_0_INR; lia).
      apply Rmult_lt_0_compat; [nra|by apply Rinv_0_lt_compat].
    + eapply Sorted_fmap; [|apply sorted_lt_seq].
      intros i j Hij. cbn beta. apply lt_INR in Hij.
      unfold Rdiv. apply Rmult_lt_compat_r; [by apply Rinv_0_lt_compat|].
      by apply Rmult_lt_compat_r.
Qed.

Lemma to_periodogram_frequency_grid_witness :
  ∃ p,
    to_periodogram (Timeseries.mk [0; 1; 2; 3] [1; 2; 3; 4] 1) = Ok p
    ∧ length (Periodogram.freqs p) = 2%nat
    ∧ length (Periodogram.power p) = 2%nat.
Proof.
  assert (Hfs : Timeseries.fs (Timeseries.mk [0; 1; 2; 3] [1; 2; 3; 4] 1)
                = Ok (1 / (1 - 0))).
  { unfold Timeseries.fs. cbn. by rewrite decide_False by lra. }
  destruct (to_periodogram_frequency_grid
              (Timeseries.mk [0; 1; 2; 3] [1; 2; 3; 4] 1) _ Hfs
              ltac:(discriminate))
    as (p & Hrun & _ & Hf & Hp & _).
  exists p. split; [exact Hrun|]. split; [exact Hf|exact Hp].
Defined.

(** X8. The sampling frequency read back from the periodogram of a series
    is the series' own exactly when the series has an even number of
    values; for an odd number [n > 1] it is [fs (1 - 1 / n)], and for a
    single value the periodogram is empty and its [fs] raises
    [IndexError]. *)
Theorem to_periodogram_sampling_frequency (ts : Timeseries.obj) (fs : R) :
  Timeseries.fs ts = Ok fs →
  Timeseries.y ts ≠ [] →
  let n := length (Timeseries.y ts) in
  ∃ p,
    to_periodogram ts = Ok p
    ∧ (Nat.Even n → Periodogram_fs p = Ok fs)
    ∧ (Nat.Odd n → (1 < n)%nat →
       Periodogram_fs p = Ok (fs * (1 - 1 / INR n))
       ∧ Periodogram_fs p ≠ Ok fs)
    ∧ (n = 1%nat →
       Periodogram.freqs p = []
       ∧ Periodogram_fs p = Err (IndexError "index -1 is out of bounds")).
Proof.
  intros Hfs Hy n. pose proof (INR_length_pos _ Hy) as Hn. fold n in Hn.
  pose proof (timeseries_fs_nonzero ts fs Hfs) as Hfs0.
  eexists. split; [by apply to_periodogram_unfold|].
  fold n. unfold Periodogram_fs. cbn [Periodogram.freqs].
  split; [|split].
  - intros [h Hh]. replace (n / 2)%nat with h
      by (rewrite Hh, Nat.mul_comm, Nat.div_mul; lia).
    destruct h as [|h]; [rewrite Hh in Hn; cbn in Hn; lra|].
    rewrite last_fmap_seq. f_equal.
    replace (1 + h)%nat with (S h) by lia.
    rewrite Hh, mult_INR. change (INR 2) with 2.
    rewrite Hh, mult_INR in Hn. change (INR 2) with 2 in Hn. field. lra.
  - intros [h Hh] Hgt.
    assert (Hdiv : (n / 2)%nat = h).
    { rewrite Hh. rewrite Nat.mul_comm, Nat.div_add_l by lia. cbn. lia. }
    rewrite Hdiv. destruct h as [|h]; [lia|].
    rewrite last_fmap_seq. replace (1 + h)%nat with (S h) by lia.
    assert (HnR : INR n = 2 * INR (S h) + 1).
    { rewrite Hh, plus_INR, mult_INR. reflexivity. }
    assert (Heq : 2 * (INR (S h) * fs / INR n) = fs * (1 - 1 / INR n)).
    { rewrite HnR. field. rewrite <- HnR. lra. }
    rewrite Heq. split; [done|]. intros [= Hbad].
    assert (fs * (1 / INR n) = 0) by lra.
    apply Rmult_integral in H as [H|H]; [done|].
    unfold Rdiv in H. rewrite Rmult_1_l in H.
    by apply Rinv_neq_0_compat in H; [|lra].
  - intros ->. done.
Qed.

Lemma to_periodogram_sampling_frequency_witness :
  ∃ p,
    to_periodogram (Timeseries.mk [0; 1; 2; 3] [1; 2; 3; 4] 1) = Ok p
    ∧ Periodogram_fs p = Ok (1 / (1 - 0)).
Proof.
  assert (Hfs : Timeseries.fs (Timeseries.mk [0; 1; 2; 3] [1; 2; 3; 4] 1)
                = Ok (1 / (1 - 0))).
  { unfold Timeseries.fs. cbn. by rewrite decide_False by lra. }
  destruct (to_periodogram_sampling_frequency
              (Timeseries.mk [0; 1; 2; 3] [1; 2; 3; 4] 1) _ Hfs
              ltac:(discriminate))
    as (p & Hrun & Heven & _).
  exists p. split; [exact Hrun|]. apply Heven. exists 2%nat. reflexivity.
Defined.

Lemma length_irfft (X : list R) (m : nat) : length (irfft X m) = m.
Proof. unfold irfft. by rewrite length_fmap, length_seq. Qed.

(** X9. On a periodogram with [n >= 2] frequencies, the last of them [f]
    not zero, [to_timeseries] returns a series of [2 (n - 1)] values with
    the default [std = 1.0].  Its time axis has as many points and runs
    from 0 to [1 / fs], where [fs = 2 f] is the sampling frequency of the
    periodogram, so the sampling frequency of the returned series is
    [fs (2 n - 3)]: it is [fs] only for [n = 2]. *)
Theorem to_timeseries_time_axis (p : Periodogram.t) (f : R) :
  (2 ≤ length (Periodogram.freqs p))%nat →
  last (Periodogram.freqs p) = Some f →
  f ≠ 0 →
  let m := (2 * (length (Periodogram.freqs p) - 1))%nat in
  ∃ ts,
    to_timeseries p = Ok ts
    ∧ length (Timeseries.y ts) = m
    ∧ length (Timeseries.t ts) = m
    ∧ Timeseries.std ts = 1
    ∧ head (Timeseries.t ts) = Some 0
    ∧ last (Timeseries.t ts) = Some (1 / (2 * f))
    ∧ Timeseries.fs ts = Ok (2 * f * INR (m - 1))
    ∧ ((2 < length (Periodogram.freqs p))%nat →
       Timeseries.fs ts ≠ Periodogram_fs p).
Proof.
  intros Hn Hlast Hf m.
  unfold to_timeseries, Periodogram_fs, Periodogram.n. rewrite Hlast.
  rewrite decide_False by lia. cbn [mbind result_bind].
  rewrite decide_False by lra.
  rewrite length_irfft.
  replace (Z.to_nat (2 * (Z.of_nat (length (Periodogram.freqs p)) - 1)))
    with m by (unfold m; lia).
  eexists. split; [reflexivity|].
  cbn [Timeseries.y Timeseries.t Timeseries.std].
  rewrite length_irfft, length_linspace.
  split; [done|]. split; [lia|]. split; [done|].
  assert (Hm : ∃ d, m = S (S d)) by (exists (m - 2)%nat; unfold m; lia).
  destruct Hm as [d Hm]. rewrite Hm.
  unfold linspace. rewrite Nat2Z.id.
  replace (S (S d) - 1)%nat with (S d) by lia.
  set (step := (1 / (2 * f) - 0) / INR (S d)).
  assert (Hd : 0 < INR (S d)) by (apply lt_0_INR; lia).
  assert (Hstep : step ≠ 0).
  { unfold step. unfold Rdiv. rewrite Rminus_0_r, Rmult_1_l.
    apply Rmult_integral_contrapositive. split.
    - apply Rinv_neq_0_compat. lra.
    - apply Rinv_neq_0_compat. lra. }
  split; [|split; [|split]].
  - cbn. f_equal. lra.
  - by rewrite last_snoc.
  - unfold Timeseries.fs. cbn [Timeseries.t].
    destruct d as [|d].
    + cbn [seq fmap list_fmap app].
      assert (Heq : 1 / (2 * f) - (INR 0 * step + 0) = step).
      { unfold step. cbn. field. done. }
      rewrite Heq, decide_False by done. f_equal.
      unfold step. cbn. field. done.
    + cbn [seq fmap list_fmap app].
      assert (Heq : INR 1 * step + 0 - (INR 0 * step + 0) = step).
      { cbn. lra. }
      rewrite Heq, decide_False by done. f_equal.
      unfold step. field. split; [done|lra].
  - intros Hgt. unfold Timeseries.fs. cbn [Timeseries.t].
    assert (Hd1 : (1 ≤ d)%nat) by (unfold m in Hm; lia).
    destruct d as [|d]; [lia|].
    cbn [seq fmap list_fmap app].
    assert (Heq : INR 1 * step + 0 - (INR 0 * step + 0) = step).
    { cbn. lra. }
    rewrite Heq, decide_False by done. intros [= Hbad].
    assert (Hinv : 1 / step = 2 * f * INR (S (S d))).
    { unfold step. field. split; [done|lra]. }
    rewrite Hinv in Hbad.
    assert (2 <= INR (S (S d))).
    { rewrite !S_INR. pose proof (pos_INR d). lra. }
    nra.
Qed.

Lemma to_timeseries_time_axis_witness :
  ∃ ts,
    to_timeseries (Periodogram.mk [1; 2; 3] [5; 6; 7] false) = Ok ts
    ∧ length (Timeseries.y ts) = 4%nat
    ∧ length (Timeseries.t ts) = 4%nat.
Proof.
  destruct (to_timeseries_time_axis
              (Periodogram.mk [1; 2; 3] [5; 6; 7] false) 3
              ltac:(cbn; lia) eq_refl ltac:(lra))
    as (ts & Hrun & Hy & Ht & _).
  exists ts. split; [exact Hrun|]. split; [exact Hy|exact Ht].
Defined.

(** ** [init_knots]: placement by fractions *)

Lemma py_int_IZR (z : Z) : (0 ≤ z)%Z → py_int (IZR z) = z.
Proof.
  intros Hz. unfold py_int. apply IZR_le in Hz.
  rewrite decide_True by done. symmetry. apply Int_part_spec. lra.
Qed.

Lemma clamp_ge_1 (x : R) : 1 <= x → Rmax 0 (Rmin x 1) = 1.
Proof. intros Hx. unfold Rmax, Rmin. repeat destruct (Rle_dec _ _); lra. Qed.

Lemma clamp_le_0 (x : R) : x <= 0 → Rmax 0 (Rmin x 1) = 0.
Proof. intros Hx. unfold Rmax, Rmin. repeat destruct (Rle_dec _ _); lra. Qed.

Lemma clamp_bounds (x : R) : 0 <= Rmax 0 (Rmin x 1) <= 1.
Proof. unfold Rmax, Rmin. repeat destruct (Rle_dec _ _); lra. Qed.

(** [linspace] as one map over the sample numbers *)
Lemma linspace_fmap (a b : R) (d : nat) :
  linspace a b (Z.of_nat (S (S d)))
  = (λ i, INR i * ((b - a) / INR (S d)) + a) <$> seq 0 (S (S d)).
Proof.
  unfold linspace. rewrite Nat2Z.id.
  rewrite (seq_S (S d)), fmap_app. f_equal. cbn [fmap list_fmap].
  f_equal. rewrite Nat.add_0_l.
  assert (0 < INR (S d)) by (apply lt_0_INR; lia). field. lra.
Qed.

Lemma linspace_ends (a b : R) (d : nat) :
  linspace a b (Z.of_nat (S (S d)))
  = [a] ++ slice_1_m1 (linspace a b (Z.of_nat (S (S d)))) ++ [b].
Proof.
  unfold slice_1_m1. rewrite length_linspace, Nat2Z.id.
  rewrite linspace_fmap.
  replace (S (S d) - 2)%nat with d by lia.
  change (seq 0 (S (S d))) with (0%nat :: seq 1 (S d)).
  rewrite (seq_S d 1), fmap_cons, fmap_app. cbn [drop]. rewrite drop_0.
  rewrite take_app_length' by (by rewrite length_fmap, length_seq).
  cbn [fmap list_fmap app]. f_equal; [cbn; lra|]. f_equal. f_equal.
  replace (1 + d)%nat with (S d) by lia.
  assert (0 < INR (S d)) by (apply lt_0_INR; lia). field. lra.
Qed.

Lemma sorted_le_linspace (a b : R) (num : Z) :
  a <= b → Sorted Rle (linspace a b num).
Proof.
  intros Hab. destruct (Z.to_nat num) as [|[|d]] eqn:Hnum.
  - unfold linspace. rewrite Hnum. constructor.
  - unfold linspace. rewrite Hnum. repeat constructor.
  - replace num with (Z.of_nat (S (S d))) by lia.
    rewrite linspace_fmap.
    eapply Sorted_fmap; [|apply (sorted_lt_seq 0 (S (S d)))].
    intros i j Hij. cbn beta. apply lt_INR in Hij.
    assert (0 < INR (S d)) by (apply lt_0_INR; lia).
    assert (0 <= (b - a) / INR (S d)).
    { apply Rmult_le_pos; [lra|]. left. by apply Rinv_0_lt_compat. }
    nra.
Qed.

Lemma np_sort_sorted (l : list R) : Sorted Rle l → np_sort l = l.
Proof.
  intros Hs. unfold np_sort.
  assert (AntiSymm (=) Rle) by (intros x y ? ?; lra).
  apply (Sorted_unique Rle); [apply Sorted_merge_sort; apply _|done|].
  apply merge_sort_Permutation.
Qed.

(** X10. With [frac_uniform >= 1] and [frac_log <= 0] every interior knot
    is placed uniformly: for [n_knots >= 3] and at least two strictly
    increasing frequencies the knots are [linspace(0, 1, n_knots)],
    whatever the power and whatever the frequencies in between. *)
Theorem init_knots_uniform_is_linspace (p : Periodogram.t) (n_knots : Z)
    (frac_uniform frac_log : R) :
  (3 ≤ n_knots)%Z →
  1 <= frac_uniform → frac_log <= 0 →
  Sorted Rlt (Periodogram.freqs p) →
  (2 ≤ length (Periodogram.freqs p))%nat →
  init_knots p n_knots frac_uniform frac_log = Ok (linspace 0 1 n_knots).
Proof.
  intros Hn Hfu Hfl Hsorted Hlen2.
  destruct (Periodogram.freqs p) as [|min_freq fs] eqn:Hfs;
    [cbn in Hlen2; lia|].
  destruct (last (min_freq :: fs)) as [max_freq|] eqn:Hlast;
    [|by apply last_None in Hlast].
  destruct (increasing_bounds (min_freq :: fs) min_freq max_freq
              Hsorted eq_refl Hlast) as [_ Hlt].
  specialize (Hlt Hlen2).
  unfold init_knots. rewrite Hfs, Hlast. cbn [head].
  rewrite decide_False by lia. rewrite decide_False by lia.
  rewrite clamp_ge_1, clamp_le_0 by done.
  rewrite (decide_True (P := 0 < 1)) by lra.
  rewrite (decide_False (P := 0 < 0)) by lra.
  rewrite Rmult_1_l, py_int_IZR by lia.
  rewrite Z.add_0_r, Z.sub_diag. change (Z.max 0 0) with 0%Z.
  rewrite decide_True by lia. rewrite (decide_False (P := (0 < 0)%Z)) by lia.
  cbn [mbind result_bind]. rewrite (decide_False (P := (0 < 0)%Z)) by lia.
  cbn [mbind result_bind]. f_equal.
  replace (n_knots - 2 + 2)%Z with n_knots by lia.
  assert (Hd : ∃ d, n_knots = Z.of_nat (S (S d))).
  { exists (Z.to_nat n_knots - 2)%nat. lia. }
  destruct Hd as [d ->].
  rewrite app_nil_l, app_nil_l.
  rewrite <- (linspace_ends min_freq max_freq d).
  rewrite np_sort_sorted by (apply sorted_le_linspace; lra).
  rewrite !linspace_fmap, <- list_fmap_compose. apply list_fmap_ext.
  intros i k _. unfold compose.
  assert (0 < INR (S d)) by (apply lt_0_INR; lia). field. split; lra.
Qed.

Lemma init_knots_uniform_is_linspace_witness :
  init_knots (Periodogram.mk [1; 2; 4] [1; 1; 1] false) 3 1 0
  = Ok (linspace 0 1 3).
Proof.
  apply (init_knots_uniform_is_linspace
           (Periodogram.mk [1; 2; 4] [1; 1; 1] false) 3 1 0).
  - lia.
  - lra.
  - lra.
  - repeat constructor; lra.
  - cbn. lia.
Defined.

Lemma group_count_bounds (f : R) (m : Z) :
  (0 ≤ m)%Z →
  let fc := Rmax 0 (Rmin f 1) in
  let k := if decide (0 < fc) then py_int (fc * IZR m) else 0%Z in
  (0 ≤ k ≤ m)%Z ∧ IZR k <= fc * IZR m.
Proof.
  intros Hm fc k. pose proof (clamp_bounds f) as Hfc. fold fc in Hfc.
  assert (HmR : 0 <= IZR m) by (by apply IZR_le in Hm).
  unfold k. destruct (decide (0 < fc)).
  - destruct (py_int_bounds (fc * IZR m)) as [H0 Hle]; [nra|].
    split; [|done]. split; [done|]. apply le_IZR. nra.
  - split; [lia|]. nra.
Qed.

(** X11. Whatever the two fractions are, for [n_knots >= 3] and a
    periodogram with at least two strictly increasing positive frequencies
    and non-negative power of positive total, [init_knots] returns at least
    [n_knots] and at most [2 n_knots - 2] knots; they are non-decreasing,
    lie in [0, 1], and the first is 0 and the last is 1. *)
Theorem init_knots_count_bounds (p : Periodogram.t) (n_knots : Z)
    (frac_uniform frac_log : R) :
  (3 ≤ n_knots)%Z →
  Sorted Rlt (Periodogram.freqs p) →
  (2 ≤ length (Periodogram.freqs p))%nat →
  Forall (λ f, 0 < f) (Periodogram.freqs p) →
  length (Periodogram.power p) = length (Periodogram.freqs p) →
  Forall (λ x, 0 <= x) (Periodogram.power p) →
  0 < np_sum (Periodogram.power p) →
  ∃ knots,
    init_knots p n_knots frac_uniform frac_log = Ok knots
    ∧ (n_knots ≤ Z.of_nat (length knots) ≤ 2 * n_knots - 2)%Z
    ∧ Sorted Rle knots
    ∧ Forall (λ k, 0 <= k <= 1) knots
    ∧ head knots = Some 0
    ∧ last knots = Some 1.
Proof.
  intros Hn Hsorted Hlen2 Hpos Hlen Hpow Htotal.
  destruct (Periodogram.freqs p) as [|min_freq fs] eqn:Hfs;
    [cbn in Hlen2; lia|].
  destruct (last (min_freq :: fs)) as [max_freq|] eqn:Hlast;
    [|by apply last_None in Hlast].
  destruct (increasing_bounds (min_freq :: fs) min_freq max_freq
              Hsorted eq_refl Hlast) as [Hbounds Hlt].
  specialize (Hlt Hlen2).
  assert (Hmin : 0 < min_freq) by (by inversion Hpos).
  rewrite <- Hfs in *.
  destruct (init_knots_general p n_knots frac_uniform frac_log
              min_freq max_freq Hn ltac:(by rewrite Hfs) Hlast Hlen
              Hbounds Hmin) as (raw & -> & Hrawlen & Hrawall & Hlo & Hhi).
  destruct (group_count_bounds frac_uniform (n_knots - 2) ltac:(lia))
    as [Hu _].
  destruct (group_count_bounds frac_log (n_knots - 2) ltac:(lia))
    as [Hl _].
  cbv zeta in Hrawlen, Hu, Hl.
  set (n_uniform := if decide (0 < Rmax 0 (Rmin frac_uniform 1))
                    then py_int (Rmax 0 (Rmin frac_uniform 1)
                                 * IZR (n_knots - 2)) else 0%Z) in *.
  set (n_log := if decide (0 < Rmax 0 (Rmin frac_log 1))
                then py_int (Rmax 0 (Rmin frac_log 1)
                             * IZR (n_knots - 2)) else 0%Z) in *.
  pose proof (merge_sort_Permutation Rle raw) as Hperm.
  pose proof (Sorted_merge_sort Rle raw) as Hsort.
  fold (np_sort raw) in Hperm, Hsort.
  assert (Hd : 0 < / (max_freq - min_freq))
    by (apply Rinv_0_lt_compat; lra).
  eexists. split; [reflexivity|].
  split; [rewrite length_fmap, Hperm, Hrawlen; lia|].
  split; [|split; [|split]].
  - eapply Sorted_fmap; [|exact Hsort]. intros x y Hxy. cbn.
    unfold Rdiv. apply Rmult_le_compat_r; lra.
  - apply Forall_fmap. rewrite Hperm.
    eapply Forall_impl; [exact Hrawall|].
    intros k [Hk1 Hk2]. cbn. split.
    + apply Rmult_le_pos; lra.
    + apply (Rmult_le_reg_r (max_freq - min_freq)); [lra|].
      unfold Rdiv. rewrite Rmult_assoc, Rinv_l by lra. lra.
  - rewrite head_fmap.
    rewrite (sorted_head_min (np_sort raw) min_freq Hsort).
    + cbn. f_equal. unfold Rdiv. rewrite Rminus_diag. lra.
    + rewrite Hperm. eapply Forall_impl; [exact Hrawall|].
      intros k Hk. cbn in *. lra.
    + by rewrite Hperm.
  - rewrite fmap_last.
    rewrite (sorted_last_max (np_sort raw) max_freq Hsort).
    + cbn. f_equal. field. lra.
    + rewrite Hperm. eapply Forall_impl; [exact Hrawall|].
      intros k Hk. cbn in *. lra.
    + by rewrite Hperm.
Qed.

Lemma init_knots_count_bounds_witness :
  ∃ knots,
    init_knots (Periodogram.mk [1; 2; 4] [1; 1; 1] false) 3 1 1 = Ok knots
    ∧ (3 ≤ Z.of_nat (length knots) ≤ 2 * 3 - 2)%Z
    ∧ Forall (λ k, 0 <= k <= 1) knots.
Proof.
  destruct (init_knots_count_bounds
              (Periodogram.mk [1; 2; 4] [1; 1; 1] false) 3 1 1)
    as (knots & Hrun & Hcount & _ & Hall & _).
  - lia.
  - repeat constructor; lra.
  - cbn. lia.
  - repeat (constructor; [lra|]). constructor.
  - reflexivity.
  - repeat (constructor; [lra|]). constructor.
  - cbn. lra.
  - exists knots. split; [exact Hrun|]. split; [exact Hcount|exact Hall].
Defined.

(** X12. With both fractions at most zero every interior knot is placed
    by the power density; a periodogram that has frequencies but a
    different number of powers then makes [init_knots] raise [ValueError]
    for every [n_knots >= 3]: [np.interp] refuses abscissae and ordinates
    of different lengths. *)
Theorem init_knots_length_mismatch (p : Periodogram.t) (n_knots : Z)
    (frac_uniform frac_log : R) :
  (3 ≤ n_knots)%Z →
  Periodogram.freqs p ≠ [] →
  frac_uniform <= 0 → frac_log <= 0 →
  length (Periodogram.power p) ≠ length (Periodogram.freqs p) →
  is_value_error (init_knots p n_knots frac_uniform frac_log).
Proof.
  intros Hn Hne Hfu Hfl Hlen.
  destruct (Periodogram.freqs p) as [|min_freq fs] eqn:Hfs; [done|].
  destruct (last (min_freq :: fs)) as [max_freq|] eqn:Hlast;
    [|by apply last_None in Hlast].
  unfold init_knots. rewrite Hfs, Hlast. cbn [head].
  rewrite decide_False by lia. rewrite decide_False by lia.
  rewrite !clamp_le_0 by done.
  rewrite !(decide_False (P := 0 < 0)) by lra.
  rewrite (decide_True (P := (0 < Z.max 0 _)%Z)) by lia.
  unfold np_interp, np_cumsum.
  rewrite length_cumsum_from, length_fmap.
  destruct (decide (length (Periodogram.power p) = length (min_freq :: fs)))
    as [?|_]; [done|].
  cbn. by eexists.
Qed.

Lemma init_knots_length_mismatch_witness :
  is_value_error
    (init_knots (Periodogram.mk [1; 2; 4] [1; 1] false) 3 0 0).
Proof.
  apply (init_knots_length_mismatch
           (Periodogram.mk [1; 2; 4] [1; 1] false) 3 0 0).
  - lia.
  - discriminate.
  - lra.
  - lra.
  - cbn. lia.
Defined.

(** X13. Scaling the power does not move the knots: for a non-zero number
    [c] and a power of non-zero total, [init_knots] on the periodogram
    [p * c] returns what it returns on [p], for all knot counts and
    fractions. *)
Theorem init_knots_invariant_under_scaling (p : Periodogram.t) (c : R)
    (n_knots : Z) (frac_uniform frac_log : R) :
  c ≠ 0 →
  np_sum (Periodogram.power p) ≠ 0 →
  ∃ q,
    __mul__ p (Scalar c) = Ok q
    ∧ init_knots q n_knots frac_uniform frac_log
      = init_knots p n_knots frac_uniform frac_log.
Proof.
  intros Hc Hs. unfold __mul__. cbn. eexists. split; [reflexivity|].
  unfold init_knots. cbn [Periodogram.freqs Periodogram.power].
  assert (Hsum : np_sum ((λ x, x * c) <$> Periodogram.power p)
                 = c * np_sum (Periodogram.power p)).
  { clear Hs. generalize (Periodogram.power p). intros l.
    induction l as [|x l IH]; [cbn; lra|].
    rewrite fmap_cons, !np_sum_cons, IH. lra. }
  assert (Hd : (λ x, x / np_sum ((λ x, x * c) <$> Periodogram.power p))
                 <$> ((λ x, x * c) <$> Periodogram.power p)
               = (λ x, x / np_sum (Periodogram.power p))
                   <$> Periodogram.power p).
  { rewrite Hsum, <- list_fmap_compose. apply list_fmap_ext.
    intros i x _. unfold compose. by field. }
  rewrite Hd. done.
Qed.

Lemma init_knots_invariant_under_scaling_witness :
  ∃ q,
    __mul__ (Periodogram.mk [1; 2; 4] [1; 1; 1] false) (Scalar 2) = Ok q
    ∧ init_knots q 5 0 (8 / 10)
      = init_knots (Periodogram.mk [1; 2; 4] [1; 1; 1] false) 5 0 (8 / 10).
Proof.
  apply (init_knots_invariant_under_scaling
           (Periodogram.mk [1; 2; 4] [1; 1; 1] false) 2 5 0 (8 / 10)).
  - lra.
  - cbn. lra.
Defined.

(** ** [init_basis_and_penalty]: the entries of the basis, and a raw
    penalty of zeros *)

(** the value of each normalisation factor *)
Lemma norm_factor_value (kwb : list R) (degree : Z) (j : nat) :
  (0 ≤ degree)%Z →
  (j < length (norm_factor kwb degree))%nat →
  norm_factor kwb degree !!! j
  = if decide (zero_span kwb degree j) then PInf
    else Fin ((kwb !!! (j + Z.to_nat (degree + 1))%nat - kwb !!! j)
              / IZR (degree + 1)).
Proof.
  intros Hd Hj. unfold zero_span.
  assert (Hc : 0 < IZR (degree + 1)) by (apply IZR_lt; lia).
  revert Hj. unfold norm_factor, slice_from, slice_to, slice_index.
  rewrite (decide_False (P := (degree + 1 < 0)%Z)) by lia.
  set (t := if decide (Z.of_nat (length kwb) - degree - 1 < 0)%Z
            then Z.to_nat (Z.of_nat (length kwb)
                           + (Z.of_nat (length kwb) - degree - 1))
            else Z.to_nat (Z.of_nat (length kwb) - degree - 1)).
  rewrite length_fmap, length_zip_with, length_drop, length_take. intros Hj.
  set (g := λ v : fval, if decide (v = Fin 0) then PInf else v).
  set (h := λ m s : R, Fin ((m - s) / IZR (degree + 1))).
  assert (Hlk : (g <$> zip_with h (drop (Z.to_nat (degree + 1)) kwb)
                                  (take t kwb)) !!! j
                = g (h (kwb !!! (j + Z.to_nat (degree + 1))%nat) (kwb !!! j))).
  { apply list_lookup_total_correct.
    rewrite list_lookup_fmap, lookup_zip_with, lookup_drop, lookup_take_lt
      by lia.
    rewrite (list_lookup_lookup_total_lt kwb (Z.to_nat (degree + 1) + j))
      by lia.
    rewrite (list_lookup_lookup_total_lt kwb j) by lia.
    cbn. by rewrite (Nat.add_comm j). }
  rewrite Hlk. unfold g, h.
  set (a := kwb !!! (j + Z.to_nat (degree + 1))%nat). set (b := kwb !!! j).
  destruct (decide (a = b)) as [Hab|Hab].
  - rewrite decide_True; [done|].
    f_equal. rewrite Hab. unfold Rdiv. rewrite Rminus_diag. lra.
  - rewrite decide_False; [done|]. intros [= H0]. apply Hab.
    apply (Rmult_eq_compat_r (IZR (degree + 1))) in H0.
    unfold Rdiv in H0. rewrite Rmult_assoc, Rinv_l in H0 by lra. lra.
Qed.

(** X14. In the main case (more than one basis function, more than one
    grid point, a raw design array of finite entries and a raw penalty with
    a positive entry) the basis is the [n] by [k] matrix whose column [j]
    is the raw column [j] times [(degree + 1) / span], where [span] is the
    distance between the padded knots [j + degree + 1] and [j]; a column
    of zero span is zero. *)
Theorem basis_matrix_columns_scaled_by_span `{Skfda}
    (knots : list R) (degree n_grid_points diffMatrixOrder : Z)
    (epsilon : R) (raw : ndarray fval) (k n : nat) :
  (0 ≤ degree)%Z → n = Z.to_nat n_grid_points → (0 ≤ n_grid_points)%Z →
  Z.of_nat k = (Z.of_nat (length knots) + degree - 1)%Z →
  k ≠ 1%nat → n ≠ 1%nat →
  bspline_basis_init knots (degree + 1) = Ok () →
  let dm := to_grid_data_matrix knots (degree + 1)
              (linspace 0 1 n_grid_points) in
  let kwb := replicate (Z.to_nat degree) 0 ++ knots
               ++ replicate (Z.to_nat degree) 1 in
  shape dm = [k; n; 1%nat] → wf_array dm → Forall is_finite (data dm) →
  l2_penalty_matrix knots (degree + 1) diffMatrixOrder = Ok raw →
  finite_square k raw →
  (∃ i j, (i < k)%nat ∧ (j < k)%nat ∧ 0 < matrix_of raw i j) →
  ∃ basis p,
    init_basis_and_penalty knots degree n_grid_points diffMatrixOrder epsilon
    = Ok (basis, p)
    ∧ shape basis = [n; k]
    ∧ wf_array basis
    ∧ ∀ i j, (i < n)%nat → (j < k)%nat →
        entry2 basis i j
        = if decide (zero_span kwb degree j) then Fin 0
          else Fin (real_of (data dm !!! (j * n + i)%nat)
                    * IZR (degree + 1)
                    / (kwb !!! (j + Z.to_nat (degree + 1))%nat - kwb !!! j)).
Proof.
  intros Hd Hnn Hn Hk Hk1 Hn1 Hinit dm kwb Hshape Hwf Hfin Hraw Hsq Hpos.
  destruct (penalty_pipeline_positive raw k epsilon Hsq Hpos)
    as (m & scaled & p & _ & Hsc & Hp & _).
  assert (Hlen : length (norm_factor kwb degree) = k).
  { unfold kwb. rewrite length_norm_factor by done. lia. }
  destruct dm as [s d] eqn:Hdm. cbn [shape data] in *. subst s.
  unfold wf_array in Hwf. cbn [shape data size_of foldr] in Hwf.
  destruct (basis_main_case k n d (norm_factor kwb degree) Hk1 Hn1
              ltac:(lia) Hlen) as (basis & Hbasis & Hbs & Hbwf & Hentry & _).
  exists basis, p. split; [|split; [exact Hbs|split; [exact Hbwf|]]].
  - rewrite init_basis_and_penalty_unfold by done.
    fold kwb. unfold dm in Hdm. rewrite Hdm, Hbasis, Hraw.
    cbn [mbind result_bind]. rewrite Hsc. cbn [mbind result_bind].
    by rewrite Hp.
  - intros i j Hi Hj. rewrite Hentry by done.
    rewrite norm_factor_value by (done || lia).
    pose proof (Forall_lookup_total_1 _ _ (j * n + i) Hfin ltac:(nia)) as Hx.
    destruct (d !!! (j * n + i)%nat) as [x| | |] eqn:Hdx; try done.
    unfold zero_span. case_decide as Hz; [done|].
    assert (Hc : 0 < IZR (degree + 1)) by (apply IZR_lt; lia).
    rewrite fdiv_fin.
    + f_equal. cbn [real_of]. field. split; lra.
    + intros H0. apply Hz.
      apply (Rmult_eq_compat_r (IZR (degree + 1))) in H0.
      unfold Rdiv in H0. rewrite Rmult_assoc, Rinv_l in H0 by lra. lra.
Qed.

Lemma basis_matrix_columns_scaled_by_span_witness :
  ∃ basis p,
    @init_basis_and_penalty skfda_unit_interval [0; 1] 1 3 1 default_epsilon
    = Ok (basis, p)
    ∧ shape basis = [3%nat; 2%nat]
    ∧ wf_array basis.
Proof.
  destruct (@basis_matrix_columns_scaled_by_span skfda_unit_interval
              [0; 1] 1 3 1 default_epsilon
              (mkArr [2; 2]%nat [Fin 1; Fin (-1); Fin (-1); Fin 1]) 2 3)
    as (basis & p & Hrun & Hs & Hwf & _).
  - lia.
  - reflexivity.
  - lia.
  - reflexivity.
  - lia.
  - lia.
  - reflexivity.
  - reflexivity.
  - reflexivity.
  - cbn. repeat (constructor; [exact I|]). constructor.
  - reflexivity.
  - split; [reflexivity|]. split; [reflexivity|].
    repeat (constructor; [exact I|]). constructor.
  - exists 0%nat, 0%nat. split; [lia|]. split; [lia|].
    unfold matrix_of, entry2. cbn. lra.
  - exists basis, p. split; [exact Hrun|]. split; [exact Hs|exact Hwf].
Defined.

Lemma foldl_fmax_zeros (k : nat) :
  foldl fmax (Fin 0) (replicate k (Fin 0)) = Fin 0.
Proof.
  induction k as [|k IH]; [done|]. cbn.
  replace (Rmax 0 0) with 0; [exact IH|].
  unfold Rmax. destruct (Rle_dec 0 0); lra.
Qed.

(** X15. A raw penalty matrix of zeros (the derivative of the given order
    of every basis function vanishes) is not refused: the division by its
    maximum, zero, turns every entry into NaN, and the penalty matrix
    returned consists of NaN only. *)
Theorem zero_raw_penalty_gives_nan `{Skfda}
    (knots : list R) (degree n_grid_points diffMatrixOrder : Z)
    (epsilon : R) (k n : nat) :
  (0 ≤ degree)%Z → n = Z.to_nat n_grid_points → (0 ≤ n_grid_points)%Z →
  Z.of_nat k = (Z.of_nat (length knots) + degree - 1)%Z →
  k ≠ 1%nat → n ≠ 1%nat → (0 < k)%nat →
  bspline_basis_init knots (degree + 1) = Ok () →
  let dm := to_grid_data_matrix knots (degree + 1)
              (linspace 0 1 n_grid_points) in
  shape dm = [k; n; 1%nat] → wf_array dm →
  l2_penalty_matrix knots (degree + 1) diffMatrixOrder
  = Ok (mkArr [k; k] (replicate (k * k) (Fin 0))) →
  ∃ basis p,
    init_basis_and_penalty knots degree n_grid_points diffMatrixOrder epsilon
    = Ok (basis, p)
    ∧ shape p = [k; k]
    ∧ data p = replicate (k * k) NaN.
Proof.
  intros Hd Hnn Hn Hk Hk1 Hn1 Hk0 Hinit dm Hshape Hwf Hraw.
  set (kwb := replicate (Z.to_nat degree) 0 ++ knots
                ++ replicate (Z.to_nat degree) 1).
  assert (Hlen : length (norm_factor kwb degree) = k).
  { unfold kwb. rewrite length_norm_factor by done. lia. }
  destruct dm as [s d] eqn:Hdm. cbn [shape data] in *. subst s.
  unfold wf_array in Hwf. cbn [shape data size_of foldr] in Hwf.
  destruct (basis_main_case k n d (norm_factor kwb degree) Hk1 Hn1
              ltac:(lia) Hlen) as (basis & Hbasis & _).
  set (raw := mkArr [k; k] (replicate (k * k) (Fin 0))) in *.
  assert (Hrawwf : wf_array raw).
  { unfold wf_array, raw. cbn [shape data].
    by rewrite length_replicate, size_of_square. }
  assert (Hmax : np_max raw = Ok (Fin 0)).
  { unfold np_max, raw. cbn [data].
    destruct (k * k)%nat as [|kk] eqn:Hkk; [nia|].
    cbn [replicate]. by rewrite foldl_fmax_zeros. }
  assert (Hnan : fdiv (Fin 0) (Fin 0) = NaN).
  { unfold fdiv. by rewrite !decide_True by done. }
  assert (Hsc : penalty_rescaled raw
                = Ok (mkArr [k; k] (replicate (k * k) NaN))).
  { unfold penalty_rescaled. rewrite Hmax. cbn [mbind result_bind].
    rewrite broadcast2_scalar by done. unfold raw. cbn [shape data].
    by rewrite fmap_replicate, Hnan. }
  assert (Hp : penalty_stabilised epsilon
                 (mkArr [k; k] (replicate (k * k) NaN))
               = Ok (mkArr [k; k] (replicate (k * k) NaN))).
  { unfold penalty_stabilised. cbn [shape lookup list_lookup].
    rewrite broadcast2_same_shape.
    - cbn [shape data]. do 2 f_equal.
      assert (Hz : ∀ (l : list fval) m, length l = m →
                zip_with fadd (replicate m NaN) l = replicate m NaN).
      { intros l m. revert l. induction m as [|m IH]; intros [|x l] Hl;
          simplify_eq/=; [done|]. f_equal. by apply IH. }
      apply Hz. rewrite length_fmap. pose proof (wf_eye k) as He.
      unfold wf_array in He. rewrite He. unfold np_eye. cbn [shape].
      by rewrite size_of_square.
    - reflexivity.
    - unfold wf_array. cbn [shape data].
      by rewrite length_replicate, size_of_square.
    - unfold wf_array. cbn [shape data]. rewrite length_fmap.
      apply (wf_eye k). }
  exists basis, (mkArr [k; k] (replicate (k * k) NaN)).
  split; [|split; reflexivity].
  rewrite init_basis_and_penalty_unfold by done.
  fold kwb. unfold dm in Hdm. rewrite Hdm, Hbasis, Hraw.
  cbn [mbind result_bind]. rewrite Hsc. cbn [mbind result_bind].
  by rewrite Hp.
Qed.

Lemma zero_raw_penalty_gives_nan_witness :
  ∃ basis p,
    @init_basis_and_penalty skfda_unit_interval [0; 1] 1 3 2 default_epsilon
    = Ok (basis, p)
    ∧ data p = [NaN; NaN; NaN; NaN].
Proof.
  destruct (@zero_raw_penalty_gives_nan skfda_unit_interval
              [0; 1] 1 3 2 default_epsilon 2 3)
    as (basis & p & Hrun & _ & Hdata).
  - lia.
  - reflexivity.
  - lia.
  - reflexivity.
  - lia.
  - lia.
  - lia.
  - reflexivity.
  - reflexivity.
  - reflexivity.
  - reflexivity.
  - exists basis, p. split; [exact Hrun|exact Hdata].
Defined.

(** rescaling by the maximum forgets a positive factor of the raw penalty *)
Lemma penalty_rescaled_scale (raw : ndarray fval) (k : nat) (c : R) :
  finite_square k raw →
  (∃ i j, (i < k)%nat ∧ (j < k)%nat ∧ 0 < matrix_of raw i j) →
  0 < c →
  penalty_rescaled (mkArr (shape raw) (fmul (Fin c) <$> data raw))
  = penalty_rescaled raw.
Proof.
  intros Hsq (i & j & Hi & Hj & Hpos) Hc.
  destruct (penalty_pipeline raw k 0 Hsq ltac:(lia)) as (m & Hmax & Hle & _).
  assert (Hm : 0 < m) by (specialize (Hle i j Hi Hj); lra).
  destruct Hsq as (Hs & Hwf & Hfin).
  destruct raw as [s d]. cbn [shape data] in *. subst s.
  unfold wf_array in Hwf. cbn [shape data] in Hwf.
  pose proof (finite_data d Hfin) as Hd.
  remember (real_of <$> d) as rs eqn:Hrs.
  assert (Hd' : fmul (Fin c) <$> d = Fin <$> ((λ x, x * c) <$> rs)).
  { rewrite Hd, <- !list_fmap_compose. apply list_fmap_ext.
    intros ? x _. unfold compose. cbn. f_equal. lra. }
  destruct rs as [|r0 rs'].
  { rewrite Hd in Hmax. discriminate Hmax. }
  assert (Hm0 : m = foldl Rmax r0 rs').
  { unfold np_max in Hmax. cbn [data] in Hmax. rewrite Hd in Hmax.
    cbn [fmap list_fmap] in Hmax. rewrite foldl_fmax_fin in Hmax.
    by injection Hmax. }
  assert (Hmax' : np_max (mkArr [k; k] (fmul (Fin c) <$> d))
                  = Ok (Fin (m * c))).
  { unfold np_max. cbn [data]. rewrite Hd'. cbn [fmap list_fmap].
    rewrite foldl_fmax_fin, foldl_Rmax_scale by lra. by rewrite Hm0. }
  unfold penalty_rescaled. rewrite Hmax, Hmax'. cbn [mbind result_bind].
  rewrite !broadcast2_scalar
    by (unfold wf_array; cbn [shape data]; by rewrite ?length_fmap).
  cbn [shape data]. do 2 f_equal.
  rewrite <- list_fmap_compose.
  apply Forall_fmap_ext_1. eapply Forall_impl; [exact Hfin|].
  intros [x| | |] Hx; try done. unfold compose. cbn [fmul].
  rewrite !fdiv_fin by nra. f_equal. field. split; lra.
Qed.

(** X16. The penalty matrix depends on what the spline library returns as
    raw penalty only up to a positive factor: two libraries that agree on
    the basis and whose raw penalties, finite with a positive entry, differ
    by the factor [c > 0] give the same basis and the same penalty
    matrix. *)
Theorem penalty_matrix_scale_invariant (S1 S2 : Skfda)
    (knots : list R) (degree n_grid_points diffMatrixOrder : Z)
    (epsilon c : R) (raw : ndarray fval) (k : nat) :
  @bspline_basis_init S2 knots (degree + 1)
  = @bspline_basis_init S1 knots (degree + 1) →
  @to_grid_data_matrix S2 knots (degree + 1) (linspace 0 1 n_grid_points)
  = @to_grid_data_matrix S1 knots (degree + 1) (linspace 0 1 n_grid_points) →
  @l2_penalty_matrix S1 knots (degree + 1) diffMatrixOrder = Ok raw →
  @l2_penalty_matrix S2 knots (degree + 1) diffMatrixOrder
  = Ok (mkArr (shape raw) (fmul (Fin c) <$> data raw)) →
  finite_square k raw →
  (∃ i j, (i < k)%nat ∧ (j < k)%nat ∧ 0 < matrix_of raw i j) →
  0 < c →
  @init_basis_and_penalty S2 knots degree n_grid_points diffMatrixOrder
                          epsilon
  = @init_basis_and_penalty S1 knots degree n_grid_points diffMatrixOrder
                            epsilon.
Proof.
  intros Hinit Hgrid Hraw1 Hraw2 Hsq Hpos Hc.
  unfold init_basis_and_penalty. rewrite Hinit, Hgrid, Hraw1, Hraw2.
  destruct (@bspline_basis_init S1 knots (degree + 1)); [|done].
  cbn [mbind result_bind]. case_decide; [done|]. cbn [mbind result_bind].
  destruct (knots_with_boundary knots degree); [|done].
  cbn [mbind result_bind].
  destruct (broadcast2 fdiv _ _); [|done]. cbn [mbind result_bind].
  by rewrite (penalty_rescaled_scale raw k c).
Qed.

Lemma penalty_matrix_scale_invariant_witness :
  @init_basis_and_penalty
    {| bspline_basis_init := @bspline_basis_init skfda_unit_interval;
       to_grid_data_matrix := @to_grid_data_matrix skfda_unit_interval;
       l2_penalty_matrix := λ _ _ _,
         Ok (mkArr [2; 2]%nat
               (fmul (Fin 2) <$> [Fin 1; Fin (-1); Fin (-1); Fin 1])) |}
    [0; 1] 1 3 1 default_epsilon
  = @init_basis_and_penalty skfda_unit_interval [0; 1] 1 3 1 default_epsilon.
Proof.
  apply (penalty_matrix_scale_invariant skfda_unit_interval _
           [0; 1] 1 3 1 default_epsilon 2
           (mkArr [2; 2]%nat [Fin 1; Fin (-1); Fin (-1); Fin 1]) 2).
  - reflexivity.
  - reflexivity.
  - reflexivity.
  - reflexivity.
  - split; [reflexivity|]. split; [reflexivity|].
    repeat (constructor; [exact I|]). constructor.
  - exists 0%nat, 0%nat. split; [lia|]. split; [lia|].
    unfold matrix_of, entry2. cbn. lra.
  - lra.
Defined.

(** ** [init_weights]: the shape of the result, no steps, a stationary
    start *)

Lemma fori_loop_no_steps {S} (upper : Z) (body : Z → S → S) (init : S) :
  (upper ≤ 0)%Z → fori_loop 0 upper body init = init.
Proof.
  intros Hu. unfold fori_loop, seqZ.
  by replace (Z.to_nat (upper - 0)) with 0%nat by lia.
Qed.

(** the loop of [init_weights] from the start vector [s] *)
Lemma init_weights_loop `{Autodiff} (loss : list R → R) (s : list R)
    (num_steps : Z) :
  (∀ f w, length (value_and_grad f w).2 = length w) →
  let final :=
    fori_loop 0 num_steps (init_weights_step (adam (1 / 100)) loss)
              (s, opt_init (adam (1 / 100)) s) in
  length final.1 = length s ∧ ((num_steps ≤ 0)%Z → final.1 = s).
Proof.
  intros Hgrad final. split.
  - set (P := λ st : list R * opt_state (adam (1 / 100)),
           length st.1 = length s ∧ length (mu st.2) = length s
           ∧ length (nu st.2) = length s).
    assert (HP : P final).
    { apply fori_loop_invariant.
      - unfold P. cbn. by rewrite !length_fmap.
      - intros i [w st] (Hw & Hmu & Hnu). unfold P, init_weights_step.
        cbn [fst snd] in *.
        pose proof (Hgrad loss w) as Hg.
        destruct (value_and_grad loss w) as [v g]. cbn [snd] in Hg.
        cbn. unfold apply_updates.
        rewrite !length_zip_with, !length_fmap, !length_zip_with,
          !length_fmap, !length_zip_with. lia. }
    by destruct HP as (Hw & _).
  - intros Hn. unfold final. by rewrite fori_loop_no_steps.
Qed.

(** X17. When the derivative has as many entries as the weights, as a
    gradient has, [init_weights] returns a vector of the length of the
    vector it starts from: the given initial weights, or
    [n_knots + degree - 1] zeros.  With [num_steps <= 0] the loop body
    never runs and the start vector itself is returned. *)
Theorem init_weights_keeps_length `{Autodiff} (log_pdgrm : list R)
    (m : LogPSplines.t) (num_steps : Z) :
  (∀ f w, length (value_and_grad f w).2 = length w) →
  (∀ w0, ∃ w,
      init_weights log_pdgrm m (Some w0) num_steps = Ok w
      ∧ length w = length w0
      ∧ ((num_steps ≤ 0)%Z → w = w0))
  ∧ ((0 ≤ LogPSplines.n_basis m)%Z →
     ∃ w,
       init_weights log_pdgrm m None num_steps = Ok w
       ∧ Z.of_nat (length w)
         = (Z.of_nat (length (LogPSplines.knots m))
            + LogPSplines.degree m - 1)%Z
       ∧ ((num_steps ≤ 0)%Z →
          w = replicate (Z.to_nat (LogPSplines.n_basis m)) 0)).
Proof.
  intros Hgrad. split.
  - intros w0. unfold init_weights. cbn [mbind result_bind].
    set (loss := λ weights : list R,
           - whittle_lnlike log_pdgrm (LogPSplines_call m (Some weights))).
    destruct (init_weights_loop loss w0 num_steps Hgrad) as [Hlen Hzero].
    cbv zeta in Hlen, Hzero.
    destruct (fori_loop 0 num_steps _ _) as [w st]. cbn [fst] in *.
    by exists w.
  - intros Hn. unfold init_weights, jnp_zeros, jnp_full.
    rewrite decide_False by lia. cbn [mbind result_bind].
    set (s := replicate (Z.to_nat (LogPSplines.n_basis m)) 0).
    set (loss := λ weights : list R,
           - whittle_lnlike log_pdgrm (LogPSplines_call m (Some weights))).
    destruct (init_weights_loop loss s num_steps Hgrad) as [Hlen Hzero].
    cbv zeta in Hlen, Hzero.
    destruct (fori_loop 0 num_steps _ _) as [w st]. cbn [fst] in *.
    exists w. split; [done|]. split; [|done].
    rewrite Hlen. unfold s. rewrite length_replicate.
    unfold LogPSplines.n_basis, LogPSplines.n_knots in *. lia.
Qed.

Lemma init_weights_keeps_length_witness :
  ∃ w,
    @init_weights autodiff_least_squares [0; 0]
      (LogPSplines.mk 1 1 2 (mkArr [] []) (mkArr [] []) [0; 1] [0; 0]
                      None None)
      None 5000 = Ok w
    ∧ Z.of_nat (length w) = (Z.of_nat (length [0; 1]) + 1 - 1)%Z.
Proof.
  assert (Hgrad : ∀ (f : list R → R) (w : list R),
            length (@value_and_grad autodiff_least_squares f w).2
            = length w).
  { intros f w. cbn. by rewrite length_fmap. }
  destruct (proj2 (@init_weights_keeps_length autodiff_least_squares [0; 0]
                     (LogPSplines.mk 1 1 2 (mkArr [] []) (mkArr [] [])
                                     [0; 1] [0; 0] None None)
                     5000 Hgrad)
              ltac:(unfold LogPSplines.n_basis, LogPSplines.n_knots; cbn; lia))
    as (w & Hrun & Hlen & _).
  exists w. split; [exact Hrun|exact Hlen].
Defined.

Lemma zip_plus_zeros (w : list R) :
  zip_with Rplus w (replicate (length w) 0) = w.
Proof. induction w as [|x w IH]; [done|]. cbn. rewrite IH. f_equal. lra. Qed.

(** one step of Adam from zero moments on a zero gradient: no update, and
    the moments stay zero *)
Lemma adam_zero_gradient (lr : R) (n : nat) (c : Z) :
  opt_update (adam lr) (replicate n 0) (mkAdam c (replicate n 0) (replicate n 0))
  = (replicate n 0, mkAdam (c + 1) (replicate n 0) (replicate n 0)).
Proof.
  cbn. rewrite !zip_with_replicate, !fmap_replicate, zip_with_replicate,
    fmap_replicate.
  assert (H1 : (1 - 9 / 10) * 0 + 9 / 10 * 0 = 0) by lra.
  assert (H2 : (1 - 999 / 1000) * (0 * 0) + 999 / 1000 * 0 = 0) by lra.
  rewrite H1, H2.
  assert (H3 : ∀ x, 0 / x = 0) by (intros x; unfold Rdiv; apply Rmult_0_l).
  rewrite !H3. by rewrite Rmult_0_r.
Qed.

(** X18. Started at a stationary point of the loss, a vector where the
    derivative is zero, the optimiser never moves: [init_weights] returns
    the initial weights for every number of steps. *)
Theorem init_weights_stays_at_stationary_point `{Autodiff}
    (log_pdgrm : list R) (m : LogPSplines.t) (w0 : list R) (num_steps : Z) :
  (value_and_grad
     (λ weights,
        - whittle_lnlike log_pdgrm (LogPSplines_call m (Some weights)))
     w0).2 = replicate (length w0) 0 →
  init_weights log_pdgrm m (Some w0) num_steps = Ok w0.
Proof.
  intros Hgrad. unfold init_weights. cbn [mbind result_bind].
  set (loss := λ weights : list R,
         - whittle_lnlike log_pdgrm (LogPSplines_call m (Some weights)))
    in *.
  set (zeros := replicate (length w0) 0).
  set (P := λ st : list R * opt_state (adam (1 / 100)),
         st.1 = w0 ∧ mu st.2 = zeros ∧ nu st.2 = zeros).
  assert (HP : P (fori_loop 0 num_steps
                    (init_weights_step (adam (1 / 100)) loss)
                    (w0, opt_init (adam (1 / 100)) w0))).
  { apply fori_loop_invariant.
    - assert (Hc : (λ _ : R, 0) <$> w0 = replicate (length w0) 0)
        by (by apply const_fmap).
      unfold P, zeros. cbn. by rewrite Hc.
    - intros i [w [c mu0 nu0]] (Hw & Hmu & Hnu). cbn [fst snd mu nu] in *.
      subst w mu0 nu0. unfold P, init_weights_step.
      destruct (value_and_grad loss w0) as [v g]. cbn [snd] in Hgrad.
      subst g. unfold zeros.
      rewrite (adam_zero_gradient (1 / 100) (length w0) c).
      cbn [fst snd mu nu]. unfold apply_updates.
      by rewrite zip_plus_zeros. }
  destruct (fori_loop 0 num_steps _ _) as [w st].
  destruct HP as (Hw & _). cbn [fst] in Hw. by rewrite Hw.
Qed.

Lemma init_weights_stays_at_stationary_point_witness :
  @init_weights autodiff_least_squares [0; 0]
    (LogPSplines.mk 1 1 2 (mkArr [] []) (mkArr [] []) [0; 1] [0; 0]
                    None None)
    (Some [0; 0]) 5000 = Ok [0; 0].
Proof.
  apply (@init_weights_stays_at_stationary_point autodiff_least_squares).
  cbn. f_equal; [lra|]. f_equal. lra.
Defined.

(** ** The cached property and the sampler entry point *)



(** X21. [run_mcmc] never reaches the sampler: for every periodogram,
    parametric model, seed and spline keywords, the call of
    [from_periodogram] it starts with ends in the [TypeError] raised in the
    knot selection, before the basis, the model or the weights are
    built. *)
Theorem run_mcmc_raises_type_error `{Skfda} `{Autodiff} `{Numpyro}
    (pdgrm : Periodogram.t) (parametric_model : option (list R))
    (rng_key : Z) (spline_kwgs : gmap string Z) :
  ∃ msg,
    run_mcmc pdgrm parametric_model rng_key spline_kwgs []
    = (Err (TypeError msg), [CallInitKnots]).
Proof.
  unfold run_mcmc.
  destruct (from_periodogram_stops_in_init_knots pdgrm
              (default 10%Z (spline_kwgs !! "n_knots"))
              (default 3%Z (spline_kwgs !! "degree"))
              (default 2%Z (spline_kwgs !! "diffMatrixOrder"))
              parametric_model ∅) as [msg ->].
  by exists msg.
Qed.

(** ** Compositions of the [datasets] methods *)

Lemma last_filter_keeps (P : R → Prop) `{!∀ x, Decision (P x)}
    (l : list R) (x : R) :
  last l = Some x → P x → last (filter P l) = Some x.
Proof.
  intros Hl Hp. apply last_Some in Hl as [l' ->].
  rewrite filter_app, filter_cons_True, filter_nil by done.
  by rewrite last_snoc.
Qed.

(** X24. A high-pass filter below the highest frequency does not change
    the sampling frequency read from the periodogram: when the last
    frequency exceeds the threshold, [fs] of the filtered instance is [fs]
    of the original. *)
Theorem highpass_preserves_sampling_frequency (σ : gmap loc Periodogram.t)
    (self : loc) (p : Periodogram.t) (min_freq f : R) :
  σ !! self = Some p →
  length (Periodogram.power p) = length (Periodogram.freqs p) →
  last (Periodogram.freqs p) = Some f →
  min_freq < f →
  ∃ l q σ',
    highpass self min_freq σ = (Ok l, σ')
    ∧ σ' !! l = Some q
    ∧ Periodogram_fs q = Ok (2 * f)
    ∧ Periodogram_fs q = Periodogram_fs p.
Proof.
  intros Hself Hlen Hlast Hf.
  pose proof (highpass_filter σ self p min_freq Hself Hlen) as Hrun.
  cbv zeta in Hrun.
  eexists _, _, _. split; [exact Hrun|].
  split; [by rewrite lookup_insert_eq|].
  unfold Periodogram_fs. cbn [Periodogram.freqs].
  rewrite (filter_zip_fst (λ f, min_freq < f)) by done.
  rewrite (last_filter_keeps (λ f, min_freq < f) _ f) by done.
  by rewrite Hlast.
Qed.

Lemma highpass_preserves_sampling_frequency_witness :
  ∃ l q σ',
    highpass 1%positive 1
      {[ 1%positive := Periodogram.mk [1; 2; 3] [5; 6; 7] false ]}
    = (Ok l, σ')
    ∧ σ' !! l = Some q
    ∧ Periodogram_fs q = Ok (2 * 3).
Proof.
  destruct (highpass_preserves_sampling_frequency
              {[ 1%positive := Periodogram.mk [1; 2; 3] [5; 6; 7] false ]}
              1%positive (Periodogram.mk [1; 2; 3] [5; 6; 7] false) 1 3
              (lookup_singleton_eq _ _) eq_refl eq_refl ltac:(lra))
    as (l & q & σ' & Hrun & Hl & Hfs & _).
  exists l, q, σ'. split; [exact Hrun|]. split; [exact Hl|exact Hfs].
Defined.



(** X26. Standardising twice loses the scale: on the instance returned by
    [standardise], a second [standardise] returns the same values again,
    now with [std = 1], and overwrites the [std] of the first result
    with 1. *)
Theorem standardise_twice (σ : gmap loc Timeseries.obj)
    (self : loc) (ts : Timeseries.obj) :
  σ !! self = Some ts →
  jnp_std (Timeseries.y ts) ≠ 0 →
  ∃ l1 σ1 new1 l2 σ2 new2,
    standardise self σ = (Ok l1, σ1)
    ∧ σ1 !! l1 = Some new1
    ∧ Timeseries.std new1 = jnp_std (Timeseries.y ts)
    ∧ standardise l1 σ1 = (Ok l2, σ2)
    ∧ σ2 !! l2 = Some new2
    ∧ Timeseries.y new2 = Timeseries.y new1
    ∧ Timeseries.std new2 = 1
    ∧ σ2 !! l1
      = Some (Timeseries.mk (Timeseries.t new1) (Timeseries.y new1) 1).
Proof.
  intros Hself Hs.
  destruct (standardise_zero_mean_unit_std σ self ts Hself Hs)
    as (l1 & new1 & σ1 & Hrun1 & _ & Hl1 & _ & _ & Hstd1 & _ & Hm1 & Hs1 & _).
  destruct (standardise_zero_mean_unit_std σ1 l1 new1 Hl1
              ltac:(rewrite Hs1; lra))
    as (l2 & new2 & σ2 & Hrun2 & _ & Hl2 & Hself2 & _ & Hstd2 & _).
  exists l1, σ1, new1, l2, σ2, new2.
  split; [exact Hrun1|]. split; [exact Hl1|]. split; [exact Hstd1|].
  split; [exact Hrun2|]. split; [exact Hl2|].
  rewrite Hs1 in Hself2, Hstd2. split; [|split; [exact Hstd2|exact Hself2]].
  (* the values of the second result *)
  unfold standardise in Hrun2. rewrite Hl1 in Hrun2.
  assert (Hy1 : Timeseries.y new1 ≠ []).
  { intros Hnil. rewrite Hnil in Hs1. unfold jnp_std, jnp_mean in Hs1.
    cbn in Hs1. unfold Rdiv in Hs1. rewrite Rmult_0_l, sqrt_0 in Hs1. lra. }
  rewrite decide_False in Hrun2 by done.
  rewrite Hs1, Hm1 in Hrun2. rewrite decide_False in Hrun2 by lra.
  injection Hrun2 as Hl Hσ. subst σ2. rewrite Hl, lookup_insert_eq in Hl2.
  injection Hl2 as <-. cbn [Timeseries.y].
  rewrite <- (list_fmap_id (Timeseries.y new1)) at 2.
  apply list_fmap_ext. intros i x _. unfold Datatypes.id. field.
Qed.

Lemma standardise_twice_witness :
  ∃ l1 σ1 new1 l2 σ2 new2,
    standardise 1%positive {[ 1%positive := Timeseries.mk [0; 1] [0; 2] 1 ]}
    = (Ok l1, σ1)
    ∧ σ1 !! l1 = Some new1
    ∧ standardise l1 σ1 = (Ok l2, σ2)
    ∧ σ2 !! l2 = Some new2
    ∧ Timeseries.y new2 = Timeseries.y new1.
Proof.
  assert (Hs : jnp_std (Timeseries.y (Timeseries.mk [0; 1] [0; 2] 1)) ≠ 0).
  { cbn [Timeseries.y]. rewrite jnp_std_two_points. lra. }
  destruct (standardise_twice
              {[ 1%positive := Timeseries.mk [0; 1] [0; 2] 1 ]}
              1%positive (Timeseries.mk [0; 1] [0; 2] 1)
              (lookup_singleton_eq _ _) Hs)
    as (l1 & σ1 & new1 & l2 & σ2 & new2 & H1 & Hl1 & _ & H2 & Hl2 & Hy & _).
  exists l1, σ1, new1, l2, σ2, new2. repeat split; assumption.
Defined.
